(** * apitypings: the Go-to-TypeScript declaration generator

    A shallow embedding of [scripts/apitypings/main.go].  The generator
    walks the type-checked declarations of a Go package ([go/types]) and
    prints TypeScript declarations.  Go strings are byte strings
    ([string]), Go maps are [gmap]s, the [*Generator] pointers shared
    between the passes live in an explicit heap, and errors and run-time
    panics are separate outcomes of every fallible function. *)

From Stdlib Require Import ZArith Ascii String.
From stdpp Require Import base option gmap strings list fin_maps sorting pretty.

Set Warnings "-register-all,-clear-no-such-hyp".




(** ** Go strings *)

Module strings.

Definition nl : string := String (ascii_of_nat 10) "".
Definition dquote : string := String (ascii_of_nat 34) "".

  (** [strings.HasPrefix] and [strings.HasSuffix]. *)
Definition HasPrefix (s prefix : string) : bool := String.prefix prefix s.

Definition HasSuffix (s suffix : string) : bool :=
    bool_decide (String.length suffix ≤ String.length s)%nat &&
    bool_decide (String.substring (String.length s - String.length suffix)%nat
                                  (String.length suffix) s = suffix).

  (** [strings.TrimPrefix]. *)
Definition TrimPrefix (s prefix : string) : string :=
    if HasPrefix s prefix
    then String.substring (String.length prefix)
                          (String.length s - String.length prefix)%nat s
    else s.

  (** [strings.Join]. *)
Fixpoint Join (elems : list string) (sep : string) : string :=
    match elems with
    | [] => ""
    | [e] => e
    | e :: rest => e +:+ sep +:+ Join rest sep
    end.

  (** [strings.TrimRight s cutset] for a one-byte cutset: every trailing
      occurrence of the byte is removed. *)
Fixpoint TrimRight (s : string) (c : ascii) : string :=
    match s with
    | "" => ""
    | String a rest =>
        match TrimRight rest c with
        | "" => if decide (a = c) then "" else String a ""
        | rest' => String a rest'
        end
    end.

  (** A string given by the numbers of its bytes. *)
Definition bytes (l : list nat) : string :=
    foldr (λ n s, String (ascii_of_nat n) s) "" l.

  (** White space as [strings.TrimSpace] sees it, [unicode.IsSpace]: the
      six ASCII characters tab, line feed, vertical tab, form feed,
      carriage return and space, and the characters U+0085, U+00A0,
      U+1680, U+2000 to U+200A, U+2028, U+2029, U+202F, U+205F and
      U+3000, each as the bytes of its UTF-8 encoding. *)
Definition spaces : list string :=
    bytes <$> [ [9]; [10]; [11]; [12]; [13]; [32];
                [194; 133]; [194; 160];
                [225; 154; 128];
                [226; 128; 128]; [226; 128; 129]; [226; 128; 130]; [226; 128; 131];
                [226; 128; 132]; [226; 128; 133]; [226; 128; 134]; [226; 128; 135];
                [226; 128; 136]; [226; 128; 137]; [226; 128; 138];
                [226; 128; 168]; [226; 128; 169]; [226; 128; 175];
                [226; 129; 159];
                [227; 128; 128] ].

  (** The text after the first of the [cutset] strings that [s] starts
      with. *)
Fixpoint cutPrefix (cutset : list string) (s : string) : option string :=
    match cutset with
    | [] => None
    | c :: rest =>
        if String.prefix c s
        then Some (String.substring (String.length c) (String.length s - String.length c)%nat s)
        else cutPrefix rest s
    end.

  (** The loop that drops leading characters of the cutset; it runs at
      most once per byte of the text, which [n] counts. *)
Fixpoint trimLeft (n : nat) (cutset : list string) (s : string) : string :=
    match n with
    | 0 => s
    | S n' =>
        match cutPrefix cutset s with
        | Some rest => trimLeft n' cutset rest
        | None => s
        end
    end.

Definition TrimLeftSpace (s : string) : string := trimLeft (String.length s) spaces s.

  (** A character ends the text when its encoding does: the last
      character is looked for from the last byte backwards. *)
Definition TrimRightSpace (s : string) : string :=
    String.rev (trimLeft (String.length s) (String.rev <$> spaces) (String.rev s)).

  (** [strings.TrimSpace]: all leading and trailing white space removed,
      as defined by Unicode. *)
Definition TrimSpace (s : string) : string := TrimRightSpace (TrimLeftSpace s).

  (** [strings.Split s sep] for a one-byte separator. *)
Fixpoint Split (s : string) (sep : ascii) : list string :=
    match s with
    | "" => [""]
    | String a rest =>
        if decide (a = sep) then "" :: Split rest sep
        else match Split rest sep with
             | [] => [String a ""]
             | w :: ws => String a w :: ws
             end
    end.

  (** The text after the first occurrence of [needle] in [s], if any. *)
Fixpoint after (needle s : string) : option string :=
    if String.prefix needle s
    then Some (String.substring (String.length needle)
                                (String.length s - String.length needle)%nat s)
    else match s with
         | "" => None
         | String _ rest => after needle rest
         end.

  (** The longest prefix of [s] free of line feeds: what [.*] matches. *)
Fixpoint line (s : string) : string :=
    match s with
    | "" => ""
    | String a rest => if decide (a = ascii_of_nat 10) then "" else String a (line rest)
    end.

  (** [slices.Contains] on strings. *)
Definition Contains (l : list string) (x : string) : bool := bool_decide (x ∈ l).

End strings.

(** ** [sort.Strings] *)

(** Go compares strings byte by byte, which is the order [String.le].
    [sort.Strings] is modelled by a merge sort; the order is total and
    antisymmetric, so every correct sorting algorithm returns the same
    list. *)
Definition sort_Strings (l : list string) : list string := merge_sort String.le l.

(** ** Outcomes of fallible code *)

(** A Go function of this program returns a value, returns an [error], or
    panics (nil map write, nil dereference, explicit [panic]). *)
Inductive result (A : Type) : Type :=
| Ok (a : A)
| Err (msg : string)
| Panic (msg : string).
Arguments Ok {A} a.
Arguments Err {A} msg.
Arguments Panic {A} msg.

(** ** [TypescriptTypes] and its rendering *)

(** TypescriptTypes holds all the code blocks created: each entry is the
    type name and its typescript code block. *)
Record TypescriptTypes := {
  Types : gmap string string;
  Enums : gmap string string;
  Generics : gmap string string;
}.

(** One [for _, k := range sorted { v := m[k]; WriteString(v); WriteRune('\n') }]
    loop of [String]; a missing key reads as the empty string. *)
Fixpoint writeBlocks (m : gmap string string) (sorted : list string) (s : string) : string :=
  match sorted with
  | [] => s
  | k :: rest => writeBlocks m rest (s +:+ default "" (m !! k) +:+ strings.nl)
  end.

(** [TypescriptTypes.String], with the three key enumerations that the
    [for k := range] loops produce made explicit: Go leaves the iteration
    order of a map unspecified. *)
Definition String_ranged (kTypes kEnums kGenerics : list string) (t : TypescriptTypes) : string :=
  let sortedTypes := sort_Strings kTypes in
  let sortedEnums := sort_Strings kEnums in
  let sortedGenerics := sort_Strings kGenerics in
  let s := writeBlocks (Types t) sortedTypes "" in
  let s := writeBlocks (Enums t) sortedEnums s in
  let s := writeBlocks (Generics t) sortedGenerics s in
  strings.TrimRight s (ascii_of_nat 10).

(** The keys of a map, each once. *)
Definition keys {V} (m : gmap string V) : list string := (map_to_list m).*1.

(** ** The [go/types] object model

    The generator never builds types: it receives them from the type
    checker and only reads them through accessors.  Each accessor the
    program calls is a field or a function below. *)

Module types.

  (** [types.BasicKind], in declaration order. *)
Inductive BasicKind :=
  | Invalid
  | Bool | Int | Int8 | Int16 | Int32 | Int64
  | Uint | Uint8 | Uint16 | Uint32 | Uint64 | Uintptr
  | Float32 | Float64 | Complex64 | Complex128
  | String | UnsafePointer
  | UntypedBool | UntypedInt | UntypedRune | UntypedFloat
  | UntypedComplex | UntypedString | UntypedNil.

#[global] Instance BasicKind_eq_dec : EqDecision BasicKind.
Proof. solve_decision. Defined.

  (** The two aliases of [go/types]: [Byte = Uint8] and [Rune = Int32]. *)
Definition Byte : BasicKind := Uint8.
Definition Rune : BasicKind := Int32.

  (** [types.BasicInfo] is a set of flags, [1 << iota]. *)
Definition IsBoolean : Z := 1.
Definition IsInteger : Z := 2.
Definition IsUnsigned : Z := 4.
Definition IsFloat : Z := 8.
Definition IsComplex : Z := 16.
Definition IsString : Z := 32.
Definition IsUntyped : Z := 64.
Definition IsNumeric : Z := Z.lor IsInteger (Z.lor IsFloat IsComplex).

  (** [types.Basic]: kind, info and name, read by [Kind()], [Info()] and
      [Name()]. *)
Record Basic := { Kind : BasicKind; Info : Z; Name : string }.

  (** The table [types.Typ] of the predeclared basic types. *)
Definition Typ (k : BasicKind) : Basic :=
    match k with
    | Invalid => {| Kind := Invalid; Info := 0; Name := "invalid type" |}
    | Bool => {| Kind := Bool; Info := IsBoolean; Name := "bool" |}
    | Int => {| Kind := Int; Info := IsInteger; Name := "int" |}
    | Int8 => {| Kind := Int8; Info := IsInteger; Name := "int8" |}
    | Int16 => {| Kind := Int16; Info := IsInteger; Name := "int16" |}
    | Int32 => {| Kind := Int32; Info := IsInteger; Name := "int32" |}
    | Int64 => {| Kind := Int64; Info := IsInteger; Name := "int64" |}
    | Uint => {| Kind := Uint; Info := Z.lor IsInteger IsUnsigned; Name := "uint" |}
    | Uint8 => {| Kind := Uint8; Info := Z.lor IsInteger IsUnsigned; Name := "uint8" |}
    | Uint16 => {| Kind := Uint16; Info := Z.lor IsInteger IsUnsigned; Name := "uint16" |}
    | Uint32 => {| Kind := Uint32; Info := Z.lor IsInteger IsUnsigned; Name := "uint32" |}
    | Uint64 => {| Kind := Uint64; Info := Z.lor IsInteger IsUnsigned; Name := "uint64" |}
    | Uintptr => {| Kind := Uintptr; Info := Z.lor IsInteger IsUnsigned; Name := "uintptr" |}
    | Float32 => {| Kind := Float32; Info := IsFloat; Name := "float32" |}
    | Float64 => {| Kind := Float64; Info := IsFloat; Name := "float64" |}
    | Complex64 => {| Kind := Complex64; Info := IsComplex; Name := "complex64" |}
    | Complex128 => {| Kind := Complex128; Info := IsComplex; Name := "complex128" |}
    | String => {| Kind := String; Info := IsString; Name := "string" |}
    | UnsafePointer => {| Kind := UnsafePointer; Info := 0; Name := "Pointer" |}
    | UntypedBool => {| Kind := UntypedBool; Info := Z.lor IsBoolean IsUntyped; Name := "untyped bool" |}
    | UntypedInt => {| Kind := UntypedInt; Info := Z.lor IsInteger IsUntyped; Name := "untyped int" |}
    | UntypedRune => {| Kind := UntypedRune; Info := Z.lor IsInteger IsUntyped; Name := "untyped rune" |}
    | UntypedFloat => {| Kind := UntypedFloat; Info := Z.lor IsFloat IsUntyped; Name := "untyped float" |}
    | UntypedComplex => {| Kind := UntypedComplex; Info := Z.lor IsComplex IsUntyped; Name := "untyped complex" |}
    | UntypedString => {| Kind := UntypedString; Info := Z.lor IsString IsUntyped; Name := "untyped string" |}
    | UntypedNil => {| Kind := UntypedNil; Info := IsUntyped; Name := "untyped nil" |}
    end.

  (** The universe's [byte] and [rune]: the same kinds under other names. *)
Definition universeByte : Basic :=
    {| Kind := Byte; Info := Z.lor IsInteger IsUnsigned; Name := "byte" |}.
Definition universeRune : Basic :=
    {| Kind := Rune; Info := IsInteger; Name := "rune" |}.

Definition allKinds : list BasicKind :=
    [Invalid; Bool; Int; Int8; Int16; Int32; Int64; Uint; Uint8; Uint16; Uint32;
     Uint64; Uintptr; Float32; Float64; Complex64; Complex128; String;
     UnsafePointer; UntypedBool; UntypedInt; UntypedRune; UntypedFloat;
     UntypedComplex; UntypedString; UntypedNil].

  (** Every [*types.Basic] the type checker hands out. *)
Definition basics : list Basic := (Typ <$> allKinds) ++ [universeByte; universeRune].

  (** A struct field, a [*types.Var]: [Name()], [Pkg().Name()],
      [Embedded()] and [Exported()]. *)
Record Var := {
    var_Name : string;
    var_Pkg : string;
    var_Embedded : bool;
    var_Exported : bool;
  }.

  (** A struct tag, [st.Tag(i)]: the text between the back quotes. *)
Definition StructTag := string.

  (** The object of a named type, a [*types.TypeName]: [Name()] and
      [Pkg().Name()]; objects of the universe ([error], [comparable]) have
      no package. *)
Record TypeName := {
    tn_Name : string;
    tn_Pkg : option string;
  }.

  (** A [*types.TypeParam]: [Obj().Name()], [String()],
      [Obj().Pkg().Path()], [Constraint().String()] and whether
      [Underlying()] is an interface. *)
Record TypeParam := {
    tp_Name : string;
    tp_String : string;
    tp_PkgPath : string;
    tp_Constraint : string;
    tp_UnderlyingInterface : bool;
  }.

  (** What the program reads of a [*types.Named] beside its type arguments
      and underlying type: [String()], [Obj()] and [TypeParams()]. *)
Record NamedInfo := {
    n_String : string;
    n_Obj : TypeName;
    n_TypeParams : list TypeParam;
  }.

Record Field (T : Type) := {
    f_Var : Var;
    f_Tag : StructTag;
    f_Type : T;
  }.
Arguments f_Var {T} _.
Arguments f_Tag {T} _.
Arguments f_Type {T} _.

  (** [types.Type].  A named type carries its underlying type; the mapper
      looks at it only where the name resolves nowhere, so the type graph
      is given by its finite unfolding. *)
Inductive Type_ :=
  | TBasic (b : Basic)
  | TStruct (fields : list (Field Type_))
  | TMap (key elem : Type_)
  | TSlice (elem : Type_)
  | TArray (len : N) (elem : Type_)
  | TNamed (n : NamedInfo) (targs : list Type_) (underlying : Type_)
  | TPointer (elem : Type_)
  | TInterface (empty : bool) (embeddeds : list Type_)
  | TTypeParam (tp : TypeParam)
  | TUnion (terms : list (bool * Type_))
  | TSignature (str : string)
  | TChan (str : string).

  (** [Type.String()], as far as the program's decisions depend on it:
      exact on basic types (the name, but [unsafe.Pointer] for the basic
      type named [Pointer]), on named and parameter types, on signatures
      and channels (whose text is carried), and structural on the
      composite types, whose text starts with a bracket or a keyword. *)
Fixpoint TypeString (ty : Type_) : string :=
    match ty with
    | TBasic b => if bool_decide (Name b = "Pointer") then "unsafe.Pointer" else Name b
    | TStruct fields =>
        "struct{" +:+
        strings.Join ((fix each (fs : list (Field Type_)) : list string :=
                         match fs with
                         | [] => []
                         | f :: rest =>
                             (if var_Embedded (f_Var f) then TypeString (f_Type f)
                              else var_Name (f_Var f) +:+ " " +:+ TypeString (f_Type f))
                             :: each rest
                         end) fields) "; " +:+ "}"
    | TMap k e => "map[" +:+ TypeString k +:+ "]" +:+ TypeString e
    | TSlice e => "[]" +:+ TypeString e
    | TArray n e => "[" +:+ pretty n +:+ "]" +:+ TypeString e
    | TNamed n _ _ => n_String n
    | TPointer e => "*" +:+ TypeString e
    | TInterface _ embeddeds =>
        "interface{" +:+
        strings.Join ((fix each (es : list Type_) : list string :=
                         match es with
                         | [] => []
                         | e :: rest => TypeString e :: each rest
                         end) embeddeds) "; " +:+ "}"
    | TTypeParam tp => tp_String tp
    | TUnion terms =>
        strings.Join ((fix each (ts : list (bool * Type_)) : list string :=
                         match ts with
                         | [] => []
                         | (tilde, t) :: rest =>
                             ((if tilde : bool then "~" else "") +:+ TypeString t) :: each rest
                         end) terms) " | "
    | TSignature str => str
    | TChan str => str
    end.

  (** What the program reads of a [types.Object] of a package scope:
      [Name()], [Pkg().Name()], the name of the file its position lies
      in, and [String()], the text that [go/types] prints for the
      object. *)
Record ObjInfo := {
    obj_Name : string;
    obj_Pkg : string;
    obj_File : string;
    obj_String : string;
  }.

  (** [types.Object]: the declarations of a package scope.  [Type()] may
      be nil. *)
Inductive Object :=
  | OTypeName (o : ObjInfo) (ty : option Type_)
  | OVar (o : ObjInfo) (ty : option Type_)
  | OConst (o : ObjInfo) (ty : option Type_) (val : string)
  | OFunc (o : ObjInfo) (ty : option Type_)
  | OOther (o : ObjInfo) (ty : option Type_).

Definition info (obj : Object) : ObjInfo :=
    match obj with
    | OTypeName o _ | OVar o _ | OConst o _ _ | OFunc o _ | OOther o _ => o
    end.

Definition Type' (obj : Object) : option Type_ :=
    match obj with
    | OTypeName _ ty | OVar _ ty | OConst _ ty _ | OFunc _ ty | OOther _ ty => ty
    end.

  (** A package scope: [Lookup] is the map lookup, [Names] the sorted
      keys. *)
Definition Scope := gmap string Object.

Definition Lookup (s : Scope) (name : string) : option Object := s !! name.

Definition Names (s : Scope) : list string := sort_Strings (keys s).

End types.

(** ** Library functions the generator calls

    [cases.Title(language.English).String], the [%q] verb of [fmt],
    [path.Join], [filepath.Base], [reflect.StructTag.Get] and
    [structtag.Parse] belong to libraries; the generator is verified for
    any implementation of them. *)

(** A tag parsed by [structtag]: its key, the text before the first
    comma of its value and the options after it. *)
Record Tag := {
  tag_Key : string;
  tag_Name : string;
  tag_Options : list string;
}.

Class Library := {
  Title : string → string;
  Quote : string → string;
  path_Join : string → string → string;
  filepath_Base : string → string;
  (* [tag.Get(key)]: the value of the key in the text of a struct tag,
     the empty string when the key is not there. *)
  StructTag_Get : types.StructTag → string → string;
  (* [structtag.Parse(tag)]: an error, here [None], or a pointer to the
     tags of the text, which may be nil. *)
  structtag_Parse : types.StructTag → option (option (list Tag));
}.

(** ** Generator state *)

(** A loaded package ([packages.Package]): its name, the scope of its
    declarations and the text of every comment line of its files, in
    file order. *)
Record Package := {
  pkg_Name : string;
  pkg_Scope : types.Scope;
  pkg_Comments : list string;
}.

(** [Generator].  [externals] holds pointers: the external generators are
    shared by every generator built from them and by [main]. *)
Record Generator := {
  pkg : Package;
  onlyOptIn : bool;
  allowList : list string;
  externals : list nat;
  builtins : gmap string string;
  cachedResult : option TypescriptTypes;
}.

(** The heap of generators, addressed by position, and what was printed
    on the standard output. *)
Record State := {
  gens : list Generator;
  stdout : string;
}.

(** Computations over the state that return, fail with an error, or
    panic. *)
Definition M (A : Type) : Type := State → result (A * State).

Definition ret {A} (a : A) : M A := λ σ, Ok (a, σ).

Definition bind {A B} (m : M A) (k : A → M B) : M B := λ σ,
  match m σ with
  | Ok (a, σ') => k a σ'
  | Err msg => Err msg
  | Panic msg => Panic msg
  end.

Definition fail {A} (msg : string) : M A := λ _, Err msg.
Definition panic {A} (msg : string) : M A := λ _, Panic msg.

Notation "x <- c1 ;; c2" := (bind c1 (λ x, c2))
  (at level 100, c1 at next level, c2 at level 200, right associativity).
Notation "c1 ;; c2" := (bind c1 (λ _, c2))
  (at level 100, c2 at level 200, right associativity).

(** [xerrors.Errorf(prefix + "%w", err)]: an error is wrapped on its way
    up. *)
Definition wrap {A} (prefix : string) (m : M A) : M A := λ σ,
  match m σ with
  | Err msg => Err (prefix +:+ msg)
  | r => r
  end.

(** Dereferencing a [*Generator]. *)
Definition deref (p : nat) : M Generator := λ σ,
  match gens σ !! p with
  | Some g => Ok (g, σ)
  | None => Panic "runtime error: invalid memory address or nil pointer dereference"
  end.

Definition store (p : nat) (g : Generator) : M unit := λ σ,
  Ok (tt, {| gens := <[p := g]> (gens σ); stdout := stdout σ |}).

(** [g.allowList = append(g.allowList, name)]. *)
Definition appendAllowList (p : nat) (name : string) : M unit :=
  g <- deref p ;;
  store p {| pkg := pkg g; onlyOptIn := onlyOptIn g;
             allowList := (allowList g ++ [name])%list;
             externals := externals g; builtins := builtins g;
             cachedResult := cachedResult g |}.

(** [g.builtins[name] = value]. *)
Definition setBuiltin (p : nat) (name value : string) : M unit :=
  g <- deref p ;;
  store p {| pkg := pkg g; onlyOptIn := onlyOptIn g; allowList := allowList g;
             externals := externals g; builtins := <[name := value]> (builtins g);
             cachedResult := cachedResult g |}.

(** [g.cachedResult = codeBlocks]. *)
Definition setCachedResult (p : nat) (ts : TypescriptTypes) : M unit :=
  g <- deref p ;;
  store p {| pkg := pkg g; onlyOptIn := onlyOptIn g; allowList := allowList g;
             externals := externals g; builtins := builtins g;
             cachedResult := Some ts |}.

(** [fmt.Print]. *)
Definition print (s : string) : M unit := λ σ,
  Ok (tt, {| gens := gens σ; stdout := stdout σ +:+ s |}).

(** ** Go maps that may be nil *)

(** A [map[string]string] value is nil or a map; reading and ranging
    over nil is fine, writing to it panics. *)
Definition GoMap : Type := option (gmap string string).

Definition goAssign (m : GoMap) (k v : string) : M GoMap :=
  match m with
  | None => panic "assignment to entry in nil map"
  | Some m => ret (Some (<[k := v]> m))
  end.

(** ** [TypescriptType] *)

Record TypescriptType := {
  (* GenericTypes is a map of generic name to actual constraint. *)
  GenericTypes : GoMap;
  (* GenericValue is the value using the Generic name, rather than the
     constraint. *)
  GenericValue : string;
  (* ValueType is the typescript value type. *)
  ValueType : string;
  (* AboveTypeLine lets you put whatever text you want above the
     typescript type line. *)
  AboveTypeLine : string;
  (* Optional indicates the value is an optional field in typescript. *)
  Optional : bool;
}.

(** [TypescriptType{ValueType: v}]. *)
Definition tsValue (v : string) : TypescriptType :=
  {| GenericTypes := None; GenericValue := ""; ValueType := v;
     AboveTypeLine := ""; Optional := false |}.

(** [TypescriptType{ValueType: v, Optional: true}]. *)
Definition tsOptional (v : string) : TypescriptType :=
  {| GenericTypes := None; GenericValue := ""; ValueType := v;
     AboveTypeLine := ""; Optional := true |}.

(** [TypescriptType{ValueType: v, AboveTypeLine: c}]. *)
Definition tsCommented (v c : string) : TypescriptType :=
  {| GenericTypes := None; GenericValue := ""; ValueType := v;
     AboveTypeLine := c; Optional := false |}.

Definition indent : string := "  ".

Definition indentedComment (comment : string) : string :=
  indent +:+ "// " +:+ comment.

(** The external named types that are handled uniquely: the first
    [switch n.String()] of the named case. *)
Definition namedTable : list (string * TypescriptType) :=
  [ ("github.com/coder/serpent.Regexp", tsValue "string");
    ("github.com/coder/serpent.HostPort", tsValue "string");
    ("github.com/coder/serpent.StringArray", tsValue "string[]");
    ("github.com/coder/serpent.String", tsValue "string");
    ("github.com/coder/serpent.YAMLConfigPath", tsValue "string");
    ("github.com/coder/serpent.Strings", tsValue "string[]");
    ("github.com/coder/serpent.Int64", tsValue "number");
    ("github.com/coder/serpent.Bool", tsValue "boolean");
    ("github.com/coder/serpent.Duration", tsValue "number");
    ("net/url.URL", tsValue "string");
    ("time.Time", tsValue "string");
    ("time.Duration", tsValue "number");
    ("database/sql.NullTime", tsOptional "string");
    ("github.com/coder/coder/v2/codersdk.NullTime", tsOptional "string");
    ("github.com/google/uuid.NullUUID", tsOptional "string");
    ("github.com/google/uuid.UUID", tsValue "string");
    ("encoding/json.RawMessage", tsValue "Record<string, string>");
    ("github.com/coder/serpent.URL", tsValue "string");
    ("github.com/coder/coder/v2/codersdk.RegionsResponse[github.com/coder/coder/v2/codersdk.WorkspaceProxy]",
      tsValue "RegionsResponse<WorkspaceProxy>");
    ("github.com/coder/coder/v2/coderd/healthcheck/health.Message", tsValue "HealthMessage");
    ("github.com/coder/coder/v2/coderd/healthcheck/health.Severity", tsValue "HealthSeverity");
    ("github.com/coder/coder/v2/healthsdk.HealthSection", tsValue "HealthSection");
    ("github.com/coder/coder/v2/codersdk.ProvisionerDaemon", tsValue "ProvisionerDaemon") ].

Fixpoint assoc {V} (l : list (string * V)) (k : string) : option V :=
  match l with
  | [] => None
  | (k', v) :: rest => if decide (k' = k) then Some v else assoc rest k
  end.

(** Whether a line feed free stretch at the start of [s] holds [c]. *)
Fixpoint lineHas (c : ascii) (s : string) : bool :=
  match s with
  | "" => false
  | String a rest =>
      if decide (a = ascii_of_nat 10) then false
      else if decide (a = c) then true else lineHas c rest
  end.

(** The regular expression [github\.com/coder/serpent.Struct\[.*\]]
    matched at the start of [s]: the unescaped dot stands for any byte
    but a line feed. *)
Definition serpentStructAt (s : string) : bool :=
  let lit := "github.com/coder/serpent" in
  String.prefix lit s &&
  match String.substring (String.length lit) (String.length s - String.length lit)%nat s with
  | "" => false
  | String a rest =>
      negb (bool_decide (a = ascii_of_nat 10)) &&
      String.prefix "Struct[" rest &&
      lineHas "]"%char (String.substring 7 (String.length rest - 7)%nat rest)
  end.

(** [regexp.MatchString]: a match anywhere in [s]. *)
Fixpoint serpentStruct (s : string) : bool :=
  serpentStructAt s ||
  match s with
  | "" => false
  | String _ rest => serpentStruct rest
  end.

(** isBuiltIn returns the string for a builtin type that we want to
    support if the name is a reserved builtin type. *)
Definition isBuiltIn (name : string) : bool * string :=
  if decide (name = "comparable")
  then (true, "export type comparable = boolean | number | string | any")
  else if decide (name = "any") then (true, "")
  else (false, "").

(** The fields of [structTemplateState] live in a module of their own:
    [Generics] also names a field of [TypescriptTypes]. *)
Module tpl.
Record structTemplateState := {
    PosLine : string;
    Name : string;
    Fields : list string;
    Generics : list string;
    Extends : string;
    AboveLine : string;
  }.
End tpl.

(** The execution of [structTemplate] on a state. *)
Definition structTemplate (state : tpl.structTemplateState) : string :=
  tpl.PosLine state +:+
  (if bool_decide (tpl.AboveLine state ≠ "") then tpl.AboveLine state +:+ strings.nl else "") +:+
  "export interface " +:+ tpl.Name state +:+
  (if bool_decide (tpl.Generics state ≠ [])
   then "<" +:+ strings.Join (tpl.Generics state) ", " +:+ ">" else "") +:+
  (if bool_decide (tpl.Extends state ≠ "") then " extends " +:+ tpl.Extends state else "") +:+
  " {" +:+ strings.nl +:+
  strings.Join (tpl.Fields state) strings.nl +:+ strings.nl +:+
  "}" +:+ strings.nl.

(** [structtag.Tags.Get]: the first tag with the key; [None] when the
    key does not exist. *)
Definition tagsGet (tags : list Tag) (key : string) : option Tag :=
  List.find (λ t, bool_decide (tag_Key t = key)) tags.

(** What a typescript tag does to the inferred type of a field: a name
    replaces the type, and the option [notnull] marks it as not
    optional. *)
Definition tagged (typescriptTag : option Tag) (tsType : TypescriptType) : TypescriptType :=
  match typescriptTag with
  | Some t =>
      let tsType := if bool_decide (tag_Name t ≠ "") then tsValue (tag_Name t) else tsType in
      (* If you specify `typescript:",notnull"` then mark the type as not
         optional. *)
      if bool_decide (head (tag_Options t) = Some "notnull")
      then {| GenericTypes := GenericTypes tsType; GenericValue := GenericValue tsType;
              ValueType := ValueType tsType; AboveTypeLine := AboveTypeLine tsType;
              Optional := false |}
      else tsType
  | None => tsType
  end.

(** [Maps], the working state of one generation pass.  Its fields live
    in a module of their own: [Enums] and [Generics] also name fields of
    [TypescriptTypes]. *)
Module maps.
Record Maps := {
    Structs : gmap string string;
    Generics : gmap string string;
    Enums : gmap string types.Object;
    EnumConsts : gmap string (list types.Object);
    IgnoredTypes : gset string;
    AllowedTypes : gset string;
  }.
End maps.

(** [elem.Val().String()] of a constant. *)
Definition Val_String (obj : types.Object) : string :=
  match obj with
  | types.OConst _ _ val => val
  | _ => ""
  end.

(** The body of the loop [for name, v := range m.Enums] of [generateAll],
    given the position line of [v] and the constants gathered for
    [name]: the code block of one enum. *)
Definition enumCodeBlock (posLine name : string) (consts : list types.Object) : string :=
  let values := Val_String <$> consts in
  let values := sort_Strings values in
  let joined := strings.Join values " | " in
  let joined :=
    if bool_decide (joined = "")
    then (* It's possible an enum has no values. *) "never"
    else joined in
  let pluralName :=
    if strings.HasSuffix name "s" then name +:+ "es" else name +:+ "s" in
  posLine +:+
  "export type " +:+ name +:+ " = " +:+ joined +:+ strings.nl +:+
  (* Generate array used for enumerating all possible values. *)
  "export const " +:+ pluralName +:+ ": " +:+ name +:+ "[] = [" +:+
  strings.Join values ", " +:+ "]" +:+ strings.nl.

(** The names a comment line lists after a directive.  The regular
    expression is the marker, an optional colon and a group that takes
    the rest of the line; the group is split at commas and each part
    trimmed.  Nothing is listed when the line does not match or the
    group is empty. *)
Definition directive (marker text : string) : list string :=
  match strings.after marker text with
  | None => []
  | Some rest =>
      let rest :=
        match rest with
        | String a rest' => if bool_decide (a = ":"%char) then rest' else rest
        | "" => rest
        end in
      let group := strings.line rest in
      if bool_decide (group ≠ "")
      then strings.TrimSpace <$> strings.Split group ","%char
      else []
  end.

(** The loop [for n, value := range g.builtins] of [generateAll]. *)
Fixpoint addBuiltins (kvs : list (string * string)) (generics : gmap string string)
  : gmap string string :=
  match kvs with
  | [] => generics
  | (n, value) :: rest =>
      if bool_decide (value ≠ "") then addBuiltins rest (<[n := value]> generics)
      else addBuiltins rest generics
  end.

(** ** The order of [range] over a map

    Go leaves the order in which [range] visits the entries of a map
    unspecified.  The generator is modelled for every order: [mapRange]
    lists the entries of a map, each once, in the order of the run. *)
Class MapOrder := {
  mapRange : ∀ {V : Type}, gmap string V → list (string * V);
  mapRange_perm : ∀ {V : Type} (m : gmap string V), mapRange m ≡ₚ map_to_list m;
}.

Section Generator.
Context {L : Library} {O : MapOrder}.

(** [for k, v := range m] over a map that may be nil. *)
Definition goRange (m : GoMap) : list (string * string) :=
  match m with
  | None => []
  | Some m => mapRange m
  end.

(** [TypescriptTypes.String]: the keys of each group as [range] yields
    them. *)
Definition TypescriptTypes_String (t : TypescriptTypes) : string :=
  String_ranged (mapRange (Types t)).*1 (mapRange (Enums t)).*1 (mapRange (Generics t)).*1 t.

(** objName prepends the package name of a type if it is outside of
    codersdk; [pkgName] is [obj.Pkg().Name()] and [name] is [obj.Name()]. *)
Definition objName (pkgName name : string) : string :=
  if negb (bool_decide (pkgName = "codersdk")) && negb (bool_decide (pkgName = "healthsdk"))
  then Title pkgName +:+ name
  else name.

(** [objName(n.Obj())] on the object of a named type, whose package may
    be nil. *)
Definition objNameOf (tn : types.TypeName) : M string :=
  match types.tn_Pkg tn with
  | None => panic "runtime error: invalid memory address or nil pointer dereference"
  | Some pkgName => ret (objName pkgName (types.tn_Name tn))
  end.

(** The loop of [lookupNamedReference] over [g.externals]. *)
Fixpoint lookupExternals (exts : list nat) (pkgName name : string)
  : M (option (types.Object * nat * bool)) :=
  match exts with
  | [] => ret None
  | ext :: rest =>
      e <- deref ext ;;
      match types.Lookup (pkg_Scope (pkg e)) name with
      | Some obj =>
          if bool_decide (pkg_Name (pkg e) = pkgName) then ret (Some (obj, ext, false))
          else lookupExternals rest pkgName name
      | None => lookupExternals rest pkgName name
      end
  end.

Definition lookupNamedReference (g : nat) (n : types.NamedInfo)
  : M (option (types.Object * nat * bool)) :=
  match types.tn_Pkg (types.n_Obj n) with
  | None => panic "runtime error: invalid memory address or nil pointer dereference"
  | Some pkgName =>
      let name := types.tn_Name (types.n_Obj n) in
      gen <- deref g ;;
      match types.Lookup (pkg_Scope (pkg gen)) name with
      | Some obj =>
          if bool_decide (pkg_Name (pkg gen) = pkgName) then ret (Some (obj, g, true))
          else lookupExternals (externals gen) pkgName name
      | None => lookupExternals (externals gen) pkgName name
      end
  end.

(** The loop [for k, v := range valueType.GenericTypes { mergeGens[k] = v }]. *)
Fixpoint mergeGenerics (mergeGens : GoMap) (kvs : list (string * string)) : M GoMap :=
  match kvs with
  | [] => ret mergeGens
  | (k, v) :: rest =>
      mergeGens' <- goAssign mergeGens k v ;;
      mergeGenerics mergeGens' rest
  end.

(** The slice and array case, given the text of the element type and the
    mapping of the element. *)
Definition arrayType (elemString : string) (elem : M TypescriptType) : M TypescriptType :=
  if bool_decide (elemString = "byte")
  then
    (* All byte arrays are strings on the typescript. *)
    ret (tsValue "string")
  else
    (* By default, just do an array of the underlying type. *)
    underlying <- wrap "array: " elem ;;
    let genValue :=
      if bool_decide (GenericValue underlying ≠ "")
      then GenericValue underlying +:+ "[]" else "" in
    ret {| ValueType := ValueType underlying +:+ "[]";
           GenericValue := genValue;
           AboveTypeLine := AboveTypeLine underlying;
           GenericTypes := GenericTypes underlying;
           Optional := false |}.

(** The loop of the named case over the type arguments of a generic
    type, given the mapper to apply to each argument. *)
Fixpoint typeArgs (mapper : types.Type_ → M TypescriptType) (objName0 : string)
    (args : list types.Type_)
    (genericConstraints genericNames : list string) (genericTypes : gmap string string)
  : M (list string * list string * gmap string string) :=
  match args with
  | [] => ret (genericConstraints, genericNames, genericTypes)
  | a :: rest =>
      genType <- wrap ("generic field " +:+ Quote objName0 +:+ "<" +:+
                       Quote (types.TypeString a) +:+ ">: ")
                      (mapper a) ;;
      match a with
      | types.TTypeParam param =>
          (* Using a generic defined by the parent. *)
          let gname := types.tp_Name param in
          typeArgs mapper objName0 rest
                   (genericConstraints ++ [ValueType genType])%list
                   (genericNames ++ [gname])%list
                   (<[gname := ValueType genType]> genericTypes)
      | _ =>
          (* Defining a generic *)
          typeArgs mapper objName0 rest
                   (genericConstraints ++ [ValueType genType])%list
                   (genericNames ++ [ValueType genType])%list
                   genericTypes
      end
  end.

(** The named case of [typescriptType] from the lookup of the reference
    on: the name is defined in this package or in an external one, or it
    is an unknown struct, or the mapping is deferred to the underlying
    type.  [mapper] is [g.typescriptType]. *)
Definition namedReference (mapper : types.Type_ → M TypescriptType) (g : nat)
    (n : types.NamedInfo) (targs : list types.Type_) (underlying : types.Type_)
  : M TypescriptType :=
  (* Then see if the type is defined elsewhere. *)
  objName0 <- objNameOf (types.n_Obj n) ;;
  found <- lookupNamedReference g n ;;
  match found with
  | Some (_, objGen, local) =>
      let name := types.tn_Name (types.n_Obj n) in
      gen <- deref g ;;
      (if onlyOptIn gen && negb (strings.Contains (allowList gen) name)
       then appendAllowList g name else ret tt) ;;
      (if negb local then appendAllowList objGen name else ret tt) ;;
      match targs with
      | [] =>
          ret {| GenericTypes := Some ∅; GenericValue := ""; ValueType := objName0;
                 AboveTypeLine := ""; Optional := false |}
      | _ :: _ =>
          r <- typeArgs mapper objName0 targs [] [] ∅ ;;
          let '(genericConstraints, genericNames, genericTypes) := r in
          ret {| GenericTypes := Some genericTypes;
                 GenericValue := objName0 +:+ "<" +:+ strings.Join genericNames ", " +:+ ">";
                 ValueType := objName0 +:+ "<" +:+ strings.Join genericConstraints ", " +:+ ">";
                 AboveTypeLine := ""; Optional := false |}
      end
  | None =>
      match underlying with
      | types.TStruct _ =>
          (* External structs cannot be introspected. *)
          ret (tsCommented "any"
                 (indentedComment ("Named type " +:+ Quote (types.n_String n) +:+
                                   " unknown, using " +:+ strings.dquote +:+ "any" +:+ strings.dquote)
                  +:+ strings.nl +:+
                  indentedComment "eslint-disable-next-line @typescript-eslint/no-explicit-any -- External type"))
      | _ =>
          (* Defer to the underlying type. *)
          ts <- wrap "named underlying: " (mapper underlying) ;;
          if bool_decide (AboveTypeLine ts = "")
          then ret {| GenericTypes := GenericTypes ts; GenericValue := GenericValue ts;
                      ValueType := ValueType ts;
                      AboveTypeLine :=
                        indentedComment ("This is likely an enum in an external package (" +:+
                                         Quote (types.n_String n) +:+ ")");
                      Optional := Optional ts |}
          else ret ts
      end
  end.

(** The named case of [typescriptType]: the hard coded names first. *)
Definition namedType (mapper : types.Type_ → M TypescriptType) (g : nat)
    (n : types.NamedInfo) (targs : list types.Type_) (underlying : types.Type_)
  : M TypescriptType :=
  (* These are external named types that we handle uniquely. *)
  match assoc namedTable (types.n_String n) with
  | Some ts => ret ts
  | None =>
      (* Some hard codes are a bit trickier. *)
      if serpentStruct (types.n_String n)
      then
        (* The marshal json just marshals the underlying value. *)
        match underlying with
        | types.TStruct (f :: _) => mapper (types.f_Type f)
        | types.TStruct [] => panic "runtime error: index out of range [0] with length 0"
        | _ => namedReference mapper g n targs underlying
        end
      else namedReference mapper g n targs underlying
  end.

(** typescriptType returns a typescript type for a given golang type. *)
Fixpoint typescriptType (g : nat) (ty : types.Type_) {struct ty} : M TypescriptType :=
  match ty with
  | types.TBasic bs =>
      (* All basic literals (string, bool, int, etc). *)
      if bool_decide (Z.land (types.Info bs) types.IsNumeric > 0)%Z
      then ret (tsValue "number")
      else if bool_decide (Z.land (types.Info bs) types.IsBoolean > 0)%Z
      then ret (tsValue "boolean")
      else if bool_decide (types.Kind bs = types.Byte)
      then ret (tsCommented "number" (indentedComment "This is a byte in golang"))
      else ret (tsValue (types.Name bs))
  | types.TStruct _ =>
      (* This handles anonymous structs. *)
      ret (tsCommented "any"
             (indentedComment "Embedded anonymous struct, please fix by naming it"
              +:+ strings.nl +:+
              indentedComment "eslint-disable-next-line @typescript-eslint/no-explicit-any -- Anonymously embedded struct"))
  | types.TMap key elem =>
      (* map[string][string] -> Record<string, string> *)
      keyType <- wrap "map key: " (typescriptType g key) ;;
      valueType <- wrap "map key: " (typescriptType g elem) ;;
      let aboveTypeLine := AboveTypeLine keyType in
      let aboveTypeLine :=
        if bool_decide (aboveTypeLine ≠ "") && bool_decide (AboveTypeLine valueType ≠ "")
        then aboveTypeLine +:+ strings.nl else aboveTypeLine in
      let aboveTypeLine := aboveTypeLine +:+ AboveTypeLine valueType in
      mergeGens <- mergeGenerics (GenericTypes keyType) (goRange (GenericTypes valueType)) ;;
      ret {| ValueType := "Record<" +:+ ValueType keyType +:+ ", " +:+ ValueType valueType +:+ ">";
             AboveTypeLine := aboveTypeLine;
             GenericTypes := mergeGens;
             GenericValue := "";
             Optional := false |}
  | types.TSlice elem => arrayType (types.TypeString elem) (typescriptType g elem)
  | types.TArray _ elem => arrayType (types.TypeString elem) (typescriptType g elem)
  | types.TNamed n targs underlying => namedType (typescriptType g) g n targs underlying
  | types.TPointer elem =>
      (* Dereference pointers. *)
      resp <- wrap "pointer: " (typescriptType g elem) ;;
      ret {| GenericTypes := GenericTypes resp; GenericValue := GenericValue resp;
             ValueType := ValueType resp; AboveTypeLine := AboveTypeLine resp;
             Optional := true |}
  | types.TInterface empty _ =>
      if empty
      then
        ret (tsCommented "any"
               (indentedComment "Empty interface{} type, cannot resolve the type."
                +:+ strings.nl +:+
                indentedComment "eslint-disable-next-line @typescript-eslint/no-explicit-any -- interface{}"))
      else
        ret (tsCommented "any"
               (indentedComment "eslint-disable-next-line @typescript-eslint/no-explicit-any -- Golang interface, unable to resolve type."))
  | types.TTypeParam tp =>
      if negb (types.tp_UnderlyingInterface tp)
      then fail "type param must be an interface"
      else
        (* We don't mess with multiple packages, so just trim the package
           path from the name. *)
        let name := strings.TrimPrefix (types.tp_Constraint tp) (types.tp_PkgPath tp +:+ ".") in
        gen <- deref g ;;
        let bound :=
          ret {| GenericTypes := Some {[ types.tp_Name tp := name ]};
                 GenericValue := types.tp_Name tp;
                 ValueType := name;
                 AboveTypeLine := "";
                 Optional := false |} in
        match types.Lookup (pkg_Scope (pkg gen)) name with
        | None =>
            let '(include, builtinString) := isBuiltIn name in
            if negb include
            then
              ret {| GenericTypes := Some {[ types.tp_Name tp := "any" ]};
                     GenericValue := types.tp_Name tp;
                     ValueType := "any";
                     AboveTypeLine := "// " +:+ Quote name +:+ " is an external type, so we use any";
                     Optional := false |}
            else
              (* Include the builtin for this type to reference *)
              setBuiltin g name builtinString ;; bound
        | Some _ => bound
        end
  | types.TUnion _ | types.TSignature _ | types.TChan _ =>
      fail ("unknown type: " +:+ types.TypeString ty)
  end.

Definition posLine (obj : types.ObjInfo) : string :=
  (* Do not use filepath, as that changes behavior based on OS *)
  "// From " +:+ path_Join (types.obj_Pkg obj) (filepath_Base (types.obj_File obj)) +:+ strings.nl.

(** Modelled from the spec: [slice.Unique] of [coderd/util/slice], which
    the union builder calls to deduplicate the value-type strings; the
    first occurrence of each string is kept. *)
Fixpoint Unique (l : list string) (seen : list string) : list string :=
  match l with
  | [] => []
  | v :: rest =>
      if strings.Contains seen v then Unique rest seen
      else v :: Unique rest (v :: seen)
  end.

(** The loop of [buildUnion] over the terms of the union. *)
Fixpoint unionTerms (g : nat) (unionString objectName : string)
    (terms : list (bool * types.Type_)) (allTypes : list string) (optional : bool)
  : M (list string * bool) :=
  match terms with
  | [] => ret (allTypes, optional)
  | (_, ty) :: rest =>
      scriptType <- wrap ("union " +:+ Quote unionString +:+ " for " +:+ Quote objectName +:+
                          " failed to get type: ")
                         (typescriptType g ty) ;;
      unionTerms g unionString objectName rest
                 (allTypes ++ [ValueType scriptType])%list
                 (optional || Optional scriptType)
  end.

Definition buildUnion (g : nat) (obj : types.ObjInfo) (st : list (bool * types.Type_)) : M string :=
  r <- unionTerms g (types.TypeString (types.TUnion st)) (types.obj_Name obj) st [] false ;;
  let '(allTypes, optional) := r in
  let allTypes := if optional : bool then (allTypes ++ ["null"])%list else allTypes in
  let allTypes := Unique allTypes [] in
  ret (posLine obj +:+
       "export type " +:+ objName (types.obj_Pkg obj) (types.obj_Name obj) +:+ " = " +:+
       strings.Join allTypes " | " +:+ strings.nl).

(** The first loop of [buildStruct]: named embedded structs in the
    codersdk package are handled via extension. *)
Fixpoint extendsLoop (i : nat) (fields : list (types.Field types.Type_))
    (extends : list string) (extendedFields : gset nat) : list string * gset nat :=
  match fields with
  | [] => (extends, extendedFields)
  | field :: rest =>
      (* Adding a json struct tag causes the json package to consider the
         field unembedded. *)
      if types.var_Embedded (types.f_Var field) &&
         bool_decide (StructTag_Get (types.f_Tag field) "json" = "") &&
         bool_decide (types.var_Pkg (types.f_Var field) = "codersdk")
      then extendsLoop (S i) rest (extends ++ [types.var_Name (types.f_Var field)])%list
                       ({[ i ]} ∪ extendedFields)
      else extendsLoop (S i) rest extends extendedFields
  end.

(** The loop [for name, constraint := range tsType.GenericTypes] of
    [buildStruct]: a generic is not added twice. *)
Fixpoint gatherGenerics (genericsUsed : gmap string string) (kvs : list (string * string))
  : gmap string string :=
  match kvs with
  | [] => genericsUsed
  | (name, constraint) :: rest =>
      match genericsUsed !! name with
      | Some _ => gatherGenerics genericsUsed rest
      | None => gatherGenerics (<[name := constraint]> genericsUsed) rest
      end
  end.

(** One iteration of the second loop of [buildStruct], on a field that
    is not extended: the tag is parsed first, for every such field. *)
Definition fieldLine (g : nat) (obj : types.Object) (field : types.Field types.Type_)
    (fields : list string) (genericsUsed : gmap string string)
  : M (list string * gmap string string) :=
  match structtag_Parse (types.f_Tag field) with
  | None => panic ("invalid struct tags on type " +:+ types.obj_String (types.info obj))
  | Some tags =>
      if negb (types.var_Exported (types.f_Var field)) then ret (fields, genericsUsed)
      else
        match tags with
        | None =>
            (* [tags.Get] reads the tags through the pointer. *)
            panic "runtime error: invalid memory address or nil pointer dereference"
        | Some tags =>
            (* Use the json name if present *)
            let jsonTag := tagsGet tags "json" in
            if bool_decide (tag_Name <$> jsonTag = Some "-")
            then (* Completely ignore this field. *) ret (fields, genericsUsed)
            else
              let jsonName := from_option tag_Name "" jsonTag in
              let jsonOptional :=
                from_option (λ t, bool_decide (head (tag_Options t) = Some "omitempty"))
                            false jsonTag in
              let jsonName :=
                if bool_decide (jsonName = "") then types.var_Name (types.f_Var field)
                else jsonName in
              (* Infer the type. *)
              tsType <- wrap "typescript type: " (typescriptType g (types.f_Type field)) ;;
              (* If a `typescript:"string"` exists, we take this, and ignore
                 what we inferred. *)
              let typescriptTag := tagsGet tags "typescript" in
              if bool_decide (tag_Name <$> typescriptTag = Some "-")
              then (* Completely ignore this field. *) ret (fields, genericsUsed)
              else
                let tsType := tagged typescriptTag tsType in
                let optional := if jsonOptional || Optional tsType then "?" else "" in
                let valueType :=
                  if bool_decide (GenericValue tsType ≠ "") then GenericValue tsType
                  else ValueType tsType in
                let genericsUsed :=
                  if bool_decide (GenericValue tsType ≠ "")
                  then gatherGenerics genericsUsed (goRange (GenericTypes tsType))
                  else genericsUsed in
                let fields :=
                  if bool_decide (AboveTypeLine tsType ≠ "")
                  then (* Just append these as fields. We should fix this later. *)
                    (fields ++ [AboveTypeLine tsType])%list
                  else fields in
                ret ((fields ++ [indent +:+ "readonly " +:+ jsonName +:+ optional +:+ ": " +:+
                                 valueType])%list,
                     genericsUsed)
        end
  end.

(** The second loop of [buildStruct]: for each field in the struct, we
    print 1 line of the typescript interface. *)
Fixpoint fieldsLoop (g : nat) (obj : types.Object) (extendedFields : gset nat) (i : nat)
    (st : list (types.Field types.Type_))
    (fields : list string) (genericsUsed : gmap string string)
  : M (list string * gmap string string) :=
  match st with
  | [] => ret (fields, genericsUsed)
  | field :: rest =>
      if bool_decide (i ∈ extendedFields)
      then fieldsLoop g obj extendedFields (S i) rest fields genericsUsed
      else
        r <- fieldLine g obj field fields genericsUsed ;;
        fieldsLoop g obj extendedFields (S i) rest r.1 r.2
  end.

(** The last loop of [buildStruct]: ensure proper generic param
    ordering. *)
Fixpoint paramsLoop (objectName : string) (genericsUsed : gmap string string)
    (params : list types.TypeParam) (generics : list string) : M (list string) :=
  match params with
  | [] => ret generics
  | param :: rest =>
      let name := types.tp_String param in
      match genericsUsed !! types.tp_String param with
      | None =>
          fail ("generic param " +:+ Quote name +:+ " missing on " +:+ Quote objectName +:+
                ", fix your data structure")
      | Some constraint =>
          paramsLoop objectName genericsUsed rest (generics ++ [name +:+ " extends " +:+ constraint])%list
      end
  end.

(** buildStruct just prints the typescript def for a type. *)
Definition buildStruct (g : nat) (obj : types.Object) (st : list (types.Field types.Type_)) : M string :=
  let o := types.info obj in
  let '(extends, extendedFields) := extendsLoop 0 st [] ∅ in
  let Extends0 := if bool_decide (extends ≠ []) then strings.Join extends ", " else "" in
  r <- fieldsLoop g obj extendedFields 0 st [] ∅ ;;
  let '(fields, genericsUsed) := r in
  match obj with
  | types.OTypeName _ (Some (types.TNamed n _ _)) =>
      generics <- paramsLoop (types.obj_Name o) genericsUsed (types.n_TypeParams n) [] ;;
      ret (structTemplate
             {| tpl.PosLine := posLine o;
                tpl.Name := objName (types.obj_Pkg o) (types.obj_Name o);
                tpl.Fields := fields;
                tpl.Generics := generics;
                tpl.Extends := Extends0;
                tpl.AboveLine := "" |})
  | types.OTypeName _ (Some ty) =>
      fail ("generic param " +:+ Quote (types.obj_Name o) +:+ " unexpected type " +:+
            Quote (types.TypeString ty))
  | types.OTypeName _ None => panic "runtime error: invalid memory address or nil pointer dereference"
  | _ => fail ("generic param ordering undefined on " +:+ Quote (types.obj_Name o))
  end.

Definition isConst (obj : types.Object) : bool :=
  match obj with
  | types.OConst _ _ _ => true
  | _ => false
  end.

Definition generateOne (g : nat) (m : maps.Maps) (obj : types.Object) : M maps.Maps :=
  let o := types.info obj in
  match types.Type' obj with
  | None =>
      (* This would be weird, but it is if the package does not have the
         type def. *)
      ret m
  | Some ty =>
      (* Exclude ignored types *)
      if bool_decide (types.obj_Name o ∈ maps.IgnoredTypes m) then ret m
      else
        gen <- deref g ;;
        (* If we have allowed types, only allow those to be generated. *)
        if (bool_decide (maps.AllowedTypes m ≠ ∅) || onlyOptIn gen) &&
           negb (bool_decide (types.obj_Name o ∈ maps.AllowedTypes m)) &&
           (* Allow constants to pass through, they are only included if
              the enum is allowed. *)
           negb (isConst obj)
        then ret m
        else
          let objectName := objName (types.obj_Pkg o) (types.obj_Name o) in
          match obj with
          | types.OTypeName _ _ =>
              (* All named types are type declarations *)
              match ty with
              | types.TNamed _ _ underNamed =>
                  match underNamed with
                  | types.TStruct fields =>
                      (* type <Name> struct *)
                      codeBlock <- wrap ("generate " +:+ Quote objectName +:+ ": ")
                                        (buildStruct g obj fields) ;;
                      ret {| maps.Structs := <[objectName := codeBlock]> (maps.Structs m);
                             maps.Generics := maps.Generics m;
                             maps.Enums := maps.Enums m;
                             maps.EnumConsts := maps.EnumConsts m;
                             maps.IgnoredTypes := maps.IgnoredTypes m;
                             maps.AllowedTypes := maps.AllowedTypes m |}
                  | types.TBasic _ =>
                      (* type <Name> string.  These are enums. Store to
                         expand later. *)
                      ret {| maps.Structs := maps.Structs m;
                             maps.Generics := maps.Generics m;
                             maps.Enums := <[objectName := obj]> (maps.Enums m);
                             maps.EnumConsts := maps.EnumConsts m;
                             maps.IgnoredTypes := maps.IgnoredTypes m;
                             maps.AllowedTypes := maps.AllowedTypes m |}
                  | types.TMap _ _ | types.TArray _ _ | types.TSlice _ =>
                      (* Declared maps that are not structs are still valid
                         codersdk objects. *)
                      ts <- wrap ("(map) generate " +:+ Quote objectName +:+ ": ")
                                 (typescriptType g underNamed) ;;
                      let str :=
                        posLine o +:+
                        (if bool_decide (AboveTypeLine ts ≠ "")
                         then AboveTypeLine ts +:+ strings.nl else "") +:+
                        (* Use similar output syntax to enums. *)
                        "export type " +:+ objectName +:+ " = " +:+ ValueType ts +:+ strings.nl in
                      ret {| maps.Structs := <[objectName := str]> (maps.Structs m);
                             maps.Generics := maps.Generics m;
                             maps.Enums := maps.Enums m;
                             maps.EnumConsts := maps.EnumConsts m;
                             maps.IgnoredTypes := maps.IgnoredTypes m;
                             maps.AllowedTypes := maps.AllowedTypes m |}
                  | types.TInterface _ embeddeds =>
                      (* Interfaces are used as generics. Non-generic
                         interfaces are not supported. *)
                      match embeddeds with
                      | [embedded] =>
                          let union :=
                            match embedded with
                            | types.TUnion terms => terms
                            | _ =>
                                (* If the underlying is not a union, but has
                                   1 type. It's just that one type. *)
                                [(true, embedded)]
                            end in
                          block <- wrap ("generate union " +:+ Quote objectName +:+ ": ")
                                        (buildUnion g o union) ;;
                          ret {| maps.Structs := maps.Structs m;
                                 maps.Generics := <[objectName := block]> (maps.Generics m);
                                 maps.Enums := maps.Enums m;
                                 maps.EnumConsts := maps.EnumConsts m;
                                 maps.IgnoredTypes := maps.IgnoredTypes m;
                                 maps.AllowedTypes := maps.AllowedTypes m |}
                      | _ => ret m
                      end
                  | types.TSignature _ =>
                      (* Ignore named functions. *)
                      ret m
                  | _ =>
                      fail ("unsupported named type " +:+ Quote (types.TypeString underNamed))
                  end
              | _ => panic "all typename should be named types"
              end
          | types.OVar _ _ => ret m
          | types.OConst _ _ _ =>
              (* We only care about named constant types, since they are
                 enums *)
              match ty with
              | types.TNamed named _ _ =>
                  enumObjName <- objNameOf (types.n_Obj named) ;;
                  ret {| maps.Structs := maps.Structs m;
                         maps.Generics := maps.Generics m;
                         maps.Enums := maps.Enums m;
                         maps.EnumConsts :=
                           <[enumObjName := (default [] (maps.EnumConsts m !! enumObjName) ++ [obj])%list]>
                             (maps.EnumConsts m);
                         maps.IgnoredTypes := maps.IgnoredTypes m;
                         maps.AllowedTypes := maps.AllowedTypes m |}
              | _ => ret m
              end
          | types.OFunc _ _ => ret m
          | types.OOther _ _ => print (objectName +:+ strings.nl) ;; ret m
          end
  end.

(** The loop of [generateAll] over the names of the scope. *)
Fixpoint generateNames (g : nat) (scope : types.Scope) (names : list string) (m : maps.Maps)
  : M maps.Maps :=
  match names with
  | [] => ret m
  | n :: rest =>
      m' <- match types.Lookup scope n with
            | None => ret m
            | Some obj => wrap (Quote n +:+ ": ") (generateOne g m obj)
            end ;;
      generateNames g scope rest m'
  end.

(** The start of [generateAll]: fresh maps, the allow list copied into
    [AllowedTypes], and the directives of the comments. *)
Definition initialMaps (gen : Generator) : maps.Maps :=
  let comments := pkg_Comments (pkg gen) in
  {| maps.Structs := ∅; maps.Generics := ∅; maps.Enums := ∅; maps.EnumConsts := ∅;
     (* Look for comments that indicate to ignore a type for typescript
        generation. *)
     maps.IgnoredTypes := list_to_set (comments ≫= directive "@typescript-ignore");
     (* This allows opt-in generation, instead of opt-out. *)
     maps.AllowedTypes :=
       list_to_set ((strings.TrimSpace <$> allowList gen) ++
                    (comments ≫= directive "@typescript-generate")) |}.

(** The loop [for name, v := range m.Enums] of [generateAll]: write all
    enums. *)
Fixpoint enumsLoop (enumConsts : gmap string (list types.Object))
    (kvs : list (string * types.Object)) (enumCodeBlocks : gmap string string)
  : gmap string string :=
  match kvs with
  | [] => enumCodeBlocks
  | (name, v) :: rest =>
      enumsLoop enumConsts rest
        (<[name := enumCodeBlock (posLine (types.info v)) name
                                 (default [] (enumConsts !! name))]> enumCodeBlocks)
  end.

(** generateAll will generate for all types found in the pkg *)
Definition generateAll (g : nat) : M TypescriptTypes :=
  gen <- deref g ;;
  m <- generateNames g (pkg_Scope (pkg gen)) (types.Names (pkg_Scope (pkg gen)))
                     (initialMaps gen) ;;
  (* Add the builtins *)
  gen <- deref g ;;
  let generics := addBuiltins (mapRange (builtins gen)) (maps.Generics m) in
  (* Write all enums *)
  let enumCodeBlocks := enumsLoop (maps.EnumConsts m) (mapRange (maps.Enums m)) ∅ in
  ret {| Types := maps.Structs m; Enums := enumCodeBlocks; Generics := generics |}.

(** ** [main] *)

(** The loop of [main] that regenerates an external package until its
    allow list stops growing.  The model counts the passes down from
    [fuel] and answers [None] when they run out. *)
Fixpoint regenerate (fuel : nat) (ext : nat) : M (option TypescriptTypes) :=
  match fuel with
  | 0 => ret None
  | S fuel' =>
      e <- deref ext ;;
      let start := length (allowList e) in
      ts <- wrap "generate external: " (generateAll ext) ;;
      e' <- deref ext ;;
      if bool_decide (length (allowList e') ≠ start)
      then
        (* This is so dumb, but basically the allowList can grow, and if
           it does, we need to regenerate. *)
        regenerate fuel' ext
      else ret (Some ts)
  end.

(** [&Generator{...}] in [ParseDirectory]: a fresh generator on the
    heap. *)
Definition newGenerator (p : Package) (exts : list nat) : M nat := λ σ,
  Ok (length (gens σ),
      {| gens := gens σ ++ [{| pkg := p; onlyOptIn := false; allowList := [];
                               externals := exts; builtins := ∅; cachedResult := None |}];
         stdout := stdout σ |}).

(** [extGen.onlyOptIn = true]. *)
Definition setOnlyOptIn (p : nat) : M unit :=
  g <- deref p ;;
  store p {| pkg := pkg g; onlyOptIn := true; allowList := allowList g;
             externals := externals g; builtins := builtins g;
             cachedResult := cachedResult g |}.

(** GenerateFromDirectory will return all the typescript code blocks for
    a directory; [p] is the package loaded from it. *)
Definition GenerateFromDirectory (directory : string) (p : Package) (exts : list nat) : M nat :=
  g <- newGenerator p exts ;;
  codeBlocks <- wrap ("generate package " +:+ Quote directory +:+ ": ") (generateAll g) ;;
  setCachedResult g codeBlocks ;;
  ret g.

Definition Generate (directory : string) (p : Package) (exts : list nat) : M string :=
  gen <- GenerateFromDirectory directory p exts ;;
  g <- deref gen ;;
  match cachedResult g with
  | Some ts => ret (TypescriptTypes_String ts)
  | None => panic "runtime error: invalid memory address or nil pointer dereference"
  end.

Definition baseDirs : list string := ["./codersdk"; "./codersdk/healthsdk"].
Definition externalTypePkgs : list string :=
  ["./coderd/healthcheck/health"; "github.com/coder/serpent"].

(** The first loop of [main]: parse the external packages. *)
Fixpoint mainExternals (pkgs : list Package) : M (list nat) :=
  match pkgs with
  | [] => ret []
  | p :: rest =>
      extGen <- newGenerator p [] ;;
      setOnlyOptIn extGen ;;
      external <- mainExternals rest ;;
      ret (extGen :: external)
  end.

(** The second loop of [main]: generate the base directories. *)
Fixpoint mainBases (dirs : list (string * Package)) (external : list nat) : M unit :=
  match dirs with
  | [] => ret tt
  | (baseDir, p) :: rest =>
      print ("// The code below is generated from " +:+ strings.TrimPrefix baseDir "./" +:+ "." +:+
             strings.nl +:+ strings.nl) ;;
      output <- Generate baseDir p external ;;
      (* Just cat the output to a file to capture it *)
      print (output +:+ strings.nl +:+ strings.nl) ;;
      mainBases rest external
  end.

(** The third loop of [main]: regenerate the external packages. *)
Fixpoint mainRegenerate (fuel : nat) (external : list (string * nat)) : M bool :=
  match external with
  | [] => ret true
  | (dir, ext) :: rest =>
      r <- regenerate fuel ext ;;
      match r with
      | None => ret false
      | Some ts =>
          print ("// The code below is generated from " +:+ strings.TrimPrefix dir "./" +:+ "." +:+
                 strings.nl +:+ strings.nl) ;;
          print (TypescriptTypes_String ts +:+ strings.nl +:+ strings.nl) ;;
          mainRegenerate fuel rest
      end
  end.

(** [main], given the packages loaded from [externalTypePkgs] and from
    [baseDirs]; every [log.Fatal] is an error.  The answer tells whether
    every regeneration loop finished within [fuel] passes. *)
Definition main (fuel : nat) (extPkgs basePkgs : list Package) : M bool :=
  external <- mainExternals extPkgs ;;
  print ("// Code generated by 'make site/src/api/typesGenerated.ts'. DO NOT EDIT." +:+
         strings.nl +:+ strings.nl) ;;
  mainBases (zip baseDirs basePkgs) external ;;
  mainRegenerate fuel (zip externalTypePkgs external).

End Generator.

(** ** Definitions used to state the properties *)

(** The text of the blocks of [m] under the keys [ks], in that order,
    each followed by a line feed. *)
Fixpoint blocksOf (m : gmap string string) (ks : list string) : string :=
  match ks with
  | [] => ""
  | k :: rest => default "" (m !! k) +:+ strings.nl +:+ blocksOf m rest
  end.

(** The size of a type: every recursive call of the mapper is on a
    smaller type. *)
Fixpoint tsize (ty : types.Type_) : nat :=
  match ty with
  | types.TBasic _ | types.TTypeParam _ | types.TSignature _ | types.TChan _ => 1
  | types.TStruct fields => S (foldr (λ f acc, tsize (types.f_Type f) + acc) 0 fields)
  | types.TMap k e => S (tsize k + tsize e)
  | types.TSlice e | types.TArray _ e | types.TPointer e => S (tsize e)
  | types.TNamed _ targs underlying =>
      S (foldr (λ t acc, tsize t + acc) 0 targs + tsize underlying)
  | types.TInterface _ embeddeds => S (foldr (λ t acc, tsize t + acc) 0 embeddeds)
  | types.TUnion terms => S (foldr (λ t acc, tsize t.2 + acc) 0 terms)
  end.

(** The declarations of a generator's scope that its allow list does not
    name yet. *)
Definition uncovered (gen : Generator) : nat :=
  size (dom (pkg_Scope (pkg gen)) ∖ list_to_set (allowList gen) : gset string).

(** What a generation pass leaves alone: every generator stays where it
    is, with its package, its mode and its externals, and its allow list
    only grows at the end. *)
Definition frame (σ σ' : State) : Prop :=
  ∀ p gen, gens σ !! p = Some gen →
    ∃ gen', gens σ' !! p = Some gen' ∧
      pkg gen' = pkg gen ∧ onlyOptIn gen' = onlyOptIn gen ∧
      externals gen' = externals gen ∧
      allowList gen `prefix_of` allowList gen'.

(** For a generator without externals, each name a pass appends to the
    allow list is a declaration of the scope that the list did not name:
    the list grows by no more than the count of uncovered declarations
    shrinks. *)
Definition steady (g : nat) (σ σ' : State) : Prop :=
  frame σ σ' ∧
  ∀ gen gen', gens σ !! g = Some gen → gens σ' !! g = Some gen' →
    externals gen = [] →
    length (allowList gen') + uncovered gen' ≤ length (allowList gen) + uncovered gen.

(** A computation keeps a relation between the state it starts from and
    the state it returns. *)
Definition keeps {A} (R : relation State) (m : M A) : Prop :=
  ∀ σ a σ', m σ = Ok (a, σ') → R σ σ'.

(** The passes of the regeneration loop of [main] over the generator
    [ext], from a state on: [looped ext σ n r] says that [n] passes of
    [generateAll] return one after the other, each with the allow list
    grown at its end and naming declarations of the scope that it did
    not name before, and that one more pass ends the loop with [r]: it
    returns its blocks and leaves the allow list as it was, or it fails
    and its error, under the prefix of [main], or its panic ends the
    run. *)
Inductive looped {L : Library} {O : MapOrder} (ext : nat)
  : State → nat → result (option TypescriptTypes * State) → Prop :=
| looped_fixpoint σ gen ts σ' gen' :
    gens σ !! ext = Some gen →
    generateAll ext σ = Ok (ts, σ') →
    gens σ' !! ext = Some gen' →
    allowList gen' = allowList gen →
    looped ext σ 0 (Ok (Some ts, σ'))
| looped_error σ gen msg :
    gens σ !! ext = Some gen →
    generateAll ext σ = Err msg →
    looped ext σ 0 (Err ("generate external: " +:+ msg))
| looped_panic σ gen msg :
    gens σ !! ext = Some gen →
    generateAll ext σ = Panic msg →
    looped ext σ 0 (Panic msg)
| looped_grown σ gen ts σ' gen' n r :
    gens σ !! ext = Some gen →
    generateAll ext σ = Ok (ts, σ') →
    gens σ' !! ext = Some gen' →
    allowList gen `prefix_of` allowList gen' →
    length (allowList gen) < length (allowList gen') →
    uncovered gen' < uncovered gen →
    looped ext σ' n r →
    looped ext σ (S n) r.

(** The test of the first loop of [buildStruct] on one field: embedded,
    no json tag, declared in the package named codersdk. *)
Definition isExtended {L : Library} (field : types.Field types.Type_) : bool :=
  types.var_Embedded (types.f_Var field) &&
  bool_decide (StructTag_Get (types.f_Tag field) "json" = "") &&
  bool_decide (types.var_Pkg (types.f_Var field) = "codersdk").

(** The second loop of [buildStruct] run over a list of fields none of
    which is skipped for being extended. *)
Fixpoint fieldLines {L : Library} {O : MapOrder} (g : nat) (obj : types.Object)
    (st : list (types.Field types.Type_))
    (fields : list string) (genericsUsed : gmap string string)
  : M (list string * gmap string string) :=
  match st with
  | [] => ret (fields, genericsUsed)
  | field :: rest =>
      r <- fieldLine g obj field fields genericsUsed ;;
      fieldLines g obj rest r.1 r.2
  end.

(** The tags of a field, when [structtag.Parse] returns tags for its
    text. *)
Definition fieldTags {L : Library} (field : types.Field types.Type_) : option (list Tag) :=
  mjoin (structtag_Parse (types.f_Tag field)).

(** The serialization name of a field: the name of its json tag, or the
    declared name when there is none or it is empty. *)
Definition jsonNameOf {L : Library} (field : types.Field types.Type_) : string :=
  let name := from_option tag_Name "" (fieldTags field ≫= λ tags, tagsGet tags "json") in
  if bool_decide (name = "") then types.var_Name (types.f_Var field) else name.

(** The ordinary field rules let a field through: it is exported, its
    tag is parsed, and neither its json tag nor its typescript tag is
    named [-]. *)
Definition isListed {L : Library} (field : types.Field types.Type_) : bool :=
  types.var_Exported (types.f_Var field) &&
  match fieldTags field with
  | Some tags =>
      negb (bool_decide (tag_Name <$> tagsGet tags "json" = Some "-")) &&
      negb (bool_decide (tag_Name <$> tagsGet tags "typescript" = Some "-"))
  | None => false
  end.

(** A generic parameter is bound by an emitted field: the field passes
    the ordinary field rules, and the type that the record builder puts
    on its line, the type mapped in the state [σ] unless a typescript
    tag replaces it, has a generic value and a binding for the
    parameter's name. *)
Definition bindsParam {L : Library} {O : MapOrder} (g : nat) (σ : State)
    (field : types.Field types.Type_) (p : string) : Prop :=
  ∃ tags ts σb gt c,
    isListed field ∧ fieldTags field = Some tags ∧
    typescriptType g (types.f_Type field) σ = Ok (ts, σb) ∧
    GenericValue (tagged (tagsGet tags "typescript") ts) ≠ "" ∧
    GenericTypes (tagged (tagsGet tags "typescript") ts) = Some gt ∧
    gt !! p = Some c.

(** Two states hold the same packages: as many generators, each with the
    package and the externals of the generator in its place. *)
Definition alike (σ σ' : State) : Prop :=
  length (gens σ) = length (gens σ') ∧
  ∀ p gen gen', gens σ !! p = Some gen → gens σ' !! p = Some gen' →
    pkg gen' = pkg gen ∧ externals gen' = externals gen.

(** The error of [buildStruct] for a generic parameter no field uses. *)
Definition missingParam {L : Library} (name objectName : string) : string :=
  "generic param " +:+ Quote name +:+ " missing on " +:+ Quote objectName +:+
  ", fix your data structure".

(** The last byte of a string. *)
Fixpoint lastByte (s : string) : option ascii :=
  match s with
  | "" => None
  | String a "" => Some a
  | String _ rest => lastByte rest
  end.

(** The pluralization rule in the words of the specification: append
    [es] if the name ends in [s], else append [s]. *)
Definition pluralOf (name : string) : string :=
  if bool_decide (lastByte name = Some "s"%char) then name +:+ "es" else name +:+ "s".

(** What a run of the generator leaves alone: the heap keeps its length,
    every generator stays where it is with its package, its mode, its
    externals and its cached result, its allow list only grows at the
    end, the names of its builtins only grow, a builtin that is
    registered with the text of [isBuiltIn] keeps it, and the standard
    output only grows at the end. *)
Definition grows (σ σ' : State) : Prop :=
  length (gens σ') = length (gens σ) ∧
  (∃ written, stdout σ' = stdout σ +:+ written) ∧
  ∀ p gen, gens σ !! p = Some gen →
    ∃ gen', gens σ' !! p = Some gen' ∧
      pkg gen' = pkg gen ∧ onlyOptIn gen' = onlyOptIn gen ∧
      externals gen' = externals gen ∧ cachedResult gen' = cachedResult gen ∧
      allowList gen `prefix_of` allowList gen' ∧
      dom (builtins gen) ⊆ dom (builtins gen') ∧
      ∀ name, builtins gen !! name = Some (isBuiltIn name).2 →
              builtins gen' !! name = Some (isBuiltIn name).2.

(** The two filters of [generateOne] let a declaration name through: it
    is not ignored and, when the pass has allowed types or the generator
    is opt-in, it is allowed. *)
Definition admitted (optIn : bool) (m : maps.Maps) (name : string) : Prop :=
  (name ∉ maps.IgnoredTypes m) ∧
  ((maps.AllowedTypes m ≠ ∅ ∨ optIn) → name ∈ maps.AllowedTypes m).

(** The types the mapper handles without reaching a named type or a type
    parameter: it does not look inside structs and interfaces. *)
Fixpoint unnamed (ty : types.Type_) : bool :=
  match ty with
  | types.TNamed _ _ _ | types.TTypeParam _ => false
  | types.TMap key elem => unnamed key && unnamed elem
  | types.TSlice elem | types.TArray _ elem | types.TPointer elem => unnamed elem
  | _ => true
  end.

(** A pass holds a block, or an enum to expand, under a key. *)
Definition emitted (m : maps.Maps) (k : string) : Prop :=
  is_Some (maps.Structs m !! k) ∨ is_Some (maps.Enums m !! k) ∨
  is_Some (maps.Generics m !! k).

(** Where [generateOne] files a type declaration, by its underlying
    type: among the records, the enums or the generics of the pass. *)
Definition filed (under : types.Type_) (m : maps.Maps) (key : string) : Prop :=
  match under with
  | types.TStruct _ | types.TMap _ _ | types.TArray _ _ | types.TSlice _ =>
      is_Some (maps.Structs m !! key)
  | types.TBasic _ => is_Some (maps.Enums m !! key)
  | types.TInterface _ [_] => is_Some (maps.Generics m !! key)
  | _ => True
  end.

(** What a run of [main] leaves alone: the generators that exist stay as
    [frame] says, while new ones may join the heap, and the standard
    output only grows at the end. *)
Definition runs (σ σ' : State) : Prop :=
  frame σ σ' ∧ ∃ written, stdout σ' = stdout σ +:+ written.

(** The generator that [main] builds for an external package. *)
Definition externalGenerator (p : Package) : Generator :=
  {| pkg := p; onlyOptIn := true; allowList := []; externals := [];
     builtins := ∅; cachedResult := None |}.

(** The block that [generateOne] files for a declared map, array or
    slice, given its mapped type. *)
Definition aliasBlock {L : Library} (o : types.ObjInfo) (ts : TypescriptType) : string :=
  posLine o +:+
  (if bool_decide (AboveTypeLine ts ≠ "") then AboveTypeLine ts +:+ strings.nl else "") +:+
  "export type " +:+ objName (types.obj_Pkg o) (types.obj_Name o) +:+ " = " +:+
  ValueType ts +:+ strings.nl.

(** What makes a block of the records: the record builder on a struct
    declaration, or the mapper on a declared map, array or slice, run
    from [σa] to [σb]. *)
Definition builtBy {L : Library} {O : MapOrder} (g : nat) (obj : types.Object)
    (block : string) (σa σb : State) : Prop :=
  match obj with
  | types.OTypeName o (Some (types.TNamed _ _ under)) =>
      match under with
      | types.TStruct fields => buildStruct g obj fields σa = Ok (block, σb)
      | types.TMap _ _ | types.TArray _ _ | types.TSlice _ =>
          ∃ ts, typescriptType g under σa = Ok (ts, σb) ∧ block = aliasBlock o ts
      | _ => False
      end
  | _ => False
  end.

(** Whether a declaration is a constant of a named type whose [objName]
    is [key] and whose own name is not ignored. *)
Definition isConstOf {L : Library} (ignored : gset string) (key : string) (obj : types.Object)
  : bool :=
  match obj with
  | types.OConst o (Some (types.TNamed nm _ _)) _ =>
      bool_decide (types.obj_Name o ∉ ignored) &&
      match types.tn_Pkg (types.n_Obj nm) with
      | Some pkgName => bool_decide (objName pkgName (types.tn_Name (types.n_Obj nm)) = key)
      | None => false
      end
  | _ => false
  end.

(** The constants that a pass over [names] gathers for the enum [key],
    in that order. *)
Definition constsFor {L : Library} (scope : types.Scope) (ignored : gset string) (key : string)
    (names : list string) : list types.Object :=
  omap (λ n, match scope !! n with
             | Some obj => if isConstOf ignored key obj then Some obj else None
             | None => None
             end) names.

(** The generator that [ParseDirectory] builds for a package. *)
Definition parsedGenerator (p : Package) (exts : list nat) : Generator :=
  {| pkg := p; onlyOptIn := false; allowList := []; externals := exts;
     builtins := ∅; cachedResult := None |}.

(** [g.cachedResult = codeBlocks] on a generator. *)
Definition withCachedResult (gen : Generator) (ts : TypescriptTypes) : Generator :=
  {| pkg := pkg gen; onlyOptIn := onlyOptIn gen; allowList := allowList gen;
     externals := externals gen; builtins := builtins gen; cachedResult := Some ts |}.

(** Whether a string holds a byte. *)
Fixpoint hasByte (c : ascii) (s : string) : bool :=
  match s with
  | "" => false
  | String a rest => bool_decide (a = c) || hasByte c rest
  end.

(** The types the mapper has no rule for, with the error it gives for
    each: a type parameter whose underlying type is no interface, a
    union, a function or a channel where it stands; and a type that
    holds one where the mapper goes, under the prefix of each step
    towards it: the key or the element of a map, the element of a slice
    or an array that is not a byte array, the element of a pointer, the
    underlying type of a named type when that is no struct, a type
    argument of a named type, and the first field of the struct under a
    [serpent.Struct]. *)
Inductive rejects {L : Library} : types.Type_ → string → Prop :=
| rejects_param tp :
    types.tp_UnderlyingInterface tp = false →
    rejects (types.TTypeParam tp) "type param must be an interface"
| rejects_union terms :
    rejects (types.TUnion terms) ("unknown type: " +:+ types.TypeString (types.TUnion terms))
| rejects_signature str :
    rejects (types.TSignature str) ("unknown type: " +:+ str)
| rejects_chan str :
    rejects (types.TChan str) ("unknown type: " +:+ str)
| rejects_key key elem msg :
    rejects key msg → rejects (types.TMap key elem) ("map key: " +:+ msg)
| rejects_elem key elem msg :
    rejects elem msg → rejects (types.TMap key elem) ("map key: " +:+ msg)
| rejects_slice elem msg :
    types.TypeString elem ≠ "byte" →
    rejects elem msg → rejects (types.TSlice elem) ("array: " +:+ msg)
| rejects_array len elem msg :
    types.TypeString elem ≠ "byte" →
    rejects elem msg → rejects (types.TArray len elem) ("array: " +:+ msg)
| rejects_pointer elem msg :
    rejects elem msg → rejects (types.TPointer elem) ("pointer: " +:+ msg)
| rejects_underlying n targs underlying msg :
    assoc namedTable (types.n_String n) = None →
    (∀ fields, underlying ≠ types.TStruct fields) →
    rejects underlying msg →
    rejects (types.TNamed n targs underlying) ("named underlying: " +:+ msg)
| rejects_argument n targs underlying pkgName a msg :
    assoc namedTable (types.n_String n) = None →
    types.tn_Pkg (types.n_Obj n) = Some pkgName →
    a ∈ targs →
    rejects a msg →
    rejects (types.TNamed n targs underlying)
            ("generic field " +:+ Quote (objName pkgName (types.tn_Name (types.n_Obj n))) +:+
             "<" +:+ Quote (types.TypeString a) +:+ ">: " +:+ msg)
| rejects_serpent n targs f fs msg :
    assoc namedTable (types.n_String n) = None →
    serpentStruct (types.n_String n) = true →
    rejects (types.f_Type f) msg →
    rejects (types.TNamed n targs (types.TStruct (f :: fs))) msg.

(** The types that hold no type the mapper has no rule for: no union,
    function or channel and no type parameter whose underlying type is
    no interface, anywhere but among the embedded types of an
    interface. *)
Fixpoint supported (ty : types.Type_) : bool :=
  match ty with
  | types.TBasic _ | types.TInterface _ _ => true
  | types.TStruct fields => forallb (λ f, supported (types.f_Type f)) fields
  | types.TMap key elem => supported key && supported elem
  | types.TSlice elem | types.TArray _ elem | types.TPointer elem => supported elem
  | types.TNamed _ targs underlying => forallb supported targs && supported underlying
  | types.TTypeParam tp => types.tp_UnderlyingInterface tp
  | types.TUnion _ | types.TSignature _ | types.TChan _ => false
  end.

(** ** Sample inputs

    A plain implementation of the library functions, good for package
    and type names made of ASCII letters and for struct tags without
    escapes, and small packages to run the generator on. *)

Definition capitalise (s : string) : string :=
  match s with
  | "" => ""
  | String a rest =>
      let n := nat_of_ascii a in
      String (if bool_decide (97 ≤ n) && bool_decide (n ≤ 122) then ascii_of_nat (n - 32) else a) rest
  end.

Definition quoted (s : string) : string := strings.dquote +:+ s +:+ strings.dquote.

(** The text of a struct tag in the conventional format: pairs of a key
    and a quoted value, separated by a space. *)
Definition tagText (pairs : list (string * string)) : types.StructTag :=
  strings.Join ((λ kv, kv.1 +:+ ":" +:+ quoted kv.2) <$> pairs) " ".

(** The text before and the text after the first occurrence of a byte. *)
Fixpoint cut (c : ascii) (s : string) : option (string * string) :=
  match s with
  | "" => None
  | String a rest =>
      if decide (a = c) then Some ("", rest)
      else match cut c rest with
           | Some (before, after) => Some (String a before, after)
           | None => None
           end
  end.

(** A key holds no space, no control character and no quote. *)
Fixpoint keyBytes (s : string) : bool :=
  match s with
  | "" => true
  | String a rest =>
      bool_decide (32 < nat_of_ascii a) && negb (bool_decide (nat_of_ascii a = 34)) &&
      negb (bool_decide (nat_of_ascii a = 127)) && keyBytes rest
  end.

(** The conventional format as [reflect] and [structtag] scan it, for
    values without escapes: the pairs up to the first malformed one, and
    whether the text is well formed up to its end.  Every pair takes
    bytes of the text, which [n] counts. *)
Fixpoint scanTag (n : nat) (tag : string) : list (string * string) * bool :=
  match n with
  | 0 => ([], false)
  | S n' =>
      let tag := strings.trimLeft (String.length tag) [" "] tag in
      if bool_decide (tag = "") then ([], true)
      else
        match cut ":"%char tag with
        | Some (key, String q rest) =>
            if bool_decide (key ≠ "") && keyBytes key && bool_decide (nat_of_ascii q = 34)
            then
              match cut (ascii_of_nat 34) rest with
              | Some (value, rest') =>
                  if hasByte (ascii_of_nat 92) value then ([], false)
                  else let '(pairs, ok) := scanTag n' rest' in ((key, value) :: pairs, ok)
              | None => ([], false)
              end
            else ([], false)
        | _ => ([], false)
        end
  end.

Definition plainGet (tag : types.StructTag) (key : string) : string :=
  default "" (assoc (scanTag (S (String.length tag)) tag).1 key).

Definition plainTag (kv : string * string) : Tag :=
  let res := strings.Split kv.2 ","%char in
  {| tag_Key := kv.1; tag_Name := hd "" res; tag_Options := tl res |}.

Definition plainParse (tag : types.StructTag) : option (option (list Tag)) :=
  let '(pairs, ok) := scanTag (S (String.length tag)) tag in
  if ok : bool
  then if bool_decide (tag ≠ "") && bool_decide (pairs = []) then Some None
       else Some (Some (plainTag <$> pairs))
  else None.

Definition plainLibrary : Library :=
  {| Title := capitalise;
     Quote := quoted;
     path_Join := λ dir file, dir +:+ "/" +:+ file;
     filepath_Base := λ file, file;
     StructTag_Get := plainGet;
     structtag_Parse := plainParse |}.

(** Two orders of [range]: the one stdpp enumerates a map in, and its
    reverse. *)
Definition forwardOrder : MapOrder :=
  {| mapRange := λ V m, map_to_list m;
     mapRange_perm := λ V m, reflexivity (map_to_list m) |}.

Definition backwardOrder : MapOrder :=
  {| mapRange := λ V m, reverse (map_to_list m);
     mapRange_perm := λ V m, reverse_Permutation (map_to_list m) |}.

Section Samples.
#[local] Existing Instance plainLibrary.
#[local] Existing Instance forwardOrder.

Definition sdkObj (name : string) : types.ObjInfo :=
  {| types.obj_Name := name; types.obj_Pkg := "codersdk"; types.obj_File := "types.go";
     types.obj_String := "type github.com/coder/coder/v2/codersdk." +:+ name |}.

Definition sdkNamed (name : string) (params : list types.TypeParam) (targs : list types.Type_)
    (underlying : types.Type_) : types.Type_ :=
  types.TNamed {| types.n_String := "github.com/coder/coder/v2/codersdk." +:+ name;
                  types.n_Obj := {| types.tn_Name := name; types.tn_Pkg := Some "codersdk" |};
                  types.n_TypeParams := params |}
               targs underlying.

Definition goString : types.Type_ := types.TBasic (types.Typ types.String).

Definition sdkParam (name constraint : string) : types.TypeParam :=
  {| types.tp_Name := name; types.tp_String := name;
     types.tp_PkgPath := "github.com/coder/coder/v2/codersdk";
     types.tp_Constraint := constraint; types.tp_UnderlyingInterface := true |}.

Definition sdkField (name : string) (embedded : bool) (tag : types.StructTag) (ty : types.Type_)
  : types.Field types.Type_ :=
  {| types.f_Var := {| types.var_Name := name; types.var_Pkg := "codersdk";
                       types.var_Embedded := embedded; types.var_Exported := true |};
     types.f_Tag := tag; types.f_Type := ty |}.

Definition sdkPackage (scope : types.Scope) : Package :=
  {| pkg_Name := "codersdk"; pkg_Scope := scope; pkg_Comments := [] |}.

(** A generator without externals, and the heap that holds it alone. *)
Definition generatorOf (p : Package) (optIn : bool) (allow : list string) : Generator :=
  {| pkg := p; onlyOptIn := optIn; allowList := allow; externals := [];
     builtins := ∅; cachedResult := None |}.

Definition oneGenerator (p : Package) (optIn : bool) (allow : list string) : State :=
  {| gens := [generatorOf p optIn allow]; stdout := "" |}.

(** [type T string] with the constants [b], [a], [a]; [type Status string]
    with one constant; [type Bus string] with none. *)
Definition enumT : types.Type_ := sdkNamed "T" [] [] goString.
Definition enumStatus : types.Type_ := sdkNamed "Status" [] [] goString.
Definition enumBus : types.Type_ := sdkNamed "Bus" [] [] goString.

Definition enumScope : types.Scope :=
  list_to_map
    [ ("T", types.OTypeName (sdkObj "T") (Some enumT));
      ("TB", types.OConst (sdkObj "TB") (Some enumT) (quoted "b"));
      ("TA", types.OConst (sdkObj "TA") (Some enumT) (quoted "a"));
      ("TAlso", types.OConst (sdkObj "TAlso") (Some enumT) (quoted "a"));
      ("Status", types.OTypeName (sdkObj "Status") (Some enumStatus));
      ("StatusOK", types.OConst (sdkObj "StatusOK") (Some enumStatus) (quoted "ok"));
      ("Bus", types.OTypeName (sdkObj "Bus") (Some enumBus)) ].

Definition enumState : State := oneGenerator (sdkPackage enumScope) false [].

(** The outcome of a computation as a pair, for inputs on which it
    returns. *)
Definition returned {A} (r : result (A * State)) (d : A) : A * State :=
  match r with
  | Ok x => x
  | _ => (d, {| gens := []; stdout := "" |})
  end.

Definition noTypes : TypescriptTypes := {| Types := ∅; Enums := ∅; Generics := ∅ |}.

Definition enumRun : TypescriptTypes * State :=
  returned (generateAll 0 enumState) noTypes.

Definition enumMaps : maps.Maps * State :=
  returned (generateNames 0 enumScope (types.Names enumScope)
                          (initialMaps (generatorOf (sdkPackage enumScope) false []))
                          enumState)
           (initialMaps (generatorOf (sdkPackage enumScope) false [])).

(** The text of a go string constant: its value between double quotes. *)
Definition enumTBlock : string :=
  "// From codersdk/types.go" +:+ strings.nl +:+
  "export type T = " +:+ quoted "a" +:+ " | " +:+ quoted "a" +:+ " | " +:+ quoted "b" +:+
  strings.nl +:+
  "export const Ts: T[] = [" +:+ quoted "a" +:+ ", " +:+ quoted "a" +:+ ", " +:+ quoted "b" +:+
  "]" +:+ strings.nl.

(** [type Pair[A comparable, B any] struct { Second B; First A }]: the
    fields use [B] before [A]. *)
Definition pairParams : list types.TypeParam :=
  [sdkParam "A" "comparable"; sdkParam "B" "any"].

Definition pairFields : list (types.Field types.Type_) :=
  [ sdkField "Second" false (tagText [("json", "second")]) (types.TTypeParam (sdkParam "B" "any"));
    sdkField "First" false (tagText [("json", "first")]) (types.TTypeParam (sdkParam "A" "comparable")) ].

Definition pairObj : types.Object :=
  types.OTypeName (sdkObj "Pair")
    (Some (sdkNamed "Pair" pairParams [] (types.TStruct pairFields))).

Definition pairRun : string * State :=
  returned (buildStruct 0 pairObj pairFields enumState) "".

(** [type Foo[A any] struct { Bar string }]: the parameter is unused. *)
Definition fooFields : list (types.Field types.Type_) :=
  [ sdkField "Bar" false "" goString ].

Definition fooInfo : types.NamedInfo :=
  {| types.n_String := "github.com/coder/coder/v2/codersdk.Foo";
     types.n_Obj := {| types.tn_Name := "Foo"; types.tn_Pkg := Some "codersdk" |};
     types.n_TypeParams := [sdkParam "A" "any"] |}.

(** [type Base struct{}], [type Inner struct{}], [type Hidden struct{}] and
    [type Derived struct { Base; Inner `json:"inner"`; Hidden `json:"-"` }]. *)
Definition emptyStruct (name : string) : types.Type_ := sdkNamed name [] [] (types.TStruct []).








(** An external package: [P] has a field of type [Q], [Q] a field of
    type [R]; the allow list starts with [P]. *)
Definition chainStruct (name : string) (next : list string) : types.Object :=
  types.OTypeName (sdkObj name)
    (Some (sdkNamed name [] []
             (types.TStruct ((λ n, sdkField n false "" (emptyStruct n)) <$> next)))).

Definition chainScope : types.Scope :=
  list_to_map
    [ ("P", chainStruct "P" ["Q"]); ("Q", chainStruct "Q" ["R"]); ("R", chainStruct "R" []);
      ("S", chainStruct "S" []) ].

Definition chainState : State := oneGenerator (sdkPackage chainScope) true ["P"].

(** [map[string]T] for a type parameter [T]. *)
Definition mapOfParam : types.Type_ :=
  types.TMap goString (types.TTypeParam (sdkParam "T" "any")).

(** Three groups of code blocks, and their keys in another order. *)
Definition someTypes : TypescriptTypes :=
  {| Types := {[ "B" := "export interface B {}"; "A" := "export interface A {}" ]};
     Enums := {[ "E" := "export type E = never" ]};
     Generics := {[ "comparable" := "export type comparable = any" ]} |}.

(** An external package [serpent] that declares [type Option struct{}],
    and the package [codersdk] with
    [type Config struct { Opt serpent.Option }]: the external generator
    first on the heap, as [main] builds it, then a generator of
    [codersdk] that refers to it. *)
Definition optionInfo : types.NamedInfo :=
  {| types.n_String := "github.com/coder/serpent.Option";
     types.n_Obj := {| types.tn_Name := "Option"; types.tn_Pkg := Some "serpent" |};
     types.n_TypeParams := [] |}.

Definition optionType : types.Type_ := types.TNamed optionInfo [] (types.TStruct []).

Definition optionObj : types.Object :=
  types.OTypeName {| types.obj_Name := "Option"; types.obj_Pkg := "serpent";
                     types.obj_File := "option.go";
                     types.obj_String := "type github.com/coder/serpent.Option struct{}" |}
                  (Some optionType).

Definition serpentPackage : Package :=
  {| pkg_Name := "serpent"; pkg_Scope := {[ "Option" := optionObj ]}; pkg_Comments := [] |}.

Definition configScope : types.Scope :=
  {[ "Config" :=
       types.OTypeName (sdkObj "Config")
         (Some (sdkNamed "Config" [] []
                  (types.TStruct [sdkField "Opt" false (tagText [("json", "opt")]) optionType]))) ]}.

Definition linkedState : State :=
  {| gens := [ externalGenerator serpentPackage;
               {| pkg := sdkPackage configScope; onlyOptIn := false; allowList := [];
                  externals := [0]; builtins := ∅; cachedResult := None |} ];
     stdout := "" |}.

Definition linkedRun : TypescriptTypes * State :=
  returned (generateAll 1 linkedState) noTypes.

Definition chainPass : TypescriptTypes * State :=
  returned (generateAll 0 chainState) noTypes.

(** [map[string][]*string], a type that reaches no name. *)
Definition mapOfSlices : types.Type_ :=
  types.TMap goString (types.TSlice (types.TPointer goString)).

(** [type Box[K comparable] struct { Items map[K]string }]: the
    parameter is used by a map only. *)
Definition boxInfo : types.NamedInfo :=
  {| types.n_String := "github.com/coder/coder/v2/codersdk.Box";
     types.n_Obj := {| types.tn_Name := "Box"; types.tn_Pkg := Some "codersdk" |};
     types.n_TypeParams := [sdkParam "K" "comparable"] |}.

Definition boxFields : list (types.Field types.Type_) :=
  [ sdkField "Items" false (tagText [("json", "items")])
      (types.TMap (types.TTypeParam (sdkParam "K" "comparable")) goString) ].

(** [Name string], [Conn chan int `json:"-"`] and
    [Done chan int `typescript:"-"`]. *)
Definition nameField : types.Field types.Type_ :=
  sdkField "Name" false (tagText [("json", "name")]) goString.

Definition connField : types.Field types.Type_ :=
  sdkField "Conn" false (tagText [("json", "-")]) (types.TChan "chan int").

Definition doneField : types.Field types.Type_ :=
  sdkField "Done" false (tagText [("typescript", "-")]) (types.TChan "chan int").

Definition peerObj (fields : list (types.Field types.Type_)) : types.Object :=
  types.OTypeName (sdkObj "Peer") (Some (sdkNamed "Peer" [] [] (types.TStruct fields))).

Definition emptyState : State := {| gens := []; stdout := "" |}.

Definition optionRun : TypescriptType * State :=
  returned (typescriptType 1 optionType linkedState) (tsValue "").

Definition mainRun : bool * State :=
  returned (main 3 [] [sdkPackage enumScope] emptyState) false.

Definition configGenerator : Generator :=
  {| pkg := sdkPackage configScope; onlyOptIn := false; allowList := [];
     externals := [0]; builtins := ∅; cachedResult := None |}.

Definition configBlock : string :=
  "// From codersdk/types.go" +:+ strings.nl +:+
  "export interface Config {" +:+ strings.nl +:+
  "  readonly opt: SerpentOption" +:+ strings.nl +:+ "}" +:+ strings.nl.

Definition pairScope : types.Scope := {[ "Pair" := pairObj ]}.

Definition pairState : State := oneGenerator (sdkPackage pairScope) false [].

Definition pairPass : TypescriptTypes * State :=
  returned (generateAll 0 pairState) noTypes.

Definition enumPass : TypescriptTypes * State :=
  returned (generateAll 0 {| gens := [parsedGenerator (sdkPackage enumScope) []];
                             stdout := "" |}) noTypes.

(** [type List[T any] struct { Items []T }] and a reference [List[A]]
    with [A comparable] of the referring type. *)
Definition listScope : types.Scope :=
  {[ "List" :=
       types.OTypeName (sdkObj "List")
         (Some (sdkNamed "List" [sdkParam "T" "any"] []
                  (types.TStruct
                     [sdkField "Items" false ""
                        (types.TSlice (types.TTypeParam (sdkParam "T" "any")))]))) ]}.

Definition listState : State := oneGenerator (sdkPackage listScope) false [].

Definition listOfA : types.NamedInfo :=
  {| types.n_String := "github.com/coder/coder/v2/codersdk.List[A]";
     types.n_Obj := {| types.tn_Name := "List"; types.tn_Pkg := Some "codersdk" |};
     types.n_TypeParams := [sdkParam "T" "any"] |}.

Definition listRun : TypescriptType * State :=
  returned (typescriptType 0
              (types.TNamed listOfA [types.TTypeParam (sdkParam "A" "comparable")]
                            (types.TStruct []))
              listState) (tsValue "").

(** [error], a named type of the universe: its object has no package. *)
Definition errorType : types.Type_ :=
  types.TNamed {| types.n_String := "error";
                  types.n_Obj := {| types.tn_Name := "error"; types.tn_Pkg := None |};
                  types.n_TypeParams := [] |}
               [] (types.TInterface false []).

(** [net.IP], a named type of a package that is not loaded, with the
    underlying type [[]byte]. *)
Definition ipInfo : types.NamedInfo :=
  {| types.n_String := "net.IP";
     types.n_Obj := {| types.tn_Name := "IP"; types.tn_Pkg := Some "net" |};
     types.n_TypeParams := [] |}.

Definition ipType : types.Type_ :=
  types.TNamed ipInfo [] (types.TSlice (types.TBasic types.universeByte)).

Definition ipRun : TypescriptType * State :=
  returned (typescriptType 0 ipType enumState) (tsValue "").

(** [Deadline *string `json:"deadline" typescript:"number"`]. *)
Definition deadlineField : types.Field types.Type_ :=
  sdkField "Deadline" false (tagText [("json", "deadline"); ("typescript", "number")])
           (types.TPointer goString).

(** [type A struct{}] and [type B struct { Done chan int }]. *)
Definition failingScope : types.Scope :=
  {[ "A" := types.OTypeName (sdkObj "A") (Some (emptyStruct "A"));
     "B" := types.OTypeName (sdkObj "B")
              (Some (sdkNamed "B" [] []
                       (types.TStruct [sdkField "Done" false "" (types.TChan "chan int")]))) ]}.

Definition failingState : State := oneGenerator (sdkPackage failingScope) false [].

Definition failingBefore : maps.Maps * State :=
  returned (generateNames 0 failingScope ["A"]
              (initialMaps (generatorOf (sdkPackage failingScope) false [])) failingState)
           (initialMaps (generatorOf (sdkPackage failingScope) false [])).

Definition chainEnd : option TypescriptTypes * State :=
  returned (regenerate 3 0 chainState) None.

Definition chainBlocks : TypescriptTypes := default noTypes chainEnd.1.

(** [type Twice struct { First serpent.Option; Second serpent.Option }]
    in codersdk: two references to the one declaration of the external
    package [serpent], and the run of [main] on the external packages
    [health], without declarations, and [serpent] and on the base
    package codersdk. *)
Definition twiceScope : types.Scope :=
  {[ "Twice" :=
       types.OTypeName (sdkObj "Twice")
         (Some (sdkNamed "Twice" [] []
                  (types.TStruct [ sdkField "First" false "" optionType;
                                   sdkField "Second" false "" optionType ]))) ]}.

Definition healthPackage : Package :=
  {| pkg_Name := "health"; pkg_Scope := ∅; pkg_Comments := [] |}.

Definition twiceRun : bool * State :=
  returned (main 3 [healthPackage; serpentPackage] [sdkPackage twiceScope] emptyState) false.









(** [type Loose[A any] struct { Bar string; hidden A;
    Raw A `typescript:"string"`; Gone A `json:"-"` }]: the parameter is
    used, but by no field that is emitted with it. *)
Definition looseFields : list (types.Field types.Type_) :=
  [ sdkField "Bar" false "" goString;
    {| types.f_Var := {| types.var_Name := "hidden"; types.var_Pkg := "codersdk";
                         types.var_Embedded := false; types.var_Exported := false |};
       types.f_Tag := ""; types.f_Type := types.TTypeParam (sdkParam "A" "any") |};
    sdkField "Raw" false (tagText [("typescript", "string")])
             (types.TTypeParam (sdkParam "A" "any"));
    sdkField "Gone" false (tagText [("json", "-")]) (types.TTypeParam (sdkParam "A" "any")) ].

Definition looseInfo : types.NamedInfo :=
  {| types.n_String := "github.com/coder/coder/v2/codersdk.Loose";
     types.n_Obj := {| types.tn_Name := "Loose"; types.tn_Pkg := Some "codersdk" |};
     types.n_TypeParams := [sdkParam "A" "any"] |}.

(** [type Broken struct { name string `json` }]: the tag of the
    unexported field is not in the conventional format. *)
Definition brokenField : types.Field types.Type_ :=
  {| types.f_Var := {| types.var_Name := "name"; types.var_Pkg := "codersdk";
                       types.var_Embedded := false; types.var_Exported := false |};
     types.f_Tag := "json"; types.f_Type := goString |}.

Definition brokenObj : types.Object :=
  types.OTypeName
    {| types.obj_Name := "Broken"; types.obj_Pkg := "codersdk"; types.obj_File := "types.go";
       types.obj_String :=
         "type github.com/coder/coder/v2/codersdk.Broken struct{name string " +:+
         quoted "json" +:+ "}" |}
    (Some (sdkNamed "Broken" [] [] (types.TStruct [brokenField]))).

(** A name that ends in a no-break space, U+00A0. *)
Definition paddedName : string := " Bar" +:+ strings.bytes [194; 160].

End Samples.

(** * Properties *)

Section Properties.
Context {L : Library} {O : MapOrder}.

(** ** Sorting *)

Lemma sort_Strings_sorted l : Sorted String.le (sort_Strings l).
Proof. apply (Sorted_merge_sort String.le). Qed.

Lemma sort_Strings_perm l : sort_Strings l ≡ₚ l.
Proof. apply (merge_sort_Permutation String.le). Qed.

(** The sorted list depends on the elements only, not on their order. *)
Lemma sort_Strings_order l1 l2 : l1 ≡ₚ l2 → sort_Strings l1 = sort_Strings l2.
Proof.
  intros Hp. apply (Sorted_unique String.le); try apply sort_Strings_sorted.
  by rewrite !sort_Strings_perm.
Qed.

(** ** The rendering of the code blocks *)

Lemma string_app_cons x (a b : string) : String x a +:+ b = String x (a +:+ b).
Proof. reflexivity. Qed.

Lemma string_app_nil_l (b : string) : "" +:+ b = b.
Proof. reflexivity. Qed.

Lemma string_app_assoc (a b c : string) : (a +:+ b) +:+ c = a +:+ (b +:+ c).
Proof.
  induction a as [|x a IH]; [done|].
  by rewrite !string_app_cons, IH.
Qed.

Lemma string_app_nil_r (a : string) : a +:+ "" = a.
Proof.
  induction a as [|x a IH]; [done|].
  by rewrite string_app_cons, IH.
Qed.

Lemma writeBlocks_blocksOf m ks s : writeBlocks m ks s = s +:+ blocksOf m ks.
Proof.
  revert s. induction ks as [|k ks IH]; intros s; simpl.
  - by rewrite string_app_nil_r.
  - by rewrite IH, !string_app_assoc.
Qed.

(** Whatever order the three [range] loops of [TypescriptTypes.String]
    enumerate the keys of the group maps in, the rendered text is the
    same: the records, then the enums, then the generics, each group in
    lexicographic order of declaration name. *)
Lemma String_ranged_sorted (t : TypescriptTypes) :
  ∃ sortedTypes sortedEnums sortedGenerics,
    (Sorted String.le sortedTypes ∧ sortedTypes ≡ₚ keys (Types t)) ∧
    (Sorted String.le sortedEnums ∧ sortedEnums ≡ₚ keys (Enums t)) ∧
    (Sorted String.le sortedGenerics ∧ sortedGenerics ≡ₚ keys (Generics t)) ∧
    ∀ kTypes kEnums kGenerics,
      kTypes ≡ₚ keys (Types t) →
      kEnums ≡ₚ keys (Enums t) →
      kGenerics ≡ₚ keys (Generics t) →
      String_ranged kTypes kEnums kGenerics t =
      strings.TrimRight (blocksOf (Types t) sortedTypes +:+
                         blocksOf (Enums t) sortedEnums +:+
                         blocksOf (Generics t) sortedGenerics) (ascii_of_nat 10).
Proof.
  exists (sort_Strings (keys (Types t))), (sort_Strings (keys (Enums t))),
         (sort_Strings (keys (Generics t))).
  repeat split; try apply sort_Strings_sorted; try apply sort_Strings_perm.
  intros k1 k2 k3 H1 H2 H3. unfold String_ranged.
  rewrite (sort_Strings_order _ _ H1), (sort_Strings_order _ _ H2),
    (sort_Strings_order _ _ H3).
  rewrite !writeBlocks_blocksOf. simpl. by rewrite string_app_assoc.
Qed.

(** ** The loops over maps do not depend on the order of [range] *)

Lemma mapRange_NoDup {V} (m : gmap string V) : NoDup (mapRange m).*1.
Proof. rewrite mapRange_perm. apply NoDup_fst_map_to_list. Qed.

Lemma list_to_map_mapRange {V} (m : gmap string V) : list_to_map (mapRange m) = m.
Proof.
  rewrite <-(list_to_map_to_list m) at 2.
  apply list_to_map_proper; [apply mapRange_NoDup|apply mapRange_perm].
Qed.

Lemma elem_of_mapRange {V} (m : gmap string V) k v : (k, v) ∈ mapRange m ↔ m !! k = Some v.
Proof. rewrite mapRange_perm. apply elem_of_map_to_list. Qed.

Lemma mapRange_nil {V} (m : gmap string V) : mapRange m = [] ↔ m = ∅.
Proof.
  split.
  - intros Hnil. apply map_empty. intros k.
    destruct (m !! k) as [v|] eqn:Hk; [|done].
    apply elem_of_mapRange in Hk. rewrite Hnil in Hk. by apply elem_of_nil in Hk.
  - intros ->. apply Permutation_nil_r. by rewrite mapRange_perm, map_to_list_empty.
Qed.

Lemma enumsLoop_lookup enumConsts kvs : ∀ acc name,
  NoDup kvs.*1 →
  enumsLoop enumConsts kvs acc !! name =
  match (list_to_map kvs : gmap string types.Object) !! name with
  | Some v => Some (enumCodeBlock (posLine (types.info v)) name (default [] (enumConsts !! name)))
  | None => acc !! name
  end.
Proof.
  induction kvs as [|[k v] kvs IH]; intros acc name Hnd; simpl.
  - by rewrite lookup_empty.
  - apply NoDup_cons in Hnd as [Hk Hnd]. rewrite IH by done.
    destruct (decide (k = name)) as [->|Hne].
    + rewrite lookup_insert_eq.
      rewrite (not_elem_of_list_to_map_1 _ _ Hk). by rewrite lookup_insert_eq.
    + by rewrite !lookup_insert_ne by done.
Qed.

(** The enum blocks are computed entry by entry. *)
Lemma enumsLoop_mapRange enumConsts (enums : gmap string types.Object) name :
  enumsLoop enumConsts (mapRange enums) ∅ !! name =
  (λ v, enumCodeBlock (posLine (types.info v)) name (default [] (enumConsts !! name)))
    <$> enums !! name.
Proof.
  rewrite enumsLoop_lookup by apply mapRange_NoDup.
  rewrite list_to_map_mapRange. destruct (enums !! name); [done|]. by rewrite lookup_empty.
Qed.

Lemma addBuiltins_lookup kvs : ∀ generics n,
  NoDup kvs.*1 →
  addBuiltins kvs generics !! n =
  match (list_to_map kvs : gmap string string) !! n with
  | Some value => if bool_decide (value ≠ "") then Some value else generics !! n
  | None => generics !! n
  end.
Proof.
  induction kvs as [|[k v] kvs IH]; intros generics n Hnd; simpl.
  - by rewrite lookup_empty.
  - apply NoDup_cons in Hnd as [Hk Hnd].
    destruct (decide (k = n)) as [->|Hne].
    + rewrite lookup_insert_eq. case_bool_decide; rewrite IH by done;
        rewrite (not_elem_of_list_to_map_1 _ _ Hk); [by rewrite lookup_insert_eq|done].
    + case_bool_decide; rewrite IH by done; by rewrite !lookup_insert_ne by done.
Qed.

Lemma addBuiltins_mapRange (builtins0 generics : gmap string string) n :
  addBuiltins (mapRange builtins0) generics !! n =
  match builtins0 !! n with
  | Some value => if bool_decide (value ≠ "") then Some value else generics !! n
  | None => generics !! n
  end.
Proof. rewrite addBuiltins_lookup by apply mapRange_NoDup. by rewrite list_to_map_mapRange. Qed.

Lemma gatherGenerics_union kvs : ∀ used,
  NoDup kvs.*1 → gatherGenerics used kvs = used ∪ list_to_map kvs.
Proof.
  induction kvs as [|[k v] kvs IH]; intros used Hnd; simpl.
  - by rewrite (right_id_L ∅ (∪)).
  - apply NoDup_cons in Hnd as [Hk Hnd].
    destruct (used !! k) as [c|] eqn:Hc; rewrite IH by done.
    + apply map_eq. intros i. rewrite !lookup_union.
      destruct (decide (k = i)) as [->|Hne].
      * rewrite Hc, lookup_insert_eq. by rewrite (not_elem_of_list_to_map_1 _ _ Hk).
      * by rewrite lookup_insert_ne.
    + rewrite <-insert_union_l. by apply insert_union_r.
Qed.

Lemma gatherGenerics_goRange used (m : GoMap) :
  gatherGenerics used (goRange m) = used ∪ default ∅ m.
Proof.
  destruct m as [m|]; simpl.
  - rewrite gatherGenerics_union by apply mapRange_NoDup. by rewrite list_to_map_mapRange.
  - by rewrite (right_id_L ∅ (∪)).
Qed.

(** ** Reasoning about computations *)

Lemma bind_Ok {A B} (m : M A) (k : A → M B) σ b σ' :
  bind m k σ = Ok (b, σ') ↔ ∃ a σ1, m σ = Ok (a, σ1) ∧ k a σ1 = Ok (b, σ').
Proof.
  unfold bind. split.
  - destruct (m σ) as [[a σ1]| |]; [eauto|done..].
  - intros (a & σ1 & -> & Hk). done.
Qed.

Lemma ret_Ok {A} (a b : A) σ σ' : ret a σ = Ok (b, σ') ↔ a = b ∧ σ = σ'.
Proof. unfold ret. naive_solver. Qed.

Lemma wrap_Ok {A} prefix (m : M A) σ x : wrap prefix m σ = Ok x ↔ m σ = Ok x.
Proof. unfold wrap. destruct (m σ); naive_solver. Qed.

Lemma deref_Ok p σ g σ' : deref p σ = Ok (g, σ') ↔ gens σ !! p = Some g ∧ σ' = σ.
Proof. unfold deref. destruct (gens σ !! p); naive_solver. Qed.

Section keeps.
Context (R : relation State) `{!PreOrder R}.

Lemma keeps_ret {A} (a : A) : keeps R (ret a).
Proof. intros σ b σ' [_ <-]%ret_Ok. reflexivity. Qed.

Lemma keeps_fail {A} msg : keeps R (@fail A msg).
Proof. by intros σ b σ'. Qed.

Lemma keeps_panic {A} msg : keeps R (@panic A msg).
Proof. by intros σ b σ'. Qed.

Lemma keeps_bind {A B} (m : M A) (k : A → M B) :
    keeps R m → (∀ a, keeps R (k a)) → keeps R (bind m k).
Proof.
    intros Hm Hk σ b σ' (a & σ1 & H1 & H2)%bind_Ok.
    etrans; [by eapply Hm|by eapply Hk].
Qed.

Lemma keeps_wrap {A} prefix (m : M A) : keeps R m → keeps R (wrap prefix m).
Proof. intros Hm σ b σ' ?%wrap_Ok. by eapply Hm. Qed.

Lemma keeps_deref p : keeps R (deref p).
Proof. intros σ b σ' [_ ->]%deref_Ok. reflexivity. Qed.
End keeps.

(** ** The allow list only grows, by new names of the scope *)

#[local] Instance frame_preorder : PreOrder frame.
Proof.
  split.
  - intros σ p gen Hp. exists gen. by repeat split.
  - intros σ1 σ2 σ3 H12 H23 p gen Hp.
    destruct (H12 p gen Hp) as (gen2 & Hp2 & ? & ? & ? & ?).
    destruct (H23 p gen2 Hp2) as (gen3 & Hp3 & ? & ? & ? & ?).
    exists gen3. repeat split; try congruence. by etrans.
Qed.

#[local] Instance steady_preorder g : PreOrder (steady g).
Proof.
  split.
  - intros σ. split; [reflexivity|]. intros gen gen' ? ? _. by simplify_eq.
  - intros σ1 σ2 σ3 [F12 H12] [F23 H23]. split; [by etrans|].
    intros gen gen3 Hg Hg3 Hext.
    destruct (F12 g gen Hg) as (gen2 & Hg2 & ? & ? & Hext2 & ?).
    specialize (H12 gen gen2 Hg Hg2 Hext).
    specialize (H23 gen2 gen3 Hg2 Hg3). rewrite Hext2 in H23.
    specialize (H23 Hext). lia.
Qed.

Lemma store_frame p gen gen' σ :
  gens σ !! p = Some gen →
  pkg gen' = pkg gen → onlyOptIn gen' = onlyOptIn gen → externals gen' = externals gen →
  allowList gen `prefix_of` allowList gen' →
  frame σ {| gens := <[p := gen']> (gens σ); stdout := stdout σ |}.
Proof.
  intros Hp ? ? ? ? q genq Hq. simpl.
  destruct (decide (q = p)) as [->|Hne].
  - exists gen'. rewrite list_lookup_insert_eq by by eapply lookup_lt_Some.
    by simplify_eq.
  - exists genq. rewrite list_lookup_insert_ne by done. by repeat split.
Qed.

Lemma store_Ok p gen σ u σ' :
  store p gen σ = Ok (u, σ') ↔ σ' = {| gens := <[p := gen]> (gens σ); stdout := stdout σ |}.
Proof. unfold store. destruct u. naive_solver. Qed.

Lemma appendAllowList_Ok p name σ u σ' :
  appendAllowList p name σ = Ok (u, σ') ↔
  ∃ gen, gens σ !! p = Some gen ∧
    σ' = {| gens := <[p := {| pkg := pkg gen; onlyOptIn := onlyOptIn gen;
                              allowList := allowList gen ++ [name];
                              externals := externals gen; builtins := builtins gen;
                              cachedResult := cachedResult gen |}]> (gens σ);
            stdout := stdout σ |}.
Proof.
  unfold appendAllowList. rewrite bind_Ok. split.
  - intros (gen & σ1 & [Hg ->]%deref_Ok & ->%store_Ok). eauto.
  - intros (gen & Hg & ->). exists gen, σ. split; [by apply deref_Ok|by apply store_Ok].
Qed.

Lemma appendAllowList_frame p name : keeps frame (appendAllowList p name).
Proof.
  intros σ u σ' (gen & Hg & ->)%appendAllowList_Ok.
  eapply store_frame; eauto. by apply prefix_app_r.
Qed.

(** Appending a name of the scope that the allow list lacks. *)
Lemma uncovered_append gen name gen' :
  pkg gen' = pkg gen → allowList gen' = allowList gen ++ [name] →
  name ∉ allowList gen → is_Some (pkg_Scope (pkg gen) !! name) →
  uncovered gen' < uncovered gen.
Proof.
  intros Hpkg Hal Hnotin Hin. unfold uncovered. rewrite Hpkg, Hal.
  apply subset_size. rewrite list_to_set_app_L. simpl.
  apply elem_of_dom in Hin.
  assert (name ∉ (list_to_set (allowList gen) : gset string))
    by by rewrite elem_of_list_to_set.
  split; [set_solver|].
  intros Hsub. specialize (Hsub name). set_solver.
Qed.

Lemma steady_frame_same g σ σ' :
  frame σ σ' → gens σ' !! g = gens σ !! g → steady g σ σ'.
Proof.
  intros HF Hsame. split; [done|].
  intros gen gen' Hg Hg' _. rewrite Hsame in Hg'. by simplify_eq.
Qed.

Lemma setBuiltin_steady g p name value : keeps (steady g) (setBuiltin p name value).
Proof.
  intros σ u σ'. unfold setBuiltin. rewrite bind_Ok.
  intros (gen & σ1 & [Hg ->]%deref_Ok & ->%store_Ok).
  split; [by eapply store_frame|].
  intros gen0 gen' Hg0. simpl. destruct (decide (p = g)) as [->|Hne].
  - rewrite list_lookup_insert_eq by by eapply lookup_lt_Some.
    intros ? _. by simplify_eq.
  - rewrite list_lookup_insert_ne by done. intros ? _. by simplify_eq.
Qed.

Lemma print_steady g s : keeps (steady g) (print s).
Proof.
  intros σ u σ'. unfold print. intros [= <- <-].
  apply steady_frame_same; [|done]. intros p gen Hp. exists gen. by repeat split.
Qed.

(** The reference lookup reads the heap only, and with no externals it
    finds local declarations only. *)
Lemma lookupExternals_Ok exts pkgName name σ r σ' :
  lookupExternals exts pkgName name σ = Ok (r, σ') →
  σ' = σ ∧ (exts = [] → r = None) ∧
  (∀ obj objGen local, r = Some (obj, objGen, local) → local = false).
Proof.
  revert σ. induction exts as [|ext exts IH]; intros σ; simpl.
  - intros [<- ->]%ret_Ok. by repeat split.
  - rewrite bind_Ok. intros (e & σ1 & [_ ->]%deref_Ok & Hrest).
    destruct (types.Lookup _ _); [case_bool_decide|].
    + apply ret_Ok in Hrest as [<- ->]. repeat split; [done|]. by intros ??? [= _ _ <-].
    + apply IH in Hrest as (-> & _ & ?). by repeat split.
    + apply IH in Hrest as (-> & _ & ?). by repeat split.
Qed.

Lemma lookupNamedReference_Ok g n σ r σ' :
  lookupNamedReference g n σ = Ok (r, σ') →
  σ' = σ ∧
  ∀ obj objGen local, r = Some (obj, objGen, local) →
    ∀ gen, gens σ !! g = Some gen →
      if local then is_Some (pkg_Scope (pkg gen) !! types.tn_Name (types.n_Obj n))
      else externals gen ≠ [].
Proof.
  unfold lookupNamedReference. destruct (types.tn_Pkg _) as [pkgName|]; [|done].
  rewrite bind_Ok. intros (gen & σ1 & [Hg ->]%deref_Ok & Hrest).
  assert (lookupExternals (externals gen) pkgName (types.tn_Name (types.n_Obj n)) σ
          = Ok (r, σ') →
          σ' = σ ∧ ∀ obj objGen local, r = Some (obj, objGen, local) →
            ∀ gen0, gens σ !! g = Some gen0 →
              if local then is_Some (pkg_Scope (pkg gen0) !! types.tn_Name (types.n_Obj n))
              else externals gen0 ≠ []) as Hext.
  { intros (-> & Hnil & Hloc)%lookupExternals_Ok. split; [done|].
    intros obj objGen local -> gen0 Hg0.
    rewrite (Hloc _ _ _ eq_refl). intros Hnil'.
    rewrite Hg in Hg0. injection Hg0 as <-. by specialize (Hnil Hnil'). }
  unfold types.Lookup in *.
  destruct (pkg_Scope (pkg gen) !! _) as [obj|] eqn:Hl; [case_bool_decide|]; eauto.
  apply ret_Ok in Hrest as [<- <-]. split; [done|].
  intros ? ? ? [= <- <- <-] gen0 Hg0.
  rewrite Hg in Hg0. injection Hg0 as <-. by rewrite Hl.
Qed.

(** Proof steps for [keeps] goals. *)
Ltac keeps_ret := apply keeps_ret; apply _.
Ltac keeps_bind := apply keeps_bind; [apply _| |].
Ltac keeps_step :=
  first [ apply keeps_fail | apply keeps_panic | keeps_ret
        | apply keeps_deref; apply _ | apply keeps_wrap ].

Section steady.
Context (g : nat).

Lemma objNameOf_Ok tn σ s σ' :
    objNameOf tn σ = Ok (s, σ') → σ' = σ.
Proof. unfold objNameOf. destruct (types.tn_Pkg tn); [|done]. by intros [_ ->]%ret_Ok. Qed.

Lemma mergeGenerics_keeps R `{!PreOrder R} m kvs : keeps R (mergeGenerics m kvs).
Proof.
    revert m. induction kvs as [|[k v] kvs IH]; intros m; simpl.
    - keeps_ret.
    - keeps_bind; [|done].
      destruct m; simpl; keeps_step.
Qed.

Lemma arrayType_keeps R `{!PreOrder R} s elem :
    keeps R elem → keeps R (arrayType s elem).
Proof.
    intros He. unfold arrayType. case_bool_decide; [keeps_ret|].
    keeps_bind; [by apply keeps_wrap|]. intros. keeps_ret.
Qed.

Lemma typeArgs_keeps R `{!PreOrder R} mapper objName0 args :
    (∀ a, a ∈ args → keeps R (mapper a)) →
    ∀ cs ns ts, keeps R (typeArgs mapper objName0 args cs ns ts).
Proof.
    induction args as [|a args IH]; intros Hm cs ns ts; simpl.
    - keeps_ret.
    - keeps_bind; [apply keeps_wrap, Hm; left|].
      intros genType. destruct a; apply IH; intros; apply Hm; by right.
Qed.

  (** Recording a resolved reference in the allow list. *)
Lemma reference_steady n objGen local σ σ1 σ2 gen u1 u2 :
    gens σ !! g = Some gen →
    (if local : bool then is_Some (pkg_Scope (pkg gen) !! types.tn_Name (types.n_Obj n))
     else externals gen ≠ []) →
    (if onlyOptIn gen && negb (strings.Contains (allowList gen) (types.tn_Name (types.n_Obj n)))
     then appendAllowList g (types.tn_Name (types.n_Obj n)) else ret tt) σ = Ok (u1, σ1) →
    (if negb local then appendAllowList objGen (types.tn_Name (types.n_Obj n)) else ret tt) σ1
    = Ok (u2, σ2) →
    steady g σ σ2.
Proof.
    intros Hg Hloc H1 H2. split.
    - etrans.
      + destruct (_ && _); [by eapply appendAllowList_frame|].
        apply ret_Ok in H1 as [_ <-]. reflexivity.
      + destruct (negb local); [by eapply appendAllowList_frame|].
        apply ret_Ok in H2 as [_ <-]. reflexivity.
    - intros gen0 gen' Hg0 Hg' Hext. rewrite Hg in Hg0. injection Hg0 as <-.
      destruct local; [|done]. simpl in H2. apply ret_Ok in H2 as [_ <-].
      destruct (onlyOptIn gen && _) eqn:Hguard.
      + apply appendAllowList_Ok in H1 as (gen1 & Hg1 & ->). simpl in Hg'.
        rewrite Hg in Hg1. injection Hg1 as <-.
        rewrite list_lookup_insert_eq in Hg' by by eapply lookup_lt_Some.
        injection Hg' as <-. simpl.
        apply andb_true_iff in Hguard as [_ Hc]. apply negb_true_iff in Hc.
        unfold strings.Contains in Hc. apply bool_decide_eq_false in Hc.
        pose proof (uncovered_append gen (types.tn_Name (types.n_Obj n))
          {| pkg := pkg gen; onlyOptIn := onlyOptIn gen;
             allowList := allowList gen ++ [types.tn_Name (types.n_Obj n)];
             externals := externals gen; builtins := builtins gen;
             cachedResult := cachedResult gen |} eq_refl eq_refl Hc Hloc).
        rewrite length_app. simpl. lia.
      + apply ret_Ok in H1 as [_ <-]. rewrite Hg in Hg'. by injection Hg' as <-.
Qed.

Lemma namedReference_steady mapper n targs underlying :
    keeps (steady g) (mapper underlying) →
    (∀ a, a ∈ targs → keeps (steady g) (mapper a)) →
    keeps (steady g) (namedReference mapper g n targs underlying).
Proof.
    intros Hu Ha σ ts σ'. unfold namedReference.
    rewrite bind_Ok. intros (objName0 & σ0 & ->%objNameOf_Ok & H1).
    apply bind_Ok in H1 as (found & σ1 & [-> Hfound]%lookupNamedReference_Ok & H2).
    destruct found as [[[obj objGen] local]|].
    - apply bind_Ok in H2 as (gen & σ2 & [Hg ->]%deref_Ok & H3).
      apply bind_Ok in H3 as (u1 & σ3 & Hs1 & H4).
      apply bind_Ok in H4 as (u2 & σ4 & Hs2 & H5).
      etrans; [by eapply (reference_steady n objGen local σ σ3 σ4 gen u1 u2 Hg
                 (Hfound obj objGen local eq_refl gen Hg))|].
      destruct targs as [|a targs'].
      + apply ret_Ok in H5 as [_ <-]. reflexivity.
      + apply bind_Ok in H5 as ([[cs ns] gts] & σ5 & Hargs & [_ <-]%ret_Ok).
        by eapply typeArgs_keeps; [apply _|..].
    - destruct underlying;
        try (apply bind_Ok in H2 as (ts0 & σ2 & Hm%wrap_Ok & Hret);
             assert (σ' = σ2) as ->
               by (case_bool_decide; by apply ret_Ok in Hret as [_ <-]);
             by eapply Hu).
      apply ret_Ok in H2 as [_ <-]. reflexivity.
Qed.

Lemma namedType_steady mapper n targs underlying :
    keeps (steady g) (mapper underlying) →
    (∀ a, a ∈ targs → keeps (steady g) (mapper a)) →
    (∀ f fs, underlying = types.TStruct (f :: fs) → keeps (steady g) (mapper (types.f_Type f))) →
    keeps (steady g) (namedType mapper g n targs underlying).
Proof.
    intros Hu Ha Hf. unfold namedType.
    destruct (assoc _ _); [keeps_ret|].
    destruct (serpentStruct _); [|by apply namedReference_steady].
    destruct underlying as [|[|f fs]| | | | | | | | | |];
      try by apply namedReference_steady.
    - keeps_step.
    - by eapply Hf.
Qed.

Lemma tsize_elem (l : list types.Type_) a :
    a ∈ l → tsize a ≤ foldr (λ t acc, tsize t + acc) 0 l.
Proof.
    induction 1 as [|? ? ? ? IH]; simpl; [lia|]. lia.
Qed.

Lemma typescriptType_steady_size n : ∀ ty, tsize ty < n → keeps (steady g) (typescriptType g ty).
Proof.
    induction n as [|n IH]; intros ty Hsz; [lia|].
    destruct ty; simpl in *.
    - repeat case_bool_decide; keeps_ret.
    - keeps_ret.
    - keeps_bind; [apply keeps_wrap, IH; lia|]. intros keyType.
      keeps_bind; [apply keeps_wrap, IH; lia|]. intros valueType.
      keeps_bind; [apply mergeGenerics_keeps; apply _|].
      intros. keeps_ret.
    - apply arrayType_keeps; [apply _|]. apply IH. lia.
    - apply arrayType_keeps; [apply _|]. apply IH. lia.
    - apply namedType_steady.
      + apply IH. lia.
      + intros a Ha%tsize_elem. apply IH. lia.
      + intros f fs ->. apply IH. simpl in Hsz. lia.
    - keeps_bind; [apply keeps_wrap, IH; lia|]. intros. keeps_ret.
    - destruct empty; keeps_ret.
    - destruct (negb _); [keeps_step|].
      keeps_bind; [keeps_step|]. intros gen.
      destruct (types.Lookup _ _); [keeps_ret|].
      destruct (isBuiltIn _) as [include builtinString].
      destruct (negb include); [keeps_ret|].
      keeps_bind; [apply setBuiltin_steady|]. intros. keeps_ret.
    - keeps_step.
    - keeps_step.
    - keeps_step.
Qed.

  (** Mapping a type keeps the heap steady. *)
Lemma typescriptType_steady ty : keeps (steady g) (typescriptType g ty).
Proof. apply (typescriptType_steady_size (S (tsize ty))). lia. Qed.

End steady.

Section passes.
Context (g : nat).

Lemma unionTerms_steady us on terms : ∀ allTypes optional,
    keeps (steady g) (unionTerms g us on terms allTypes optional).
Proof.
    induction terms as [|[tilde ty] terms IH]; intros allTypes optional; simpl.
    - keeps_ret.
    - keeps_bind; [apply keeps_wrap, typescriptType_steady|]. intros. apply IH.
Qed.

Lemma buildUnion_steady obj st : keeps (steady g) (buildUnion g obj st).
Proof.
    unfold buildUnion. keeps_bind; [apply unionTerms_steady|].
    intros [allTypes optional]. keeps_ret.
Qed.

Lemma fieldLine_steady obj field fields used :
    keeps (steady g) (fieldLine g obj field fields used).
Proof.
    unfold fieldLine. destruct (structtag_Parse _) as [tags|]; [|keeps_step].
    destruct (negb _); [keeps_ret|].
    destruct tags as [tags|]; [|keeps_step].
    case_bool_decide; [keeps_ret|].
    keeps_bind; [apply keeps_wrap, typescriptType_steady|]. intros tsType.
    case_bool_decide; keeps_ret.
Qed.

Lemma fieldsLoop_steady obj extended st : ∀ i fields used,
    keeps (steady g) (fieldsLoop g obj extended i st fields used).
Proof.
    induction st as [|field st IH]; intros i fields used; simpl.
    - keeps_ret.
    - case_bool_decide; [apply IH|].
      keeps_bind; [apply fieldLine_steady|]. intros. apply IH.
Qed.

Lemma paramsLoop_steady on used params : ∀ generics,
    keeps (steady g) (paramsLoop on used params generics).
Proof.
    induction params as [|param params IH]; intros generics; simpl.
    - keeps_ret.
    - destruct (used !! _); [apply IH|keeps_step].
Qed.

Lemma buildStruct_steady obj st : keeps (steady g) (buildStruct g obj st).
Proof.
    unfold buildStruct. destruct (extendsLoop _ _ _ _) as [extends extended].
    keeps_bind; [apply fieldsLoop_steady|]. intros [fields used].
    destruct obj as [o [[]|]| | | |]; try keeps_step.
    keeps_bind; [apply paramsLoop_steady|]. intros. keeps_ret.
Qed.

Lemma generateOne_steady m obj : keeps (steady g) (generateOne g m obj).
Proof.
    unfold generateOne. destruct (types.Type' obj) as [ty|]; [|keeps_ret].
    case_bool_decide; [keeps_ret|].
    keeps_bind; [keeps_step|]. intros gen.
    destruct (_ && _); [keeps_ret|].
    destruct obj as [o ty'|o ty'|o ty' val|o ty'|o ty']; try keeps_ret.
    - destruct ty as [| | | | |n targs underNamed| | | | | |]; try keeps_step.
      destruct underNamed as [| | | | | | |empty embeddeds| | | |]; try keeps_step.
      + keeps_bind; [apply keeps_wrap, buildStruct_steady|]. intros. keeps_ret.
      + keeps_bind; [apply keeps_wrap, typescriptType_steady|]. intros. keeps_ret.
      + keeps_bind; [apply keeps_wrap, typescriptType_steady|]. intros. keeps_ret.
      + keeps_bind; [apply keeps_wrap, typescriptType_steady|]. intros. keeps_ret.
      + destruct embeddeds as [|embedded [|]]; try keeps_ret.
        keeps_bind; [apply keeps_wrap, buildUnion_steady|]. intros. keeps_ret.
    - destruct ty as [| | | | |n targs underNamed| | | | | |]; try keeps_ret.
      keeps_bind; [|intros; keeps_ret].
      intros σ s σ' ->%objNameOf_Ok. reflexivity.
    - keeps_bind; [apply print_steady|]. intros. keeps_ret.
Qed.

Lemma generateNames_steady scope names : ∀ m,
    keeps (steady g) (generateNames g scope names m).
Proof.
    induction names as [|n names IH]; intros m; simpl.
    - keeps_ret.
    - keeps_bind; [|intros; apply IH].
      destruct (types.Lookup _ _); [apply keeps_wrap, generateOne_steady|keeps_ret].
Qed.

  (** A whole generation pass keeps the heap steady. *)
Lemma generateAll_steady : keeps (steady g) (generateAll g).
Proof.
    unfold generateAll. keeps_bind; [keeps_step|]. intros gen.
    keeps_bind; [apply generateNames_steady|]. intros m.
    keeps_bind; [keeps_step|]. intros gen'. keeps_ret.
Qed.

End passes.

(** ** The regeneration loop *)

Lemma uncovered_le_scope gen : uncovered gen ≤ size (pkg_Scope (pkg gen)).
Proof.
  unfold uncovered. rewrite <-(size_dom (D:=gset string) (pkg_Scope (pkg gen))).
  apply subseteq_size. set_solver.
Qed.

Lemma wrap_Err {A} prefix (m : M A) σ msg :
  m σ = Err msg → wrap prefix m σ = Err (prefix +:+ msg).
Proof. unfold wrap. by intros ->. Qed.

Lemma wrap_Panic {A} prefix (m : M A) σ msg :
  m σ = Panic msg → wrap prefix m σ = Panic msg.
Proof. unfold wrap. by intros ->. Qed.

(** One turn of the loop, by the outcome of its pass. *)
Lemma regenerate_Err fuel ext σ gen msg :
  gens σ !! ext = Some gen → generateAll ext σ = Err msg →
  regenerate (S fuel) ext σ = Err ("generate external: " +:+ msg).
Proof.
  intros Hg Hall. simpl. unfold bind at 1, deref at 1. rewrite Hg.
  unfold bind at 1. by rewrite (wrap_Err _ _ _ _ Hall).
Qed.

Lemma regenerate_Panic fuel ext σ gen msg :
  gens σ !! ext = Some gen → generateAll ext σ = Panic msg →
  regenerate (S fuel) ext σ = Panic msg.
Proof.
  intros Hg Hall. simpl. unfold bind at 1, deref at 1. rewrite Hg.
  unfold bind at 1. by rewrite (wrap_Panic _ _ _ _ Hall).
Qed.

Lemma regenerate_Ok fuel ext σ gen ts σ1 gen1 :
  gens σ !! ext = Some gen → generateAll ext σ = Ok (ts, σ1) →
  gens σ1 !! ext = Some gen1 →
  regenerate (S fuel) ext σ =
  if bool_decide (length (allowList gen1) ≠ length (allowList gen))
  then regenerate fuel ext σ1 else Ok (Some ts, σ1).
Proof.
  intros Hg Hall Hg1. simpl. unfold bind at 1, deref at 1. rewrite Hg.
  unfold bind at 1. rewrite (proj2 (wrap_Ok _ _ _ _) Hall).
  unfold bind at 1, deref at 1. rewrite Hg1. by case_bool_decide.
Qed.

Lemma looped_ends ext σ n r :
  looped ext σ n r → ∀ σ', r ≠ Ok (None, σ').
Proof. induction 1; done. Qed.

Lemma regenerate_loops ext k : ∀ σ gen,
  gens σ !! ext = Some gen → externals gen = [] → uncovered gen ≤ k →
  ∃ n r, n ≤ uncovered gen ∧ looped ext σ n r ∧
         ∀ fuel, n < fuel → regenerate fuel ext σ = r.
Proof.
  induction k as [|k IH]; intros σ gen Hg Hext Hk.
  all: destruct (generateAll ext σ) as [[ts σ1]|msg|msg] eqn:Hall.
  2,5: exists 0, (Err ("generate external: " +:+ msg)); split; [lia|]; split;
         [by eapply looped_error|];
         intros [|fuel] ?; [lia|]; by eapply regenerate_Err.
  2,4: exists 0, (Panic msg); split; [lia|]; split; [by eapply looped_panic|];
         intros [|fuel] ?; [lia|]; by eapply regenerate_Panic.
  all: pose proof (generateAll_steady ext σ ts σ1 Hall) as [HF Hm].
  all: destruct (HF ext gen Hg) as (gen1 & Hg1 & Hpkg & _ & Hext1 & Hpre).
  all: specialize (Hm gen gen1 Hg Hg1 Hext).
  all: pose proof (prefix_length _ _ Hpre) as Hlen.
  all: destruct (decide (length (allowList gen1) = length (allowList gen))) as [Heq|Hne].
  1,3: exists 0, (Ok (Some ts, σ1)); split; [lia|]; split;
         [ eapply looped_fixpoint; [done..|];
           destruct Hpre as [added Hadd]; rewrite Hadd in Heq |- *;
           rewrite length_app in Heq; destruct added; [by rewrite app_nil_r|simpl in Heq; lia]
         | intros [|fuel] ?; [lia|];
           rewrite (regenerate_Ok fuel ext σ gen ts σ1 gen1) by done;
           by rewrite bool_decide_eq_false_2 by (intros ?; done) ].
  - lia.
  - destruct (IH σ1 gen1 Hg1) as (n & r & Hn & Hr & Hfuel); [congruence|lia|].
    exists (S n), r. split; [lia|]. split.
    + eapply looped_grown; [done..|lia|lia|done].
    + intros [|fuel] ?; [lia|].
      rewrite (regenerate_Ok fuel ext σ gen ts σ1 gen1) by done.
      rewrite bool_decide_eq_true_2 by done. apply Hfuel. lia.
Qed.

(** C2, as amended. The generate-inspect-regenerate loop of [main]
    terminates for every external generator (one built without
    externals of its own).  The loop makes [n] passes that grow the
    allow list, each at its end and by names of declarations of the
    scope that the list did not name, and ends with the next pass: that
    pass returns its blocks and leaves the allow list as it was, or it
    fails and the run aborts with its error.  There are no more growing
    passes than the scope has declarations that the allow list does not
    name at the start, so no more than the scope has declarations; with
    any number of passes allowed beyond [n], the loop gives that
    outcome. *)
Theorem regenerate_terminates ext σ gen :
  gens σ !! ext = Some gen → externals gen = [] →
  ∃ n r,
    n ≤ uncovered gen ∧ uncovered gen ≤ size (pkg_Scope (pkg gen)) ∧
    looped ext σ n r ∧
    ∀ fuel, n < fuel → regenerate fuel ext σ = r.
Proof.
  intros Hg Hext.
  destruct (regenerate_loops ext (uncovered gen) σ gen Hg Hext)
    as (n & r & Hn & Hr & Hfuel); [done|].
  exists n, r. split; [done|]. split; [apply uncovered_le_scope|done].
Qed.

(** ** The record builder *)

Lemma extendsLoop_cons i field st extends extended :
  extendsLoop i (field :: st) extends extended =
  if isExtended field
  then extendsLoop (S i) st (extends ++ [types.var_Name (types.f_Var field)]) ({[i]} ∪ extended)
  else extendsLoop (S i) st extends extended.
Proof. reflexivity. Qed.

Lemma extendsLoop_spec st : ∀ i extends extended,
  (extendsLoop i st extends extended).1 =
  extends ++ (types.var_Name ∘ types.f_Var <$> filter (λ f, isExtended f) st) ∧
  ∀ j, j ∈ (extendsLoop i st extends extended).2 ↔
       j ∈ extended ∨ ∃ k f, j = i + k ∧ st !! k = Some f ∧ isExtended f.
Proof.
  induction st as [|field st IH]; intros i extends extended.
  - simpl. split; [by rewrite app_nil_r|]. intros j. split; [auto|].
    intros [?|(k & f & _ & Hk & _)]; [done|]. by rewrite lookup_nil in Hk.
  - rewrite extendsLoop_cons, filter_cons.
    destruct (isExtended field) eqn:Hc.
    + destruct (IH (S i) (extends ++ [types.var_Name (types.f_Var field)])
                  ({[i]} ∪ extended)) as [H1 H2].
      rewrite decide_True by done. split.
      * rewrite H1. simpl. by rewrite <-app_assoc.
      * intros j. rewrite H2. split.
        -- intros [[->%elem_of_singleton|?]%elem_of_union|(k & f & -> & Hk & Hf)]; [|by left|].
           ++ right. exists 0, field. repeat split; [lia|by rewrite Hc].
           ++ right. exists (S k), f. repeat split; try done; lia.
        -- intros [?|(k & f & -> & Hk & Hf)]; [left; set_solver|].
           destruct k as [|k]; simpl in Hk.
           ++ left. replace (i + 0) with i by lia. set_solver.
           ++ right. exists k, f. repeat split; try done; lia.
    + destruct (IH (S i) extends extended) as [H1 H2].
      rewrite decide_False by (simpl; tauto).
      split; [done|]. intros j. rewrite H2. split.
      * intros [?|(k & f & -> & Hk & Hf)]; [by left|].
        right. exists (S k), f. repeat split; try done; lia.
      * intros [?|(k & f & -> & Hk & Hf)]; [by left|].
        destruct k as [|k]; simpl in Hk.
        -- injection Hk as <-. by rewrite Hc in Hf.
        -- right. exists k, f. repeat split; try done; lia.
Qed.

Lemma fieldsLoop_fieldLines g obj extended st : ∀ i fields used σ,
  (∀ k f, st !! k = Some f → (i + k ∈ extended ↔ isExtended f)) →
  fieldsLoop g obj extended i st fields used σ =
  fieldLines g obj (filter (λ f, ¬ isExtended f) st) fields used σ.
Proof.
  induction st as [|field st IH]; intros i fields used σ Hext; simpl; [done|].
  rewrite filter_cons.
  pose proof (Hext 0 field eq_refl) as H0. replace (i + 0) with i in H0 by lia.
  assert (∀ k f, st !! k = Some f → (S i + k ∈ extended ↔ isExtended f)) as Hext'.
  { intros k f Hk. rewrite <-(Hext (S k) f Hk). by replace (i + S k) with (S i + k) by lia. }
  case_bool_decide as Hi.
  - rewrite decide_False by tauto. by apply IH.
  - rewrite decide_True by tauto. simpl. unfold bind.
    destruct (fieldLine g obj field fields used σ) as [[r σ1]| |]; [|done..]. by apply IH.
Qed.

Lemma paramsLoop_Ok objectName used params : ∀ generics σ r σ',
  paramsLoop objectName used params generics σ = Ok (r, σ') →
  σ' = σ ∧
  r = generics ++ ((λ p, types.tp_String p +:+ " extends " +:+
                         default "" (used !! types.tp_String p)) <$> params) ∧
  Forall (λ p, is_Some (used !! types.tp_String p)) params.
Proof.
  induction params as [|param params IH]; intros generics σ r σ'; simpl.
  - intros [<- <-]%ret_Ok. by rewrite app_nil_r.
  - destruct (used !! types.tp_String param) as [c|] eqn:Hc; [|done].
    intros (-> & -> & ?)%IH. repeat split.
    + by rewrite <-app_assoc.
    + constructor; [by rewrite Hc|done].
Qed.

Lemma paramsLoop_missing objectName used params :
  (∃ p, p ∈ params ∧ used !! types.tp_String p = None) →
  ∃ before p0 after,
    params = before ++ p0 :: after ∧
    Forall (λ q, is_Some (used !! types.tp_String q)) before ∧
    used !! types.tp_String p0 = None ∧
    ∀ generics σ,
      paramsLoop objectName used params generics σ =
      Err (missingParam (types.tp_String p0) objectName).
Proof.
  induction params as [|param params IH]; intros (p & Hp & Hnone).
  - by apply elem_of_nil in Hp.
  - destruct (used !! types.tp_String param) as [c|] eqn:Hc.
    + apply elem_of_cons in Hp as [->|Hp]; [congruence|].
      destruct IH as (before & p0 & after & -> & ? & ? & Herr); [eauto|].
      exists (param :: before), p0, after. repeat split; [|done|].
      * constructor; [by rewrite Hc|done].
      * intros generics σ. simpl. rewrite Hc. apply Herr.
    + exists [], param, params. repeat split; [done..|].
      intros generics σ. simpl. by rewrite Hc.
Qed.

(** [buildStruct] is the field loop over the fields that are not
    extended, followed by the reconciliation of the generic parameters
    and the template. *)
Lemma buildStruct_unfold g obj st σ :
  buildStruct g obj st σ =
  (r <- fieldLines g obj (filter (λ f, ¬ isExtended f) st) [] ∅ ;;
   match obj with
   | types.OTypeName _ (Some (types.TNamed n _ _)) =>
       generics <- paramsLoop (types.obj_Name (types.info obj)) r.2 (types.n_TypeParams n) [] ;;
       ret (structTemplate
              {| tpl.PosLine := posLine (types.info obj);
                 tpl.Name := objName (types.obj_Pkg (types.info obj))
                                     (types.obj_Name (types.info obj));
                 tpl.Fields := r.1;
                 tpl.Generics := generics;
                 tpl.Extends :=
                   strings.Join (types.var_Name ∘ types.f_Var <$> filter (λ f, isExtended f) st) ", ";
                 tpl.AboveLine := "" |})
   | types.OTypeName _ (Some ty) =>
       fail ("generic param " +:+ Quote (types.obj_Name (types.info obj)) +:+ " unexpected type " +:+
             Quote (types.TypeString ty))
   | types.OTypeName _ None => panic "runtime error: invalid memory address or nil pointer dereference"
   | _ => fail ("generic param ordering undefined on " +:+ Quote (types.obj_Name (types.info obj)))
   end) σ.
Proof.
  unfold buildStruct.
  destruct (extendsLoop_spec st 0 [] ∅) as [H1 H2].
  destruct (extendsLoop 0 st [] ∅) as [extends extended]. simpl in H1, H2.
  unfold bind at 1 3.
  rewrite fieldsLoop_fieldLines.
  2:{ intros k f Hk. simpl. split.
      - intros [?|(k' & f' & Hkk & Hk' & ?)]%H2; [set_solver|]. simpl in Hkk. by simplify_eq.
      - intros ?. apply H2. right. exists k, f. by repeat split. }
  destruct (fieldLines _ _ _ _ _) as [[[fields used] σ1]| |]; [|done..].
  simpl. rewrite H1.
  assert ((if bool_decide (types.var_Name ∘ types.f_Var <$> filter (λ f, isExtended f) st ≠ [])
           then strings.Join (types.var_Name ∘ types.f_Var <$> filter (λ f, isExtended f) st) ", "
           else "") =
          strings.Join (types.var_Name ∘ types.f_Var <$> filter (λ f, isExtended f) st) ", ") as ->.
  { case_bool_decide as Hn; [done|]. by rewrite Hn. }
  done.
Qed.

Lemma gatherGenerics_lookup kvs : ∀ used p c,
  gatherGenerics used kvs !! p = Some c → used !! p = Some c ∨ (p, c) ∈ kvs.
Proof.
  induction kvs as [|[name constraint] kvs IH]; intros used p c; simpl; [auto|].
  destruct (used !! name) eqn:Hn.
  - intros [?|?]%IH; [by left|right; by right].
  - intros [Hl|?]%IH; [|right; by right].
    destruct (decide (name = p)) as [->|Hne].
    + rewrite lookup_insert_eq in Hl. injection Hl as ->. right. by left.
    + rewrite lookup_insert_ne in Hl by done. by left.
Qed.

Lemma gatherGenerics_mono kvs : ∀ used p c,
  used !! p = Some c → gatherGenerics used kvs !! p = Some c.
Proof.
  induction kvs as [|[name constraint] kvs IH]; intros used p c Hp; simpl; [done|].
  destruct (used !! name) eqn:Hn; [by apply IH|].
  apply IH. rewrite lookup_insert_ne; [done|]. congruence.
Qed.

(** What one iteration of the field loop does to the lines and to the
    bindings gathered so far. *)
Lemma fieldLine_Ok g obj field fields used σ fields' used' σ' :
  fieldLine g obj field fields used σ = Ok ((fields', used'), σ') →
  fields `prefix_of` fields' ∧
  (isListed field →
     ∃ optional valueType,
       (indent +:+ "readonly " +:+ jsonNameOf field +:+ optional +:+ ": " +:+ valueType) ∈ fields') ∧
  (∀ p c, used' !! p = Some c →
     used !! p = Some c ∨
     ∃ ts σb gt, typescriptType g (types.f_Type field) σ = Ok (ts, σb) ∧
       GenericValue ts ≠ "" ∧ GenericTypes ts = Some gt ∧ gt !! p = Some c) ∧
  (∀ p c, used !! p = Some c → used' !! p = Some c) ∧
  (∀ p c, used' !! p = Some c → used !! p = Some c ∨ bindsParam g σ field p).
Proof.
  unfold fieldLine, bindsParam, isListed, fieldTags.
  destruct (structtag_Parse (types.f_Tag field)) as [tags|] eqn:Hparse; [|done].
  destruct (types.var_Exported _); simpl.
  2:{ intros [[= <- <-] <-]%ret_Ok. repeat split; [done|done|auto..]. }
  destruct tags as [tags|]; [|done]. simpl.
  case_bool_decide as Hj; simpl.
  { intros [[= <- <-] <-]%ret_Ok. repeat split; [done|done|auto..]. }
  intros (tsType & σ1 & Hts%wrap_Ok & Hrest)%bind_Ok.
  case_bool_decide as Ht; simpl in *.
  { apply ret_Ok in Hrest as [[= <- <-] <-]. repeat split; [done|done|auto..]. }
  apply ret_Ok in Hrest as [[= <- <-] <-].
  assert (∀ p c,
    (if bool_decide (GenericValue (tagged (tagsGet tags "typescript") tsType) ≠ "")
     then gatherGenerics used (goRange (GenericTypes (tagged (tagsGet tags "typescript") tsType)))
     else used) !! p = Some c →
    used !! p = Some c ∨
    GenericValue (tagged (tagsGet tags "typescript") tsType) ≠ "" ∧
    ∃ gt, GenericTypes (tagged (tagsGet tags "typescript") tsType) = Some gt ∧
          gt !! p = Some c) as Hgathered.
  { intros p c Hp. case_bool_decide as Hgv; [|by left].
    apply gatherGenerics_lookup in Hp as [?|Hin]; [by left|]. right. split; [done|].
    destruct (GenericTypes (tagged (tagsGet tags "typescript") tsType)) as [gt|] eqn:Hg;
      simpl in Hin; [|by apply elem_of_nil in Hin].
    rewrite mapRange_perm in Hin. apply elem_of_map_to_list in Hin. eauto. }
  repeat split.
  - etrans; [|apply prefix_app_r; reflexivity].
    destruct (bool_decide (AboveTypeLine _ ≠ "")); [by apply prefix_app_r|done].
  - intros _. eexists _, _. apply elem_of_app. right. apply list_elem_of_singleton.
    unfold jsonNameOf, fieldTags. rewrite Hparse. reflexivity.
  - intros p c [?|(Hgv & gt & Hgt & Hp)]%Hgathered; [by left|]. right.
    revert Hgv Hgt. unfold tagged.
    destruct (tagsGet tags "typescript") as [t|]; [|eauto 10].
    repeat case_bool_decide; simpl; try done; eauto 10.
  - intros p c Hp. destruct (bool_decide _); [by apply gatherGenerics_mono|done].
  - intros p c [?|(Hgv & gt & Hgt & Hp)]%Hgathered; [by left|]. right.
    exists tags, tsType, σ1, gt, c. simpl.
    repeat split; try done.
Qed.

Lemma fieldLines_Ok g obj st : ∀ fields used σ fields' used' σ',
  fieldLines g obj st fields used σ = Ok ((fields', used'), σ') →
  fields `prefix_of` fields' ∧
  (∀ field, field ∈ st → isListed field →
     ∃ optional valueType,
       (indent +:+ "readonly " +:+ jsonNameOf field +:+ optional +:+ ": " +:+ valueType) ∈ fields') ∧
  (∀ p c, used' !! p = Some c →
     used !! p = Some c ∨
     ∃ field σa ts σb gt, field ∈ st ∧
       typescriptType g (types.f_Type field) σa = Ok (ts, σb) ∧
       GenericValue ts ≠ "" ∧ GenericTypes ts = Some gt ∧ gt !! p = Some c).
Proof.
  induction st as [|field st IH]; intros fields used σ fields' used' σ'; simpl.
  - intros [[= <- <-] <-]%ret_Ok. repeat split; [done| |auto].
    intros ? []%elem_of_nil.
  - intros ([fields1 used1] & σ1 & H1 & Hrest)%bind_Ok. simpl in Hrest.
    apply fieldLine_Ok in H1 as (Hpre1 & Hline1 & Hused1 & _).
    apply IH in Hrest as (Hpre & Hline & Hused).
    repeat split.
    + by etrans.
    + intros f [->|Hf]%elem_of_cons Hl; [|by apply Hline].
      destruct (Hline1 Hl) as (optional & valueType & Hin).
      exists optional, valueType. destruct Hpre as [more ->].
      apply elem_of_app. by left.
    + intros p c [Hp|(f & σa & ts & σb & gt & ? & ?)]%Hused.
      * apply Hused1 in Hp as [?|(ts & σb & gt & ?)]; [by left|].
        right. exists field, σ, ts, σb, gt. split; [by left|done].
      * right. exists f, σa, ts, σb, gt. split; [by right|done].
Qed.

(** C6. When [buildStruct] emits a record, the generic parameter list of
    the interface, [<G1 extends C1, ...>], names the parameters of the
    record in the order of their declaration ([TypeParams]), each with the
    constraint gathered from the fields; the order in which the fields
    bound them plays no part. *)
Theorem generics_in_declaration_order g obj st σ block σ' :
  buildStruct g obj st σ = Ok (block, σ') →
  ∃ o n targs underlying fields used,
    obj = types.OTypeName o (Some (types.TNamed n targs underlying)) ∧
    fieldLines g obj (filter (λ f, ¬ isExtended f) st) [] ∅ σ = Ok ((fields, used), σ') ∧
    Forall (λ p, is_Some (used !! types.tp_String p)) (types.n_TypeParams n) ∧
    block =
    structTemplate
      {| tpl.PosLine := posLine o;
         tpl.Name := objName (types.obj_Pkg o) (types.obj_Name o);
         tpl.Fields := fields;
         tpl.Generics :=
           (λ p, types.tp_String p +:+ " extends " +:+ default "" (used !! types.tp_String p))
             <$> types.n_TypeParams n;
         tpl.Extends :=
           strings.Join (types.var_Name ∘ types.f_Var <$> filter (λ f, isExtended f) st) ", ";
         tpl.AboveLine := "" |}.
Proof.
  rewrite buildStruct_unfold.
  intros ([fields used] & σ1 & Hfields & Hrest)%bind_Ok.
  destruct obj as [o [ty|]| | | |]; try done.
  destruct ty as [| | | | |n targs underlying| | | | | |]; try done.
  apply bind_Ok in Hrest as (generics & σ2 & (-> & -> & Hall)%paramsLoop_Ok & [<- <-]%ret_Ok).
  exists o, n, targs, underlying, fields, used. by repeat split.
Qed.


(** ** Enums *)

Lemma HasSuffix_s name :
  strings.HasSuffix name "s" = bool_decide (lastByte name = Some "s"%char).
Proof.
  unfold strings.HasSuffix. simpl String.length.
  induction name as [|a [|b rest] IH].
  - done.
  - simpl. apply bool_decide_ext. split; [by intros [= ->]|by intros [= ->]].
  - change (lastByte (String a (String b rest))) with (lastByte (String b rest)).
    rewrite <-IH. simpl String.length.
    rewrite !bool_decide_eq_true_2 by lia. simpl.
    by replace (String.length rest - 0) with (String.length rest) by lia.
Qed.

(** The code block of an enum is its two lines, the constant named by
    the pluralization rule. *)
Lemma enumCodeBlock_lines posLine0 name consts :
  ∃ union values,
    union ≠ "" ∧
    (consts = [] → union = "never" ∧ values = "") ∧
    enumCodeBlock posLine0 name consts =
    posLine0 +:+ "export type " +:+ name +:+ " = " +:+ union +:+ strings.nl +:+
    "export const " +:+ pluralOf name +:+ ": " +:+ name +:+ "[] = [" +:+ values +:+ "]" +:+
    strings.nl.
Proof.
  unfold enumCodeBlock, pluralOf. rewrite HasSuffix_s.
  eexists _, _. split; [|split; [|reflexivity]].
  - by case_bool_decide.
  - by intros ->.
Qed.

Lemma generateAll_Ok g σ ts σ' :
  generateAll g σ = Ok (ts, σ') ↔
  ∃ gen m gen',
    gens σ !! g = Some gen ∧
    generateNames g (pkg_Scope (pkg gen)) (types.Names (pkg_Scope (pkg gen)))
                  (initialMaps gen) σ = Ok (m, σ') ∧
    gens σ' !! g = Some gen' ∧
    ts = {| Types := maps.Structs m;
            Enums := enumsLoop (maps.EnumConsts m) (mapRange (maps.Enums m)) ∅;
            Generics := addBuiltins (mapRange (builtins gen')) (maps.Generics m) |}.
Proof.
  unfold generateAll. rewrite bind_Ok. split.
  - intros (gen & σ1 & [Hg ->]%deref_Ok & (m & σ2 & Hm & Hrest)%bind_Ok).
    apply bind_Ok in Hrest as (gen' & σ3 & [Hg' ->]%deref_Ok & [<- <-]%ret_Ok).
    by exists gen, m, gen'.
  - intros (gen & m & gen' & Hg & Hm & Hg' & ->).
    exists gen, σ. split; [by apply deref_Ok|].
    apply bind_Ok. exists m, σ'. split; [done|].
    apply bind_Ok. exists gen', σ'. split; [by apply deref_Ok|done].
Qed.

(** C9. The companion array constant of every emitted enum is named by
    pluralizing the type name: [es] is appended when the name ends in
    [s], and [s] otherwise. *)
Theorem enum_constant_is_pluralized g σ ts σ' name block :
  generateAll g σ = Ok (ts, σ') →
  Enums ts !! name = Some block →
  ∃ posLine0 union values,
    block =
    posLine0 +:+ "export type " +:+ name +:+ " = " +:+ union +:+ strings.nl +:+
    "export const " +:+ pluralOf name +:+ ": " +:+ name +:+ "[] = [" +:+ values +:+ "]" +:+
    strings.nl.
Proof.
  intros (gen & m & gen' & _ & _ & _ & ->)%generateAll_Ok. simpl.
  rewrite enumsLoop_mapRange. destruct (maps.Enums m !! name) as [v|]; [|done].
  simpl. intros [= <-].
  destruct (enumCodeBlock_lines (posLine (types.info v)) name
              (default [] (maps.EnumConsts m !! name))) as (union & values & _ & _ & ->).
  by eexists _, _, _.
Qed.

(** C10. An enum without constants does not make generation fail: once
    the declarations are classified, with the enum registered and no
    constant gathered for it, [generateAll] returns, and the block of the
    enum is the type [never] and an empty companion array. *)
Theorem empty_enum_is_never g σ gen m σ1 name v :
  gens σ !! g = Some gen →
  generateNames g (pkg_Scope (pkg gen)) (types.Names (pkg_Scope (pkg gen)))
                (initialMaps gen) σ = Ok (m, σ1) →
  maps.Enums m !! name = Some v →
  default [] (maps.EnumConsts m !! name) = [] →
  ∃ ts,
    generateAll g σ = Ok (ts, σ1) ∧
    Enums ts !! name =
    Some (posLine (types.info v) +:+
          "export type " +:+ name +:+ " = never" +:+ strings.nl +:+
          "export const " +:+ pluralOf name +:+ ": " +:+ name +:+ "[] = []" +:+ strings.nl).
Proof.
  intros Hg Hm Hv Hconsts.
  destruct (generateNames_steady g _ _ _ _ _ _ Hm) as [HF _].
  destruct (HF g gen Hg) as (gen' & Hg' & _).
  eexists. split.
  - apply generateAll_Ok. by exists gen, m, gen'.
  - simpl. rewrite enumsLoop_mapRange, Hv. simpl. rewrite Hconsts.
    destruct (enumCodeBlock_lines (posLine (types.info v)) name [])
      as (union & values & _ & Hnil & ->).
    destruct Hnil as [-> ->]; [done|]. done.
Qed.

(** ** The type mapper on basic and map types *)

(** C3. The code at the single-byte kind: [byte] and [uint8] are numeric,
    so the first case of the switch takes them and the mapper returns
    [number] without a comment; the case that would add the comment is
    never reached. *)
Theorem byte_has_no_comment g σ :
  typescriptType g (types.TBasic types.universeByte) σ = Ok (tsValue "number", σ) ∧
  typescriptType g (types.TBasic (types.Typ types.Uint8)) σ = Ok (tsValue "number", σ) ∧
  AboveTypeLine (tsValue "number") = "" ∧
  ∀ bs ts σ', bs ∈ types.basics →
    typescriptType g (types.TBasic bs) σ = Ok (ts, σ') →
    AboveTypeLine ts = "".
Proof.
  repeat split.
  intros bs ts σ' Hbs. unfold types.basics in Hbs. simpl in Hbs.
  repeat (apply elem_of_cons in Hbs as [->|Hbs]); [..|by apply elem_of_nil in Hbs].
  all: by intros [= <- <-].
Qed.

Lemma mergeGenerics_Some kvs : ∀ m σ,
  mergeGenerics (Some m) kvs σ = Ok (Some (foldl (λ acc kv, <[kv.1 := kv.2]> acc) m kvs), σ).
Proof.
  induction kvs as [|[k v] kvs IH]; intros m σ; simpl; [done|].
  unfold bind. simpl. apply IH.
Qed.

Lemma foldl_insert_union (l : list (string * string)) : ∀ m : gmap string string,
  NoDup l.*1 →
  foldl (λ acc kv, <[kv.1 := kv.2]> acc) m l = list_to_map l ∪ m.
Proof.
  induction l as [|[k v] l IH]; intros m Hnd; simpl.
  - by rewrite (left_id_L ∅ (∪)).
  - apply NoDup_cons in Hnd as [Hk Hnd]. rewrite IH by done.
    rewrite <-insert_union_l. symmetry. apply insert_union_r.
    by apply not_elem_of_list_to_map_1.
Qed.

Lemma typescriptType_TMap g key elem :
  typescriptType g (types.TMap key elem) =
  (keyType <- wrap "map key: " (typescriptType g key) ;;
   valueType <- wrap "map key: " (typescriptType g elem) ;;
   let aboveTypeLine := AboveTypeLine keyType in
   let aboveTypeLine :=
     if bool_decide (aboveTypeLine ≠ "") && bool_decide (AboveTypeLine valueType ≠ "")
     then aboveTypeLine +:+ strings.nl else aboveTypeLine in
   let aboveTypeLine := aboveTypeLine +:+ AboveTypeLine valueType in
   mergeGens <- mergeGenerics (GenericTypes keyType) (goRange (GenericTypes valueType)) ;;
   ret {| ValueType := "Record<" +:+ ValueType keyType +:+ ", " +:+ ValueType valueType +:+ ">";
          AboveTypeLine := aboveTypeLine;
          GenericTypes := mergeGens;
          GenericValue := "";
          Optional := false |}).
Proof. reflexivity. Qed.

(** The map case of the mapper, given the mapped key and element. *)
Lemma typescriptType_map g key elem σ keyType σ1 valueType σ2 :
  typescriptType g key σ = Ok (keyType, σ1) →
  typescriptType g elem σ1 = Ok (valueType, σ2) →
  typescriptType g (types.TMap key elem) σ =
  if bool_decide (GenericTypes keyType = None ∧ goRange (GenericTypes valueType) ≠ [])
  then Panic "assignment to entry in nil map"
  else Ok ({| ValueType := "Record<" +:+ ValueType keyType +:+ ", " +:+ ValueType valueType +:+ ">";
              AboveTypeLine :=
                (if bool_decide (AboveTypeLine keyType ≠ "") &&
                    bool_decide (AboveTypeLine valueType ≠ "")
                 then AboveTypeLine keyType +:+ strings.nl else AboveTypeLine keyType)
                +:+ AboveTypeLine valueType;
              GenericTypes :=
                (λ kg, default ∅ (GenericTypes valueType) ∪ kg) <$> GenericTypes keyType;
              GenericValue := "";
              Optional := false |}, σ2).
Proof.
  intros Hk He. case_bool_decide as Hc.
  all: rewrite typescriptType_TMap; unfold bind at 1; rewrite (proj2 (wrap_Ok _ _ _ _) Hk).
  all: unfold bind at 1; rewrite (proj2 (wrap_Ok _ _ _ _) He); unfold bind; cbv zeta.
  - destruct Hc as [-> Hr].
    destruct (goRange (GenericTypes valueType)) as [|[k v] kvs]; done.
  - destruct (GenericTypes keyType) as [kg|] eqn:Hkg.
    + rewrite mergeGenerics_Some. unfold ret. simpl. do 3 f_equal.
      destruct (GenericTypes valueType) as [vg|]; simpl.
      * rewrite foldl_insert_union by apply mapRange_NoDup.
        by rewrite list_to_map_mapRange.
      * by rewrite (left_id_L ∅ (∪)).
    + destruct (goRange (GenericTypes valueType)) as [|[k v] kvs] eqn:Hr; [done|].
      by destruct Hc.
Qed.

End Properties.

(** ** Two runs that differ in the order of [range] only *)

Lemma bind_ext {A B} (m1 m2 : M A) (k1 k2 : A → M B) σ :
  (∀ σ, m1 σ = m2 σ) → (∀ a σ, k1 a σ = k2 a σ) → bind m1 k1 σ = bind m2 k2 σ.
Proof.
  intros Hm Hk. unfold bind. rewrite Hm. destruct (m2 σ) as [[a σ1]| |]; [apply Hk|done..].
Qed.

Lemma wrap_ext {A} prefix (m1 m2 : M A) σ :
  (∀ σ, m1 σ = m2 σ) → wrap prefix m1 σ = wrap prefix m2 σ.
Proof. intros Hm. unfold wrap. by rewrite Hm. Qed.

Lemma typeArgs_ext {L : Library} mapper1 mapper2 objName0 args :
  (∀ a, a ∈ args → ∀ σ, mapper1 a σ = mapper2 a σ) →
  ∀ cs ns ts σ,
    typeArgs mapper1 objName0 args cs ns ts σ = typeArgs mapper2 objName0 args cs ns ts σ.
Proof.
  induction args as [|a args IH]; intros Hm cs ns ts σ; simpl; [done|].
  apply bind_ext.
  - intros σ1. apply wrap_ext. apply Hm. by left.
  - intros genType σ1. destruct a; apply IH; intros; apply Hm; by right.
Qed.

Lemma namedReference_ext {L : Library} mapper1 mapper2 g n targs underlying :
  (∀ σ, mapper1 underlying σ = mapper2 underlying σ) →
  (∀ a, a ∈ targs → ∀ σ, mapper1 a σ = mapper2 a σ) →
  ∀ σ, namedReference mapper1 g n targs underlying σ =
       namedReference mapper2 g n targs underlying σ.
Proof.
  intros Hu Ha σ. unfold namedReference.
  apply bind_ext; [done|]. intros objName0 σ1.
  apply bind_ext; [done|]. intros found σ2.
  destruct found as [[[obj objGen] local]|].
  - apply bind_ext; [done|]. intros gen σ3.
    apply bind_ext; [done|]. intros u1 σ4.
    apply bind_ext; [done|]. intros u2 σ5.
    destruct targs as [|a targs']; [done|].
    apply bind_ext; [|done]. intros σ6. by apply typeArgs_ext.
  - destruct underlying; try done.
    all: apply bind_ext; [|done]; intros σ3; by apply wrap_ext.
Qed.

Lemma namedType_ext {L : Library} mapper1 mapper2 g n targs underlying :
  (∀ σ, mapper1 underlying σ = mapper2 underlying σ) →
  (∀ a, a ∈ targs → ∀ σ, mapper1 a σ = mapper2 a σ) →
  (∀ f fs, underlying = types.TStruct (f :: fs) →
     ∀ σ, mapper1 (types.f_Type f) σ = mapper2 (types.f_Type f) σ) →
  ∀ σ, namedType mapper1 g n targs underlying σ = namedType mapper2 g n targs underlying σ.
Proof.
  intros Hu Ha Hf σ. unfold namedType.
  destruct (assoc _ _); [done|].
  destruct (serpentStruct _); [|by apply namedReference_ext].
  destruct underlying as [|[|f fs]| | | | | | | | | |];
    try by apply namedReference_ext.
  - done.
  - by eapply Hf.
Qed.

Section Determinism.
Context {L : Library} (O1 O2 : MapOrder).

Lemma goRange_order (m : GoMap) :
  goRange (O := O1) m ≡ₚ goRange (O := O2) m ∧ NoDup (goRange (O := O1) m).*1.
Proof.
  destruct m as [m|]; simpl; [|split; [done|constructor]].
  split; [by rewrite !mapRange_perm|apply mapRange_NoDup].
Qed.

Lemma mergeGenerics_order m l1 l2 σ :
  l1 ≡ₚ l2 → NoDup l1.*1 → mergeGenerics m l1 σ = mergeGenerics m l2 σ.
Proof.
  intros Hp Hnd. destruct m as [m|].
  - rewrite !mergeGenerics_Some, !foldl_insert_union by by rewrite <-?Hp.
    by rewrite (list_to_map_proper l1 l2).
  - destruct l1 as [|[k1 v1] l1], l2 as [|[k2 v2] l2]; try done.
    + by apply Permutation_nil_cons in Hp.
    + symmetry in Hp. by apply Permutation_nil_cons in Hp.
Qed.

Lemma typescriptType_order_size g n : ∀ ty, tsize ty < n →
  ∀ σ, typescriptType (O := O1) g ty σ = typescriptType (O := O2) g ty σ.
Proof.
  induction n as [|n IH]; intros ty Hsz σ; [lia|].
  destruct ty; try done.
  - rewrite !typescriptType_TMap. simpl in Hsz.
    apply bind_ext; [intros σ1; apply wrap_ext, IH; lia|]. intros keyType σ1.
    apply bind_ext; [intros σ2; apply wrap_ext, IH; lia|]. intros valueType σ2.
    apply bind_ext; [|done]. intros σ3.
    destruct (goRange_order (GenericTypes valueType)). by apply mergeGenerics_order.
  - simpl in *. unfold arrayType. case_bool_decide; [done|].
    apply bind_ext; [|done]. intros σ1. apply wrap_ext, IH. lia.
  - simpl in *. unfold arrayType. case_bool_decide; [done|].
    apply bind_ext; [|done]. intros σ1. apply wrap_ext, IH. lia.
  - simpl in *. apply namedType_ext.
    + apply IH. lia.
    + intros a Ha%tsize_elem. apply IH. lia.
    + intros f fs ->. apply IH. simpl in Hsz. lia.
  - simpl in *. apply bind_ext; [|done]. intros σ1. apply wrap_ext, IH. lia.
Qed.

Lemma typescriptType_order g ty σ :
  typescriptType (O := O1) g ty σ = typescriptType (O := O2) g ty σ.
Proof. apply (typescriptType_order_size g (S (tsize ty))). lia. Qed.

Lemma unionTerms_order g us on terms : ∀ allTypes optional σ,
  unionTerms (O := O1) g us on terms allTypes optional σ =
  unionTerms (O := O2) g us on terms allTypes optional σ.
Proof.
  induction terms as [|[tilde ty] terms IH]; intros allTypes optional σ; simpl; [done|].
  apply bind_ext; [|intros; apply IH].
  intros σ1. apply wrap_ext. intros σ2. apply typescriptType_order.
Qed.

Lemma buildUnion_order g obj st σ :
  buildUnion (O := O1) g obj st σ = buildUnion (O := O2) g obj st σ.
Proof. unfold buildUnion. apply bind_ext; [apply unionTerms_order|done]. Qed.

Lemma fieldLine_order g obj field fields used σ :
  fieldLine (O := O1) g obj field fields used σ = fieldLine (O := O2) g obj field fields used σ.
Proof.
  unfold fieldLine. destruct (structtag_Parse _) as [tags|]; [|done].
  destruct (negb _); [done|]. destruct tags as [tags|]; [|done].
  case_bool_decide; [done|].
  apply bind_ext.
  - intros σ1. apply wrap_ext. intros σ2. apply typescriptType_order.
  - intros tsType σ1. case_bool_decide; [done|].
    by rewrite !gatherGenerics_goRange.
Qed.

Lemma fieldsLoop_order g obj extended st : ∀ i fields used σ,
  fieldsLoop (O := O1) g obj extended i st fields used σ =
  fieldsLoop (O := O2) g obj extended i st fields used σ.
Proof.
  induction st as [|field st IH]; intros i fields used σ; simpl; [done|].
  case_bool_decide; [apply IH|].
  apply bind_ext; [intros; apply fieldLine_order|intros; apply IH].
Qed.

Lemma buildStruct_order g obj st σ :
  buildStruct (O := O1) g obj st σ = buildStruct (O := O2) g obj st σ.
Proof.
  unfold buildStruct. destruct (extendsLoop _ _ _ _) as [extends extended].
  apply bind_ext; [intros; apply fieldsLoop_order|done].
Qed.

Lemma generateOne_order g m obj σ :
  generateOne (O := O1) g m obj σ = generateOne (O := O2) g m obj σ.
Proof.
  unfold generateOne. destruct (types.Type' obj) as [ty|]; [|done].
  case_bool_decide; [done|].
  apply bind_ext; [done|]. intros gen σ1.
  destruct (_ && _); [done|].
  destruct obj as [o ty'|o ty'|o ty' val|o ty'|o ty']; try done.
  destruct ty as [| | | | |n targs underNamed| | | | | |]; try done.
  destruct underNamed as [| | | | | | |empty embeddeds| | | |]; try done.
  - apply bind_ext; [|done]. intros σ2. apply wrap_ext. intros σ3. apply buildStruct_order.
  - apply bind_ext; [|done]. intros σ2. apply wrap_ext. intros σ3. apply typescriptType_order.
  - apply bind_ext; [|done]. intros σ2. apply wrap_ext. intros σ3. apply typescriptType_order.
  - apply bind_ext; [|done]. intros σ2. apply wrap_ext. intros σ3. apply typescriptType_order.
  - destruct embeddeds as [|embedded [|]]; try done.
    apply bind_ext; [|done]. intros σ2. apply wrap_ext. intros σ3. apply buildUnion_order.
Qed.

Lemma generateNames_order g scope names : ∀ m σ,
  generateNames (O := O1) g scope names m σ = generateNames (O := O2) g scope names m σ.
Proof.
  induction names as [|n names IH]; intros m σ; simpl; [done|].
  apply bind_ext; [|intros; apply IH]. intros σ1.
  destruct (types.Lookup _ _); [|done]. apply wrap_ext. intros σ2. apply generateOne_order.
Qed.

Lemma generateAll_order g σ :
  generateAll (O := O1) g σ = generateAll (O := O2) g σ.
Proof.
  unfold generateAll. apply bind_ext; [done|]. intros gen σ1.
  apply bind_ext; [intros; apply generateNames_order|]. intros m σ2.
  apply bind_ext; [done|]. intros gen' σ3.
  assert (enumsLoop (maps.EnumConsts m) (mapRange (MapOrder := O1) (maps.Enums m)) ∅ =
          enumsLoop (maps.EnumConsts m) (mapRange (MapOrder := O2) (maps.Enums m)) ∅) as ->
    by (apply map_eq; intros i; by rewrite !enumsLoop_mapRange).
  assert (addBuiltins (mapRange (MapOrder := O1) (builtins gen')) (maps.Generics m) =
          addBuiltins (mapRange (MapOrder := O2) (builtins gen')) (maps.Generics m)) as ->
    by (apply map_eq; intros i; by rewrite !addBuiltins_mapRange).
  done.
Qed.

Lemma TypescriptTypes_String_order t :
  TypescriptTypes_String (O := O1) t = TypescriptTypes_String (O := O2) t.
Proof.
  unfold TypescriptTypes_String, String_ranged.
  rewrite (sort_Strings_order (mapRange (Types t)).*1 (mapRange (MapOrder := O2) (Types t)).*1)
    by by rewrite !mapRange_perm.
  rewrite (sort_Strings_order (mapRange (Enums t)).*1 (mapRange (MapOrder := O2) (Enums t)).*1)
    by by rewrite !mapRange_perm.
  by rewrite (sort_Strings_order (mapRange (Generics t)).*1
                (mapRange (MapOrder := O2) (Generics t)).*1)
    by by rewrite !mapRange_perm.
Qed.

Lemma regenerate_order fuel ext : ∀ σ,
  regenerate (O := O1) fuel ext σ = regenerate (O := O2) fuel ext σ.
Proof.
  induction fuel as [|fuel IH]; intros σ; simpl; [done|].
  apply bind_ext; [done|]. intros e σ1.
  apply bind_ext; [intros σ2; apply wrap_ext; intros; apply generateAll_order|]. intros ts σ2.
  apply bind_ext; [done|]. intros e' σ3. case_bool_decide; [apply IH|done].
Qed.

Lemma Generate_order directory p exts σ :
  Generate (O := O1) directory p exts σ = Generate (O := O2) directory p exts σ.
Proof.
  unfold Generate, GenerateFromDirectory.
  apply bind_ext; [|intros gen σ1; apply bind_ext; [done|]; intros g σ2;
                    destruct (cachedResult g); [|done]; by rewrite TypescriptTypes_String_order].
  intros σ1. apply bind_ext; [done|]. intros g σ2.
  apply bind_ext; [|done]. intros σ3. apply wrap_ext. intros σ4. apply generateAll_order.
Qed.

Lemma mainBases_order dirs external : ∀ σ,
  mainBases (O := O1) dirs external σ = mainBases (O := O2) dirs external σ.
Proof.
  induction dirs as [|[baseDir p] dirs IH]; intros σ; simpl; [done|].
  apply bind_ext; [done|]. intros u σ1.
  apply bind_ext; [intros; apply Generate_order|]. intros output σ2.
  apply bind_ext; [done|]. intros u' σ3. apply IH.
Qed.

Lemma mainRegenerate_order fuel external : ∀ σ,
  mainRegenerate (O := O1) fuel external σ = mainRegenerate (O := O2) fuel external σ.
Proof.
  induction external as [|[dir ext] external IH]; intros σ; simpl; [done|].
  apply bind_ext; [intros; apply regenerate_order|]. intros r σ1.
  destruct r as [ts|]; [|done].
  apply bind_ext; [done|]. intros u σ2.
  rewrite TypescriptTypes_String_order.
  apply bind_ext; [done|]. intros u' σ3. apply IH.
Qed.

Lemma main_order fuel extPkgs basePkgs σ :
  main (O := O1) fuel extPkgs basePkgs σ = main (O := O2) fuel extPkgs basePkgs σ.
Proof.
  unfold main. apply bind_ext; [done|]. intros external σ1.
  apply bind_ext; [done|]. intros u σ2.
  apply bind_ext; [intros; apply mainBases_order|intros; apply mainRegenerate_order].
Qed.

(** C8. Generation is deterministic where Go is not.  Two runs of the
    generator that differ only in the order in which every [range] over a
    map enumerates its keys behave alike on every input: [main] ends in
    the same way (returns, fails or panics) with the same text written
    to the standard output and the same generators, and so does
    [Generate] on one directory.  The text of a result is its records,
    then its enums, then its generics, each group in lexicographic order
    of declaration name, without the trailing line feeds: a function of
    the contents of the three groups only. *)
Theorem generation_is_deterministic :
  (∀ fuel extPkgs basePkgs σ,
     main (O := O1) fuel extPkgs basePkgs σ = main (O := O2) fuel extPkgs basePkgs σ) ∧
  (∀ directory p exts σ,
     Generate (O := O1) directory p exts σ = Generate (O := O2) directory p exts σ) ∧
  ∀ t : TypescriptTypes,
    ∃ sortedTypes sortedEnums sortedGenerics text,
      (Sorted String.le sortedTypes ∧ sortedTypes ≡ₚ keys (Types t)) ∧
      (Sorted String.le sortedEnums ∧ sortedEnums ≡ₚ keys (Enums t)) ∧
      (Sorted String.le sortedGenerics ∧ sortedGenerics ≡ₚ keys (Generics t)) ∧
      text = strings.TrimRight (blocksOf (Types t) sortedTypes +:+
                                blocksOf (Enums t) sortedEnums +:+
                                blocksOf (Generics t) sortedGenerics) (ascii_of_nat 10) ∧
      TypescriptTypes_String (O := O1) t = text ∧
      TypescriptTypes_String (O := O2) t = text.
Proof.
  split; [intros; apply main_order|]. split; [intros; apply Generate_order|].
  intros t. destruct (String_ranged_sorted t) as (s1 & s2 & s3 & H1 & H2 & H3 & Heq).
  exists s1, s2, s3. eexists. do 3 (split; [done|]). split; [done|].
  assert (∀ O : MapOrder, (mapRange (MapOrder := O) (Types t)).*1 ≡ₚ keys (Types t) ∧
                          (mapRange (MapOrder := O) (Enums t)).*1 ≡ₚ keys (Enums t) ∧
                          (mapRange (MapOrder := O) (Generics t)).*1 ≡ₚ keys (Generics t))
    as Hk by (intros O; unfold keys; by rewrite !mapRange_perm).
  split; unfold TypescriptTypes_String; apply Heq; apply Hk.
Qed.

End Determinism.

(** * Further properties of the generator *)

(** ** What a generation pass keeps *)

#[global] Existing Instance frame_preorder.

(** Proof steps for goals that a computation keeps a relation. *)
Ltac keep_ret := apply keeps_ret; apply _.
Ltac keep_bind := apply keeps_bind; [apply _| |].
Ltac keep_step :=
  first [ apply keeps_fail | apply keeps_panic | keep_ret
        | apply keeps_deref; apply _ | apply keeps_wrap ].

Section Invariant.
Context {L : Library} {O : MapOrder}.
Context (R : relation State) `{!PreOrder R}.
Context (R_append : ∀ p name, keeps R (appendAllowList p name)).
Context (R_builtin : ∀ p name, keeps R (setBuiltin p name (isBuiltIn name).2)).
Context (R_print : ∀ s, keeps R (print s)).
Context (g : nat).

Lemma namedReference_keeps mapper n targs underlying :
  keeps R (mapper underlying) →
  (∀ a, a ∈ targs → keeps R (mapper a)) →
  keeps R (namedReference mapper g n targs underlying).
Proof.
  intros Hu Ha. unfold namedReference.
  keep_bind; [intros σ s σ' ->%objNameOf_Ok; reflexivity|]. intros objName0.
  keep_bind; [intros σ r σ' [-> _]%lookupNamedReference_Ok; reflexivity|]. intros found.
  destruct found as [[[obj objGen] local]|].
  - keep_bind; [keep_step|]. intros gen.
    keep_bind; [destruct (_ && _); [apply R_append|keep_ret]|]. intros _.
    keep_bind; [destruct (negb local); [apply R_append|keep_ret]|]. intros _.
    destruct targs as [|a targs']; [keep_ret|].
    keep_bind; [by apply typeArgs_keeps|]. intros [[cs ns] gts]. keep_ret.
  - destruct underlying; try keep_ret.
    all: keep_bind; [by apply keeps_wrap|]; intros ts; case_bool_decide; keep_ret.
Qed.

Lemma namedType_keeps mapper n targs underlying :
  keeps R (mapper underlying) →
  (∀ a, a ∈ targs → keeps R (mapper a)) →
  (∀ f fs, underlying = types.TStruct (f :: fs) → keeps R (mapper (types.f_Type f))) →
  keeps R (namedType mapper g n targs underlying).
Proof.
  intros Hu Ha Hf. unfold namedType.
  destruct (assoc _ _); [keep_ret|].
  destruct (serpentStruct _); [|by apply namedReference_keeps].
  destruct underlying as [|[|f fs]| | | | | | | | | |];
    try by apply namedReference_keeps.
  - keep_step.
  - by eapply Hf.
Qed.

Lemma typescriptType_keeps_size n : ∀ ty, tsize ty < n → keeps R (typescriptType g ty).
Proof.
  induction n as [|n IH]; intros ty Hsz; [lia|].
  destruct ty; simpl in *.
  - repeat case_bool_decide; keep_ret.
  - keep_ret.
  - keep_bind; [apply keeps_wrap, IH; lia|]. intros keyType.
    keep_bind; [apply keeps_wrap, IH; lia|]. intros valueType.
    keep_bind; [apply mergeGenerics_keeps; apply _|].
    intros. keep_ret.
  - apply arrayType_keeps; [apply _|]. apply IH. lia.
  - apply arrayType_keeps; [apply _|]. apply IH. lia.
  - apply namedType_keeps.
    + apply IH. lia.
    + intros a Ha%tsize_elem. apply IH. lia.
    + intros f fs ->. apply IH. simpl in Hsz. lia.
  - keep_bind; [apply keeps_wrap, IH; lia|]. intros. keep_ret.
  - destruct empty; keep_ret.
  - destruct (negb _); [keep_step|].
    keep_bind; [keep_step|]. intros gen.
    destruct (types.Lookup _ _); [keep_ret|].
    destruct (isBuiltIn _) as [include builtinString] eqn:Hb.
    destruct (negb include); [keep_ret|].
    replace builtinString with (isBuiltIn
      (strings.TrimPrefix (types.tp_Constraint tp) (types.tp_PkgPath tp +:+ "."))).2
      by by rewrite Hb.
    keep_bind; [apply R_builtin|]. intros. keep_ret.
  - keep_step.
  - keep_step.
  - keep_step.
Qed.

Lemma typescriptType_keeps ty : keeps R (typescriptType g ty).
Proof. apply (typescriptType_keeps_size (S (tsize ty))). lia. Qed.

Lemma unionTerms_keeps us on terms : ∀ allTypes optional,
  keeps R (unionTerms g us on terms allTypes optional).
Proof.
  induction terms as [|[tilde ty] terms IH]; intros allTypes optional; simpl.
  - keep_ret.
  - keep_bind; [apply keeps_wrap, typescriptType_keeps|]. intros. apply IH.
Qed.

Lemma buildUnion_keeps obj st : keeps R (buildUnion g obj st).
Proof.
  unfold buildUnion. keep_bind; [apply unionTerms_keeps|].
  intros [allTypes optional]. keep_ret.
Qed.

Lemma fieldLine_keeps obj field fields used : keeps R (fieldLine g obj field fields used).
Proof.
  unfold fieldLine. destruct (structtag_Parse _) as [tags|]; [|keep_step].
  destruct (negb _); [keep_ret|]. destruct tags as [tags|]; [|keep_step].
  case_bool_decide; [keep_ret|].
  keep_bind; [apply keeps_wrap, typescriptType_keeps|]. intros tsType.
  case_bool_decide; keep_ret.
Qed.

Lemma fieldsLoop_keeps obj extended st : ∀ i fields used,
  keeps R (fieldsLoop g obj extended i st fields used).
Proof.
  induction st as [|field st IH]; intros i fields used; simpl.
  - keep_ret.
  - case_bool_decide; [apply IH|].
    keep_bind; [apply fieldLine_keeps|]. intros. apply IH.
Qed.

Lemma paramsLoop_keeps on used params : ∀ generics,
  keeps R (paramsLoop on used params generics).
Proof.
  induction params as [|param params IH]; intros generics; simpl.
  - keep_ret.
  - destruct (used !! _); [apply IH|keep_step].
Qed.

Lemma buildStruct_keeps obj st : keeps R (buildStruct g obj st).
Proof.
  unfold buildStruct. destruct (extendsLoop _ _ _ _) as [extends extended].
  keep_bind; [apply fieldsLoop_keeps|]. intros [fields used].
  destruct obj as [o [[]|]| | | |]; try keep_step.
  keep_bind; [apply paramsLoop_keeps|]. intros. keep_ret.
Qed.

Lemma generateOne_keeps m obj : keeps R (generateOne g m obj).
Proof.
  unfold generateOne. destruct (types.Type' obj) as [ty|]; [|keep_ret].
  case_bool_decide; [keep_ret|].
  keep_bind; [keep_step|]. intros gen.
  destruct (_ && _); [keep_ret|].
  destruct obj as [o ty'|o ty'|o ty' val|o ty'|o ty']; try keep_ret.
  - destruct ty as [| | | | |n targs underNamed| | | | | |]; try keep_step.
    destruct underNamed as [| | | | | | |empty embeddeds| | | |]; try keep_step.
    + keep_bind; [apply keeps_wrap, buildStruct_keeps|]. intros. keep_ret.
    + keep_bind; [apply keeps_wrap, typescriptType_keeps|]. intros. keep_ret.
    + keep_bind; [apply keeps_wrap, typescriptType_keeps|]. intros. keep_ret.
    + keep_bind; [apply keeps_wrap, typescriptType_keeps|]. intros. keep_ret.
    + destruct embeddeds as [|embedded [|]]; try keep_ret.
      keep_bind; [apply keeps_wrap, buildUnion_keeps|]. intros. keep_ret.
  - destruct ty as [| | | | |n targs underNamed| | | | | |]; try keep_ret.
    keep_bind; [|intros; keep_ret].
    intros σ s σ' ->%objNameOf_Ok. reflexivity.
  - keep_bind; [apply R_print|]. intros. keep_ret.
Qed.

Lemma generateNames_keeps scope names : ∀ m, keeps R (generateNames g scope names m).
Proof.
  induction names as [|n names IH]; intros m; simpl.
  - keep_ret.
  - keep_bind; [|intros; apply IH].
    destruct (types.Lookup _ _); [apply keeps_wrap, generateOne_keeps|keep_ret].
Qed.

Lemma generateAll_keeps : keeps R (generateAll g).
Proof.
  unfold generateAll. keep_bind; [keep_step|]. intros gen.
  keep_bind; [apply generateNames_keeps|]. intros m.
  keep_bind; [keep_step|]. intros gen'. keep_ret.
Qed.

End Invariant.

Section Grows.
Context {L : Library} {O : MapOrder}.

#[global] Instance grows_preorder : PreOrder grows.
Proof.
  split.
  - intros σ. split; [done|]. split; [exists ""; by rewrite string_app_nil_r|].
    intros p gen Hp. exists gen. by repeat split.
  - intros σ1 σ2 σ3 (Hl12 & [w12 Hw12] & H12) (Hl23 & [w23 Hw23] & H23).
    split; [congruence|]. split.
    + exists (w12 +:+ w23). by rewrite Hw23, Hw12, string_app_assoc.
    + intros p gen Hp.
      destruct (H12 p gen Hp) as (gen2 & Hp2 & ? & ? & ? & ? & ? & ? & ?).
      destruct (H23 p gen2 Hp2) as (gen3 & Hp3 & ? & ? & ? & ? & ? & ? & ?).
      exists gen3. repeat split; try congruence; try (by etrans); auto.
Qed.

Lemma store_grows p gen gen' σ :
  gens σ !! p = Some gen →
  pkg gen' = pkg gen → onlyOptIn gen' = onlyOptIn gen → externals gen' = externals gen →
  cachedResult gen' = cachedResult gen →
  allowList gen `prefix_of` allowList gen' →
  dom (builtins gen) ⊆ dom (builtins gen') →
  (∀ name, builtins gen !! name = Some (isBuiltIn name).2 →
           builtins gen' !! name = Some (isBuiltIn name).2) →
  grows σ {| gens := <[p := gen']> (gens σ); stdout := stdout σ |}.
Proof.
  intros Hp ? ? ? ? ? ? ?. split; [simpl; by rewrite length_insert|].
  split; [exists ""; by rewrite string_app_nil_r|].
  intros q genq Hq. simpl. destruct (decide (q = p)) as [->|Hne].
  - exists gen'. rewrite list_lookup_insert_eq by by eapply lookup_lt_Some.
    by simplify_eq.
  - exists genq. rewrite list_lookup_insert_ne by done. by repeat split.
Qed.

Lemma appendAllowList_grows p name : keeps grows (appendAllowList p name).
Proof.
  intros σ u σ' (gen & Hg & ->)%appendAllowList_Ok.
  eapply store_grows; eauto. by apply prefix_app_r.
Qed.

Lemma setBuiltin_grows p name : keeps grows (setBuiltin p name (isBuiltIn name).2).
Proof.
  intros σ u σ'. unfold setBuiltin. rewrite bind_Ok.
  intros (gen & σ1 & [Hg ->]%deref_Ok & ->%store_Ok).
  eapply store_grows; eauto; simpl; [set_solver|].
  intros name' Hname'. destruct (decide (name = name')) as [<-|Hne].
  - by rewrite lookup_insert_eq.
  - by rewrite lookup_insert_ne.
Qed.

Lemma print_grows s : keeps grows (print s).
Proof.
  intros σ u σ'. unfold print. intros [= <- <-].
  split; [done|]. split; [by exists s|].
  intros p gen Hp. exists gen. by repeat split.
Qed.

Lemma grows_frame σ σ' : grows σ σ' → frame σ σ'.
Proof.
  intros (_ & _ & H) p gen Hp.
  destruct (H p gen Hp) as (gen' & ? & ? & ? & ? & _ & ? & _). by exists gen'.
Qed.

Lemma typescriptType_grows g ty : keeps grows (typescriptType g ty).
Proof.
  apply (typescriptType_keeps grows appendAllowList_grows setBuiltin_grows g).
Qed.

Lemma generateAll_grows g : keeps grows (generateAll g).
Proof.
  apply (generateAll_keeps grows appendAllowList_grows setBuiltin_grows print_grows g).
Qed.

(** A name of an allow list stays in it. *)
Lemma grows_allowed σ σ' p e name :
  grows σ σ' → gens σ !! p = Some e → name ∈ allowList e →
  ∃ e', gens σ' !! p = Some e' ∧ name ∈ allowList e'.
Proof.
  intros (_ & _ & H) Hp Hin.
  destruct (H p e Hp) as (e' & ? & _ & _ & _ & _ & [added Hadd] & _).
  exists e'. split; [done|]. rewrite Hadd. apply elem_of_app. by left.
Qed.

(** X1. A generation pass, when it returns, has left the generators in
    place: the heap has the generators it had, each with its package,
    its opt-in mode, its externals and its cached result; an allow list
    has only grown at its end, the builtins have lost no name and a
    builtin that had the text of [isBuiltIn] still has it; what was on
    the standard output is still there, at the start. *)
Theorem generation_pass_keeps_generators g σ ts σ' :
  generateAll g σ = Ok (ts, σ') → grows σ σ'.
Proof. apply generateAll_grows. Qed.

End Grows.

(** ** Resolving a named reference *)

Section Lookup.
Context {L : Library} {O : MapOrder}.

Lemma lookupExternals_first exts pkgName name : ∀ σ r σ',
  lookupExternals exts pkgName name σ = Ok (r, σ') →
  σ' = σ ∧
  match r with
  | Some (obj, q, local) =>
      local = false ∧
      ∃ before after e,
        exts = before ++ q :: after ∧ gens σ !! q = Some e ∧
        pkg_Name (pkg e) = pkgName ∧ pkg_Scope (pkg e) !! name = Some obj ∧
        Forall (λ q', ∀ e', gens σ !! q' = Some e' →
                  ¬ (pkg_Name (pkg e') = pkgName ∧ is_Some (pkg_Scope (pkg e') !! name))) before
  | None =>
      Forall (λ q', ∀ e', gens σ !! q' = Some e' →
                ¬ (pkg_Name (pkg e') = pkgName ∧ is_Some (pkg_Scope (pkg e') !! name))) exts
  end.
Proof.
  induction exts as [|ext exts IH]; intros σ r σ'; simpl.
  - intros [<- ->]%ret_Ok. by split.
  - rewrite bind_Ok. intros (e & σ1 & [He ->]%deref_Ok & Hrest).
    unfold types.Lookup in Hrest.
    assert (¬ (pkg_Name (pkg e) = pkgName ∧ is_Some (pkg_Scope (pkg e) !! name)) →
            lookupExternals exts pkgName name σ = Ok (r, σ') →
            σ' = σ ∧
            match r with
            | Some (obj, q, local) =>
                local = false ∧
                ∃ before after e0,
                  ext :: exts = before ++ q :: after ∧ gens σ !! q = Some e0 ∧
                  pkg_Name (pkg e0) = pkgName ∧ pkg_Scope (pkg e0) !! name = Some obj ∧
                  Forall (λ q', ∀ e', gens σ !! q' = Some e' →
                            ¬ (pkg_Name (pkg e') = pkgName ∧
                               is_Some (pkg_Scope (pkg e') !! name))) before
            | None =>
                Forall (λ q', ∀ e', gens σ !! q' = Some e' →
                          ¬ (pkg_Name (pkg e') = pkgName ∧
                             is_Some (pkg_Scope (pkg e') !! name))) (ext :: exts)
            end) as Hskip.
    { intros Hno Hex. apply IH in Hex as [-> Hr]. split; [done|].
      assert (∀ e', gens σ !! ext = Some e' →
                ¬ (pkg_Name (pkg e') = pkgName ∧ is_Some (pkg_Scope (pkg e') !! name))) as Hext
        by (intros e' He'; by simplify_eq).
      destruct r as [[[obj q] local]|]; [|by constructor].
      destruct Hr as (-> & before & after & e0 & -> & ? & ? & ? & ?).
      split; [done|]. exists (ext :: before), after, e0. repeat split; try done.
      by constructor. }
    destruct (pkg_Scope (pkg e) !! name) as [obj|] eqn:Hl; [case_bool_decide as Hn|].
    + apply ret_Ok in Hrest as [<- ->]. split; [done|]. split; [done|].
      exists [], exts, e. by repeat split.
    + apply Hskip; [|done]. by intros [? _].
    + apply Hskip; [|done]. by intros [_ [? ?]].
Qed.

(** X2. A named reference resolves by package name and declaration name.
    When [lookupNamedReference] finds a declaration, it is the
    declaration of that name in the scope of a generator whose package
    has the name of the reference's package: the generator itself when
    its own package declares it, and else the first of its externals
    that does.  When it finds none, neither the generator nor any of its
    externals declares the name in a package of that name.  The lookup
    changes nothing. *)
Theorem reference_resolves_by_package_name g n σ r σ' :
  lookupNamedReference g n σ = Ok (r, σ') →
  σ' = σ ∧
  ∃ gen pkgName,
    gens σ !! g = Some gen ∧ types.tn_Pkg (types.n_Obj n) = Some pkgName ∧
    let name := types.tn_Name (types.n_Obj n) in
    let declares (e : Generator) :=
      pkg_Name (pkg e) = pkgName ∧ is_Some (pkg_Scope (pkg e) !! name) in
    match r with
    | Some (obj, objGen, true) =>
        objGen = g ∧ pkg_Name (pkg gen) = pkgName ∧ pkg_Scope (pkg gen) !! name = Some obj
    | Some (obj, objGen, false) =>
        ¬ declares gen ∧
        ∃ before after e,
          externals gen = before ++ objGen :: after ∧ gens σ !! objGen = Some e ∧
          pkg_Name (pkg e) = pkgName ∧ pkg_Scope (pkg e) !! name = Some obj ∧
          Forall (λ q, ∀ e', gens σ !! q = Some e' → ¬ declares e') before
    | None =>
        ¬ declares gen ∧
        Forall (λ q, ∀ e', gens σ !! q = Some e' → ¬ declares e') (externals gen)
    end.
Proof.
  unfold lookupNamedReference. destruct (types.tn_Pkg _) as [pkgName|]; [|done].
  rewrite bind_Ok. intros (gen & σ1 & [Hg ->]%deref_Ok & Hrest).
  unfold types.Lookup in Hrest.
  assert (¬ (pkg_Name (pkg gen) = pkgName ∧
             is_Some (pkg_Scope (pkg gen) !! types.tn_Name (types.n_Obj n))) →
          lookupExternals (externals gen) pkgName (types.tn_Name (types.n_Obj n)) σ
          = Ok (r, σ') →
          σ' = σ ∧
          ∃ gen0 pkgName0,
            gens σ !! g = Some gen0 ∧ Some pkgName = Some pkgName0 ∧
            match r with
            | Some (obj, objGen, true) =>
                objGen = g ∧ pkg_Name (pkg gen0) = pkgName0 ∧
                pkg_Scope (pkg gen0) !! types.tn_Name (types.n_Obj n) = Some obj
            | Some (obj, objGen, false) =>
                ¬ (pkg_Name (pkg gen0) = pkgName0 ∧
                   is_Some (pkg_Scope (pkg gen0) !! types.tn_Name (types.n_Obj n))) ∧
                ∃ before after e,
                  externals gen0 = before ++ objGen :: after ∧ gens σ !! objGen = Some e ∧
                  pkg_Name (pkg e) = pkgName0 ∧
                  pkg_Scope (pkg e) !! types.tn_Name (types.n_Obj n) = Some obj ∧
                  Forall (λ q, ∀ e', gens σ !! q = Some e' →
                            ¬ (pkg_Name (pkg e') = pkgName0 ∧
                               is_Some (pkg_Scope (pkg e') !! types.tn_Name (types.n_Obj n))))
                         before
            | None =>
                ¬ (pkg_Name (pkg gen0) = pkgName0 ∧
                   is_Some (pkg_Scope (pkg gen0) !! types.tn_Name (types.n_Obj n))) ∧
                Forall (λ q, ∀ e', gens σ !! q = Some e' →
                          ¬ (pkg_Name (pkg e') = pkgName0 ∧
                             is_Some (pkg_Scope (pkg e') !! types.tn_Name (types.n_Obj n))))
                       (externals gen0)
            end) as Hext.
  { intros Hno [-> Hr]%lookupExternals_first. split; [done|].
    exists gen, pkgName. split; [done|]. split; [done|].
    destruct r as [[[obj q] local]|]; [|done].
    destruct Hr as (-> & Hr). done. }
  destruct (pkg_Scope (pkg gen) !! _) as [obj|] eqn:Hl; [case_bool_decide as Hn|].
  - apply ret_Ok in Hrest as [<- <-]. split; [done|]. by exists gen, pkgName.
  - apply Hext; [|done]. by intros [? _].
  - apply Hext; [|done]. by intros [_ [? ?]].
Qed.

End Lookup.

Section Recording.
Context {L : Library} {O : MapOrder}.

Lemma appendAllowList_allowed p name σ u σ' :
  appendAllowList p name σ = Ok (u, σ') →
  ∃ e', gens σ' !! p = Some e' ∧ name ∈ allowList e'.
Proof.
  intros (gen & Hg & ->)%appendAllowList_Ok. eexists. simpl.
  rewrite list_lookup_insert_eq by by eapply lookup_lt_Some.
  split; [done|]. simpl. apply elem_of_app. right. by left.
Qed.

(** X3. A resolved reference is recorded.  When the mapper returns on a
    named type that is not hard coded and that [lookupNamedReference]
    resolves, the name of the declaration is in the allow list of the
    generator if the generator is opt-in, and in the allow list of the
    external generator that declares it if the reference is not local:
    this is what the caller's regeneration loop picks up. *)
Theorem resolved_reference_is_recorded g n targs underlying σ ts σ' obj objGen local :
  assoc namedTable (types.n_String n) = None →
  serpentStruct (types.n_String n) = false →
  lookupNamedReference g n σ = Ok (Some (obj, objGen, local), σ) →
  typescriptType g (types.TNamed n targs underlying) σ = Ok (ts, σ') →
  ∃ gen gen',
    gens σ !! g = Some gen ∧ gens σ' !! g = Some gen' ∧
    (onlyOptIn gen → types.tn_Name (types.n_Obj n) ∈ allowList gen') ∧
    (local = false →
       ∃ e', gens σ' !! objGen = Some e' ∧ types.tn_Name (types.n_Obj n) ∈ allowList e').
Proof.
  intros Htable Hserpent Hfound. simpl. unfold namedType. rewrite Htable, Hserpent.
  unfold namedReference. rewrite bind_Ok.
  intros (objName0 & σ0 & ->%objNameOf_Ok & H1).
  apply bind_Ok in H1 as (found & σ1 & Hl & H2).
  rewrite Hfound in Hl. injection Hl as <- <-.
  apply bind_Ok in H2 as (gen & σ2 & [Hg ->]%deref_Ok & H3).
  apply bind_Ok in H3 as (u1 & σ3 & Hs1 & H4).
  apply bind_Ok in H4 as (u2 & σ4 & Hs2 & H5).
  set (name := types.tn_Name (types.n_Obj n)) in *.
  assert (grows σ4 σ') as Hrest.
  { destruct targs as [|a targs'].
    - apply ret_Ok in H5 as [_ <-]. reflexivity.
    - apply bind_Ok in H5 as ([[cs ns] gts] & σ5 & Hargs & [_ <-]%ret_Ok).
      eapply typeArgs_keeps; [apply _| |exact Hargs].
      intros a0 _. apply typescriptType_grows. }
  assert (grows σ3 σ4) as H34.
  { destruct (negb local); [by eapply appendAllowList_grows|].
    apply ret_Ok in Hs2 as [_ <-]. reflexivity. }
  assert (grows σ σ3) as H03.
  { destruct (_ && _); [by eapply appendAllowList_grows|].
    apply ret_Ok in Hs1 as [_ <-]. reflexivity. }
  assert (grows σ σ') as Hall by (etrans; [exact H03|etrans; [exact H34|exact Hrest]]).
  destruct Hall as (_ & _ & Hall). destruct (Hall g gen Hg) as (gen' & Hg' & _).
  exists gen, gen'. split; [done|]. split; [done|]. split.
  - intros Hopt.
    assert (∃ e3, gens σ3 !! g = Some e3 ∧ name ∈ allowList e3) as (e3 & He3 & Hin3).
    { destruct (onlyOptIn gen && negb (strings.Contains (allowList gen) name)) eqn:Hguard.
      - by eapply appendAllowList_allowed.
      - apply ret_Ok in Hs1 as [_ <-]. exists gen. split; [done|].
        apply andb_false_iff in Hguard as [Hno|Hc]; [by rewrite Hno in Hopt|].
        apply negb_false_iff in Hc. unfold strings.Contains in Hc.
        by apply bool_decide_eq_true in Hc. }
    destruct (grows_allowed σ3 σ' g e3 name) as (e' & He' & Hin'); try done.
    { by etrans. }
    rewrite Hg' in He'. by injection He' as <-.
  - intros ->. simpl in Hs2.
    apply appendAllowList_allowed in Hs2 as (e4 & He4 & Hin4).
    by eapply grows_allowed.
Qed.

End Recording.

(** ** Which declarations a pass emits *)

Section Filters.
Context {L : Library} {O : MapOrder}.

Lemma generateOne_grows g m obj : keeps grows (generateOne g m obj).
Proof.
  apply (generateOne_keeps grows appendAllowList_grows setBuiltin_grows print_grows g).
Qed.

(** One declaration adds blocks under its own name only, and only if
    the filters let it through. *)
Lemma generateOne_emits g m obj σ m' σ' gen :
  gens σ !! g = Some gen →
  generateOne g m obj σ = Ok (m', σ') →
  maps.IgnoredTypes m' = maps.IgnoredTypes m ∧
  maps.AllowedTypes m' = maps.AllowedTypes m ∧
  ∀ k, emitted m' k →
    emitted m k ∨
    (k = objName (types.obj_Pkg (types.info obj)) (types.obj_Name (types.info obj)) ∧
     admitted (onlyOptIn gen) m (types.obj_Name (types.info obj)) ∧
     ∃ o ty, obj = types.OTypeName o ty).
Proof.
  intros Hg. unfold generateOne.
  destruct (types.Type' obj) as [ty|] eqn:Hty; [|intros [<- <-]%ret_Ok; auto].
  case_bool_decide as Hign; [intros [<- <-]%ret_Ok; auto|].
  rewrite bind_Ok. intros (gen0 & σ1 & [Hg0 ->]%deref_Ok & H).
  rewrite Hg in Hg0. injection Hg0 as <-.
  destruct (_ && _ && _) eqn:Hguard; [apply ret_Ok in H as [<- <-]; auto|].
  destruct obj as [o ty'|o ty'|o ty' val|o ty'|o ty']; simpl in *.
  - assert (admitted (onlyOptIn gen) m (types.obj_Name o)) as Hadm.
    { split; [done|]. intros Hor. rewrite andb_true_r in Hguard.
      apply andb_false_iff in Hguard as [Hno|Hin].
      - apply orb_false_iff in Hno as [Hne Hopt]. apply bool_decide_eq_false in Hne.
        destruct Hor as [?|Hopt']; [done|]. by rewrite Hopt in Hopt'.
      - apply negb_false_iff in Hin. by apply bool_decide_eq_true in Hin. }
    destruct ty as [| | | | |n targs underNamed| | | | | |]; try done.
    destruct underNamed as [| | | | | | |empty embeddeds| | | |]; try done.
    all: try (apply ret_Ok in H as [<- <-]; by auto).
    all: try (destruct embeddeds as [|embedded [|]];
              try (apply ret_Ok in H as [<- <-]; by auto)).
    all: try apply bind_Ok in H as (x & σ2 & _ & [<- _]%ret_Ok).
    all: try apply ret_Ok in H as [<- _].
    all: split; [done|]; split; [done|]; intros k Hk; unfold emitted in *; simpl in *.
    all: destruct (decide (objName (types.obj_Pkg o) (types.obj_Name o) = k)) as [<-|Hne];
      [right; split; [done|]; split; [exact Hadm|eauto]
      |left; rewrite ?lookup_insert_ne in Hk by done; exact Hk].
  - apply ret_Ok in H as [<- <-]. auto.
  - destruct ty as [| | | | |n targs underNamed| | | | | |];
      try (apply ret_Ok in H as [<- <-]; by auto).
    apply bind_Ok in H as (x & σ2 & _ & [<- _]%ret_Ok). auto.
  - apply ret_Ok in H as [<- <-]. auto.
  - apply bind_Ok in H as (x & σ2 & _ & [<- _]%ret_Ok). auto.
Qed.

Lemma admitted_same optIn m m' name :
  maps.IgnoredTypes m' = maps.IgnoredTypes m → maps.AllowedTypes m' = maps.AllowedTypes m →
  admitted optIn m' name ↔ admitted optIn m name.
Proof. intros Hi Ha. unfold admitted. by rewrite Hi, Ha. Qed.

Lemma grows_onlyOptIn g σ σ' gen :
  grows σ σ' → gens σ !! g = Some gen →
  ∃ gen', gens σ' !! g = Some gen' ∧ onlyOptIn gen' = onlyOptIn gen ∧ pkg gen' = pkg gen.
Proof.
  intros (_ & _ & H) Hg. destruct (H g gen Hg) as (gen' & ? & ? & ? & _). by exists gen'.
Qed.

Lemma generateNames_emits g scope names : ∀ m σ m' σ' gen,
  gens σ !! g = Some gen →
  generateNames g scope names m σ = Ok (m', σ') →
  maps.IgnoredTypes m' = maps.IgnoredTypes m ∧
  maps.AllowedTypes m' = maps.AllowedTypes m ∧
  ∀ k, emitted m' k →
    emitted m k ∨
    ∃ n o ty,
      n ∈ names ∧ scope !! n = Some (types.OTypeName o ty) ∧
      k = objName (types.obj_Pkg o) (types.obj_Name o) ∧
      admitted (onlyOptIn gen) m (types.obj_Name o).
Proof.
  induction names as [|n names IH]; intros m σ m' σ' gen Hg; simpl.
  - intros [<- <-]%ret_Ok. auto.
  - rewrite bind_Ok. intros (m1 & σ1 & H1 & Hrest).
    assert (grows σ σ1 ∧
            maps.IgnoredTypes m1 = maps.IgnoredTypes m ∧
            maps.AllowedTypes m1 = maps.AllowedTypes m ∧
            ∀ k, emitted m1 k →
              emitted m k ∨
              ∃ o ty, scope !! n = Some (types.OTypeName o ty) ∧
                k = objName (types.obj_Pkg o) (types.obj_Name o) ∧
                admitted (onlyOptIn gen) m (types.obj_Name o)) as (Hgr & Hi1 & Ha1 & Hk1).
    { unfold types.Lookup in H1. destruct (scope !! n) as [obj|] eqn:Hn.
      - apply wrap_Ok in H1. split; [by eapply generateOne_grows|].
        destruct (generateOne_emits g m obj σ m1 σ1 gen Hg H1) as (? & ? & Hk).
        split; [done|]. split; [done|]. intros k Hem.
        destruct (Hk k Hem) as [?|(-> & ? & o & ty & ->)]; [by left|].
        right. by exists o, ty.
      - apply ret_Ok in H1 as [<- <-]. split; [reflexivity|]. auto. }
    destruct (grows_onlyOptIn g σ σ1 gen Hgr Hg) as (gen1 & Hg1 & Hopt & _).
    destruct (IH m1 σ1 m' σ' gen1 Hg1 Hrest) as (Hi & Ha & Hk).
    split; [congruence|]. split; [congruence|]. intros k Hem.
    destruct (Hk k Hem) as [Hem1|(n' & o & ty & ? & ? & ? & Hadm)].
    + destruct (Hk1 k Hem1) as [?|(o & ty & ? & ? & ?)]; [by left|].
      right. exists n, o, ty. split; [by left|]. by split.
    + right. exists n', o, ty. split; [by right|]. split; [done|]. split; [done|].
      rewrite Hopt in Hadm. by apply (admitted_same _ m1 m).
Qed.

Lemma elem_of_Names (scope : types.Scope) n : n ∈ types.Names scope ↔ is_Some (scope !! n).
Proof.
  unfold types.Names. rewrite sort_Strings_perm. unfold keys.
  rewrite list_elem_of_fmap. split.
  - intros ([k v] & -> & Hin%elem_of_map_to_list). by exists v.
  - intros [v Hv]. exists (n, v). split; [done|]. by apply elem_of_map_to_list.
Qed.

(** X4. Only the declarations that the filters let through are emitted.
    Every record block and every enum block that a pass returns is keyed
    by [objName] of a type declaration of the scope whose name is not
    ignored and, when allowed types exist or the generator is opt-in, is
    allowed; so is every generic block, unless its key is a builtin of
    the generator. *)
Theorem only_admitted_declarations_are_emitted g σ gen ts σ' :
  gens σ !! g = Some gen →
  generateAll g σ = Ok (ts, σ') →
  let declared (k : string) :=
    ∃ n o ty,
      pkg_Scope (pkg gen) !! n = Some (types.OTypeName o ty) ∧
      k = objName (types.obj_Pkg o) (types.obj_Name o) ∧
      admitted (onlyOptIn gen) (initialMaps gen) (types.obj_Name o) in
  (∀ k, is_Some (Types ts !! k) ∨ is_Some (Enums ts !! k) → declared k) ∧
  (∀ k, is_Some (Generics ts !! k) →
     declared k ∨ ∃ gen', gens σ' !! g = Some gen' ∧ is_Some (builtins gen' !! k)).
Proof.
  intros Hg (gen0 & m & gen' & Hg0 & Hnames & Hg' & ->)%generateAll_Ok declared.
  rewrite Hg in Hg0. injection Hg0 as <-.
  destruct (generateNames_emits g _ _ _ _ _ _ gen Hg Hnames) as (_ & _ & Hk).
  assert (∀ k, emitted m k → declared k) as Hdecl.
  { intros k Hem. destruct (Hk k Hem) as [Hinit|(n & o & ty & _ & ? & ? & ?)].
    - unfold emitted in Hinit. simpl in Hinit. rewrite !lookup_empty in Hinit.
      destruct Hinit as [[? ?]|[[? ?]|[? ?]]]; done.
    - by exists n, o, ty. }
  split.
  - intros k [Hs|He]; simpl in *.
    + apply Hdecl. by left.
    + rewrite enumsLoop_mapRange in He. apply fmap_is_Some in He.
      apply Hdecl. right. by left.
  - intros k. simpl. rewrite addBuiltins_mapRange.
    destruct (builtins gen' !! k) as [value|] eqn:Hb.
    + intros _. right. exists gen'. by rewrite Hb.
    + intros Hs. left. apply Hdecl. right. by right.
Qed.

(** One declaration drops nothing a pass holds. *)
Lemma generateOne_mono g m obj σ m' σ' :
  generateOne g m obj σ = Ok (m', σ') →
  (∀ k, is_Some (maps.Structs m !! k) → is_Some (maps.Structs m' !! k)) ∧
  (∀ k, is_Some (maps.Enums m !! k) → is_Some (maps.Enums m' !! k)) ∧
  (∀ k, is_Some (maps.Generics m !! k) → is_Some (maps.Generics m' !! k)).
Proof.
  unfold generateOne.
  destruct (types.Type' obj) as [ty|] eqn:Hty; [|intros [<- <-]%ret_Ok; auto].
  case_bool_decide as Hign; [intros [<- <-]%ret_Ok; auto|].
  rewrite bind_Ok. intros (gen0 & σ1 & _ & H).
  destruct (_ && _ && _) eqn:Hguard; [apply ret_Ok in H as [<- <-]; auto|].
  destruct obj as [o ty'|o ty'|o ty' val|o ty'|o ty']; simpl in *.
  - destruct ty as [| | | | |n targs underNamed| | | | | |]; try done.
    destruct underNamed as [| | | | | | |empty embeddeds| | | |]; try done.
    all: try (apply ret_Ok in H as [<- <-]; by auto).
    all: try (destruct embeddeds as [|embedded [|]];
              try (apply ret_Ok in H as [<- <-]; by auto)).
    all: try apply bind_Ok in H as (x & σ2 & _ & [<- _]%ret_Ok).
    all: try apply ret_Ok in H as [<- _].
    all: simpl; repeat split; try done; intros k Hk.
    all: destruct (decide (objName (types.obj_Pkg o) (types.obj_Name o) = k)) as [<-|Hne];
      [by rewrite lookup_insert_eq|by rewrite lookup_insert_ne].
  - apply ret_Ok in H as [<- <-]. auto.
  - destruct ty as [| | | | |n targs underNamed| | | | | |];
      try (apply ret_Ok in H as [<- <-]; by auto).
    apply bind_Ok in H as (x & σ2 & _ & [<- _]%ret_Ok). auto.
  - apply ret_Ok in H as [<- <-]. auto.
  - apply bind_Ok in H as (x & σ2 & _ & [<- _]%ret_Ok). auto.
Qed.

(** A type declaration that the filters let through is filed. *)
Lemma generateOne_files g m o nm targs under σ m' σ' gen :
  gens σ !! g = Some gen →
  admitted (onlyOptIn gen) m (types.obj_Name o) →
  generateOne g m (types.OTypeName o (Some (types.TNamed nm targs under))) σ = Ok (m', σ') →
  filed under m' (objName (types.obj_Pkg o) (types.obj_Name o)).
Proof.
  intros Hg [Hign Hallow]. unfold generateOne. simpl.
  rewrite bool_decide_eq_false_2 by done.
  rewrite bind_Ok. intros (gen0 & σ1 & [Hg0 ->]%deref_Ok & H).
  rewrite Hg in Hg0. injection Hg0 as <-.
  assert ((bool_decide (maps.AllowedTypes m ≠ ∅) || onlyOptIn gen) &&
          negb (bool_decide (types.obj_Name o ∈ maps.AllowedTypes m)) && true = false)
    as Hguard.
  { rewrite andb_true_r. apply andb_false_iff.
    destruct (bool_decide (maps.AllowedTypes m ≠ ∅) || onlyOptIn gen) eqn:Hor; [|by left].
    right. apply negb_false_iff, bool_decide_eq_true, Hallow.
    apply orb_true_iff in Hor as [Hne%bool_decide_eq_true|Hopt]; [by left|right].
    by rewrite Hopt. }
  rewrite Hguard in H.
  destruct under as [| | | | | | |empty embeddeds| | | |]; simpl; try done.
  all: try (destruct embeddeds as [|embedded [|]]; try done).
  all: try apply bind_Ok in H as (x & σ2 & _ & [<- _]%ret_Ok).
  all: try apply ret_Ok in H as [<- _].
  all: simpl; by rewrite lookup_insert_eq.
Qed.

Lemma filed_mono under m m' key :
  (∀ k, is_Some (maps.Structs m !! k) → is_Some (maps.Structs m' !! k)) ∧
  (∀ k, is_Some (maps.Enums m !! k) → is_Some (maps.Enums m' !! k)) ∧
  (∀ k, is_Some (maps.Generics m !! k) → is_Some (maps.Generics m' !! k)) →
  filed under m key → filed under m' key.
Proof.
  intros (Hs & He & Hg). unfold filed.
  destruct under as [| | | | | | |empty embeddeds| | | |]; auto.
  destruct embeddeds as [|embedded [|]]; auto.
Qed.

Lemma generateNames_mono g scope names : ∀ m σ m' σ',
  generateNames g scope names m σ = Ok (m', σ') →
  (∀ k, is_Some (maps.Structs m !! k) → is_Some (maps.Structs m' !! k)) ∧
  (∀ k, is_Some (maps.Enums m !! k) → is_Some (maps.Enums m' !! k)) ∧
  (∀ k, is_Some (maps.Generics m !! k) → is_Some (maps.Generics m' !! k)).
Proof.
  induction names as [|n names IH]; intros m σ m' σ'; simpl.
  - intros [<- <-]%ret_Ok. auto.
  - rewrite bind_Ok. intros (m1 & σ1 & H1 & Hrest).
    apply IH in Hrest as (Hs & He & Hg).
    assert ((∀ k, is_Some (maps.Structs m !! k) → is_Some (maps.Structs m1 !! k)) ∧
            (∀ k, is_Some (maps.Enums m !! k) → is_Some (maps.Enums m1 !! k)) ∧
            (∀ k, is_Some (maps.Generics m !! k) → is_Some (maps.Generics m1 !! k)))
      as (Hs1 & He1 & Hg1).
    { destruct (types.Lookup scope n) as [obj|].
      - apply wrap_Ok in H1. by eapply generateOne_mono.
      - apply ret_Ok in H1 as [<- <-]. auto. }
    auto.
Qed.

Lemma generateNames_files g scope names : ∀ m σ m' σ' gen n o nm targs under,
  gens σ !! g = Some gen →
  n ∈ names →
  scope !! n = Some (types.OTypeName o (Some (types.TNamed nm targs under))) →
  admitted (onlyOptIn gen) m (types.obj_Name o) →
  generateNames g scope names m σ = Ok (m', σ') →
  filed under m' (objName (types.obj_Pkg o) (types.obj_Name o)).
Proof.
  induction names as [|n0 names IH]; intros m σ m' σ' gen n o nm targs under Hg Hin Hn Hadm;
    simpl; [by apply elem_of_nil in Hin|].
  rewrite bind_Ok. intros (m1 & σ1 & H1 & Hrest).
  destruct (decide (n0 = n)) as [->|Hne].
  - unfold types.Lookup in H1. rewrite Hn in H1. apply wrap_Ok in H1.
    eapply filed_mono; [by eapply generateNames_mono|]. by eapply generateOne_files.
  - apply elem_of_cons in Hin as [?|Hin]; [done|].
    assert (grows σ σ1 ∧ maps.IgnoredTypes m1 = maps.IgnoredTypes m ∧
            maps.AllowedTypes m1 = maps.AllowedTypes m) as (Hgr & Hi1 & Ha1).
    { unfold types.Lookup in H1. destruct (scope !! n0) as [obj|] eqn:Hn0.
      - apply wrap_Ok in H1. split; [by eapply generateOne_grows|].
        destruct (generateOne_emits g m obj σ m1 σ1 gen Hg H1) as (? & ? & _). done.
      - apply ret_Ok in H1 as [<- <-]. split; [reflexivity|]. auto. }
    destruct (grows_onlyOptIn g σ σ1 gen Hgr Hg) as (gen1 & Hg1 & Hopt & _).
    eapply (IH m1 σ1 m' σ' gen1); try done.
    rewrite Hopt. by apply (admitted_same _ m m1).
Qed.

(** X5. Every type declaration that the filters let through is emitted.
    When a pass returns, a declaration of the scope whose name is not
    ignored and, when allowed types exist or the generator is opt-in, is
    allowed has a block under its [objName]: among the records if it is
    a struct, a map, an array or a slice, among the enums if its
    underlying type is basic, among the generics if it is an interface
    that embeds one type. *)
Theorem admitted_declarations_are_emitted g σ gen ts σ' n o nm targs under :
  gens σ !! g = Some gen →
  generateAll g σ = Ok (ts, σ') →
  pkg_Scope (pkg gen) !! n = Some (types.OTypeName o (Some (types.TNamed nm targs under))) →
  admitted (onlyOptIn gen) (initialMaps gen) (types.obj_Name o) →
  let key := objName (types.obj_Pkg o) (types.obj_Name o) in
  match under with
  | types.TStruct _ | types.TMap _ _ | types.TArray _ _ | types.TSlice _ =>
      is_Some (Types ts !! key)
  | types.TBasic _ => is_Some (Enums ts !! key)
  | types.TInterface _ [_] => is_Some (Generics ts !! key)
  | _ => True
  end.
Proof.
  intros Hg (gen0 & m & gen' & Hg0 & Hnames & Hg' & ->)%generateAll_Ok Hn Hadm key.
  rewrite Hg in Hg0. injection Hg0 as <-.
  assert (filed under m key) as Hfiled.
  { apply (generateNames_files g (pkg_Scope (pkg gen)) (types.Names (pkg_Scope (pkg gen)))
             (initialMaps gen) σ m σ' gen n o nm targs under); try done.
    apply elem_of_Names. by rewrite Hn. }
  unfold filed in Hfiled.
  destruct under as [| | | | | | |empty embeddeds| | | |]; simpl; try done.
  - rewrite enumsLoop_mapRange. by apply fmap_is_Some.
  - destruct embeddeds as [|embedded [|]]; try done.
    rewrite addBuiltins_mapRange. destruct (builtins gen' !! key) as [value|]; [|done].
    by case_bool_decide.
Qed.

End Filters.

(** ** Types that reach no name *)

Section Unnamed.
Context {L : Library} {O : MapOrder}.

Lemma arrayType_unnamed s (elem : nat → M TypescriptType) :
  ((∃ ts, GenericTypes ts = None ∧ GenericValue ts = "" ∧ ∀ g σ, elem g σ = Ok (ts, σ)) ∨
   (∃ msg, ∀ g σ, elem g σ = Err msg)) →
  (∃ ts, GenericTypes ts = None ∧ GenericValue ts = "" ∧
         ∀ g σ, arrayType s (elem g) σ = Ok (ts, σ)) ∨
  (∃ msg, ∀ g σ, arrayType s (elem g) σ = Err msg).
Proof.
  intros He. unfold arrayType. case_bool_decide.
  - left. by exists (tsValue "string").
  - destruct He as [(ts & Hgt & Hgv & He)|(msg & He)].
    + left. eexists. split; [|split]; [| |intros g σ; unfold bind, wrap; by rewrite He]; [done|].
      simpl. by rewrite Hgv.
    + right. exists ("array: " +:+ msg). intros g σ. unfold bind, wrap. by rewrite He.
Qed.

Lemma typescriptType_unnamed ty :
  unnamed ty →
  (∃ ts, GenericTypes ts = None ∧ GenericValue ts = "" ∧
         ∀ g σ, typescriptType g ty σ = Ok (ts, σ)) ∨
  (∃ msg, ∀ g σ, typescriptType g ty σ = Err msg).
Proof.
  induction ty as [bs|fields|key IHkey elem IHelem|elem IH|len elem IH|n targs underlying IH
                   |elem IH|empty embeddeds|tp|terms|str|str]; simpl; intros Hun.
  - left. repeat case_bool_decide;
      (eexists; split; [|split]; [| |intros g σ; reflexivity]; reflexivity).
  - left. eexists. split; [|split]; [| |intros g σ; reflexivity]; reflexivity.
  - apply andb_prop_elim in Hun as [Hk He].
    destruct (IHkey Hk) as [(tsk & Hgtk & Hgvk & Hkey)|(msg & Hkey)].
    + destruct (IHelem He) as [(tsv & Hgtv & Hgvv & Helem)|(msg & Helem)].
      * left. eexists. split; [|split]; [| |intros g σ; unfold bind, wrap;
          rewrite Hkey, Helem, Hgtk, Hgtv; simpl; reflexivity]; done.
      * right. exists ("map key: " +:+ msg). intros g σ. unfold bind, wrap.
        by rewrite Hkey, Helem.
    + right. exists ("map key: " +:+ msg). intros g σ. unfold bind, wrap. by rewrite Hkey.
  - apply (arrayType_unnamed _ (λ g, typescriptType g elem)). by apply IH.
  - apply (arrayType_unnamed _ (λ g, typescriptType g elem)). by apply IH.
  - done.
  - destruct (IH Hun) as [(ts & Hgt & Hgv & He)|(msg & He)].
    + left. eexists. split; [|split]; [| |intros g σ; unfold bind, wrap; by rewrite He]; done.
    + right. exists ("pointer: " +:+ msg). intros g σ. unfold bind, wrap. by rewrite He.
  - left. destruct empty;
      (eexists; split; [|split]; [| |intros g σ; reflexivity]; reflexivity).
  - done.
  - right. eexists. reflexivity.
  - right. eexists. reflexivity.
  - right. eexists. reflexivity.
Qed.

(** X6. A type that reaches no named type and no type parameter is
    mapped without effects: the mapper returns the same type for every
    generator and every state, leaves the state alone, and gives no
    generic value and no bindings; or it fails with the same error
    everywhere.  It does not panic. *)
Theorem unnamed_types_map_without_effects ty :
  unnamed ty →
  (∃ ts, GenericTypes ts = None ∧ GenericValue ts = "" ∧
         ∀ g σ, typescriptType g ty σ = Ok (ts, σ)) ∨
  (∃ msg, ∀ g σ, typescriptType g ty σ = Err msg).
Proof. apply typescriptType_unnamed. Qed.

(** The mapped type of a field that is a map, or that reaches no name,
    has no generic value. *)
Lemma no_generic_value g ty σ ts σ' :
  (∃ key elem, ty = types.TMap key elem) ∨ unnamed ty →
  typescriptType g ty σ = Ok (ts, σ') → GenericValue ts = "".
Proof.
  intros [(key & elem & ->)|Hun].
  - rewrite typescriptType_TMap, bind_Ok. intros (keyType & σ1 & _ & H).
    apply bind_Ok in H as (valueType & σ2 & _ & H).
    apply bind_Ok in H as (mergeGens & σ3 & _ & [<- _]%ret_Ok). done.
  - destruct (typescriptType_unnamed ty Hun) as [(ts0 & _ & Hgv & H)|(msg & H)];
      rewrite H; [|done]. by intros [= <- _].
Qed.

(** X7. A generic parameter that only maps use is lost.  When every
    field that the record builder maps has a map type, or a type that
    reaches no name, no generic value is gathered; so a record that
    declares a type parameter is never emitted: the builder fails or
    panics, whatever the maps hold. *)
Theorem generic_record_of_maps_is_not_emitted g o n targs underlying st σ :
  types.n_TypeParams n ≠ [] →
  (∀ field, field ∈ st → isExtended field = false →
     (∃ key elem, types.f_Type field = types.TMap key elem) ∨ unnamed (types.f_Type field)) →
  ∀ block σ',
    buildStruct g (types.OTypeName o (Some (types.TNamed n targs underlying))) st σ
    ≠ Ok (block, σ').
Proof.
  intros Hparams Hfields block σ'. rewrite buildStruct_unfold, bind_Ok.
  intros ([fields used] & σ1 & Hlines & H). simpl in H.
  apply bind_Ok in H as (generics & σ2 & (_ & _ & Hall)%paramsLoop_Ok & _).
  destruct (types.n_TypeParams n) as [|p params]; [done|].
  apply Forall_cons in Hall as [[c Hc] _].
  apply fieldLines_Ok in Hlines as (_ & _ & Hused).
  destruct (Hused _ _ Hc) as [Hempty|(field & σa & ts & σb & gt & Hin & Hts & Hgv & _)].
  - by rewrite lookup_empty in Hempty.
  - apply list_elem_of_filter in Hin as [Hext Hin].
    apply Hgv. eapply no_generic_value; [|exact Hts].
    apply Hfields; [done|]. by destruct (isExtended field).
Qed.

End Unnamed.

(** ** The optional mark *)

Section Optional.
Context {L : Library} {O : MapOrder}.

(** X8. The optional mark comes from pointers and is dropped by
    containers.  Whenever the mapper returns, the type of a pointer is
    optional, and the type of a basic type, a struct, a map, a slice, an
    array, an interface or a type parameter is not: a slice of pointers
    and a map to pointers are not optional.  (A named type is optional
    when the hard coded table or its underlying type says so.) *)
Theorem optional_is_set_by_pointers g ty σ ts σ' :
  typescriptType g ty σ = Ok (ts, σ') →
  match ty with
  | types.TPointer _ => Optional ts = true
  | types.TNamed _ _ _ => True
  | _ => Optional ts = false
  end.
Proof.
  destruct ty as [bs|fields|key elem|elem|len elem|n targs underlying
                  |elem|empty embeddeds|tp|terms|str|str]; simpl; try done.
  - repeat case_bool_decide; by intros [<- _]%ret_Ok.
  - by intros [<- _]%ret_Ok.
  - rewrite bind_Ok. intros (keyType & σ1 & _ & H).
    apply bind_Ok in H as (valueType & σ2 & _ & H).
    apply bind_Ok in H as (mergeGens & σ3 & _ & [<- _]%ret_Ok). done.
  - unfold arrayType. case_bool_decide; [by intros [<- _]%ret_Ok|].
    rewrite bind_Ok. intros (underlying & σ1 & _ & [<- _]%ret_Ok). done.
  - unfold arrayType. case_bool_decide; [by intros [<- _]%ret_Ok|].
    rewrite bind_Ok. intros (underlying & σ1 & _ & [<- _]%ret_Ok). done.
  - rewrite bind_Ok. intros (resp & σ1 & _ & [<- _]%ret_Ok). done.
  - destruct empty; by intros [<- _]%ret_Ok.
  - destruct (negb _); [done|].
    rewrite bind_Ok. intros (gen & σ1 & _ & H).
    destruct (types.Lookup _ _); [by apply ret_Ok in H as [<- _]|].
    destruct (isBuiltIn _) as [include builtinString].
    destruct (negb include); [by apply ret_Ok in H as [<- _]|].
    apply bind_Ok in H as (u & σ2 & _ & [<- _]%ret_Ok). done.
Qed.

End Optional.

(** ** Fields that are skipped, fields that fail *)

Section Fields.
Context {L : Library} {O : MapOrder}.

Lemma fieldLines_app g obj l1 : ∀ l2 fields used σ,
  fieldLines g obj (l1 ++ l2) fields used σ =
  (r <- fieldLines g obj l1 fields used ;; fieldLines g obj l2 r.1 r.2) σ.
Proof.
  induction l1 as [|f l1 IH]; intros l2 fields used σ; simpl; [done|].
  unfold bind. destruct (fieldLine g obj f fields used σ) as [[r σ1]| |]; [|done..].
  by rewrite IH.
Qed.

(** The fields that the second loop passes over without mapping them. *)
Lemma fieldLine_skipped g obj field fields used σ :
  is_Some (structtag_Parse (types.f_Tag field)) →
  types.var_Exported (types.f_Var field) = false ∨
  (∃ tags, fieldTags field = Some tags ∧ tag_Name <$> tagsGet tags "json" = Some "-") →
  fieldLine g obj field fields used σ = Ok ((fields, used), σ).
Proof.
  unfold fieldLine, fieldTags. intros [parsed ->] [Hunexp|(tags & Htags & Hdash)].
  - by rewrite Hunexp.
  - destruct (negb _); [done|]. simpl in Htags. rewrite Htags.
    by rewrite bool_decide_eq_true_2.
Qed.

(** X9. A field whose tag parses and that is unexported, or whose json
    tag is named [-], is as good as absent: unless it is extended, the
    record builder gives the same outcome, state included, for the
    struct with the field and for the struct without it.  Its type is
    not mapped, so a type that the mapper rejects does no harm there. *)
Theorem skipped_field_is_as_if_absent g obj before field after σ :
  isExtended field = false →
  is_Some (structtag_Parse (types.f_Tag field)) →
  types.var_Exported (types.f_Var field) = false ∨
  (∃ tags, fieldTags field = Some tags ∧ tag_Name <$> tagsGet tags "json" = Some "-") →
  buildStruct g obj (before ++ field :: after) σ = buildStruct g obj (before ++ after) σ.
Proof.
  intros Hext Hparse Hskip. rewrite !buildStruct_unfold.
  rewrite !filter_app, !filter_cons, Hext. simpl.
  apply bind_ext; [|done]. intros σ0.
  rewrite !fieldLines_app. apply bind_ext; [done|]. intros r σ1. simpl.
  unfold bind. by rewrite fieldLine_skipped.
Qed.

(** X10. The type of every other field is mapped, and its failure is
    the failure of the record: when the fields before it are through, a
    field that is exported, not extended and not named [-] by its json
    tag, and whose type the mapper rejects, makes the record builder
    return that error, whatever its typescript tag says: neither
    [typescript:"-"] nor a replacement type prevents it. *)
Theorem field_error_fails_the_record g obj before field after σ fields used σ1 tags msg :
  fieldLines g obj (filter (λ f, ¬ isExtended f) before) [] ∅ σ = Ok ((fields, used), σ1) →
  isExtended field = false →
  types.var_Exported (types.f_Var field) = true →
  fieldTags field = Some tags →
  tag_Name <$> tagsGet tags "json" ≠ Some "-" →
  typescriptType g (types.f_Type field) σ1 = Err msg →
  buildStruct g obj (before ++ field :: after) σ = Err ("typescript type: " +:+ msg).
Proof.
  intros Hbefore Hext Hexp Htags Hjson Herr. rewrite buildStruct_unfold.
  rewrite filter_app, filter_cons, Hext. simpl.
  unfold bind at 1. rewrite fieldLines_app. unfold bind at 1. rewrite Hbefore. simpl.
  unfold bind at 1. unfold fieldLine. unfold fieldTags in Htags.
  destruct (structtag_Parse (types.f_Tag field)) as [[tags'|]|]; try done.
  simpl in Htags. injection Htags as ->. rewrite Hexp. simpl.
  rewrite bool_decide_eq_false_2 by done.
  unfold bind at 1. by rewrite (wrap_Err _ _ _ _ Herr).
Qed.

(** X25. A field whose tag [structtag] does not parse stops the record
    builder, exported or not: once the fields before it are through,
    the builder panics with the text of the declaration.  Only an
    extended field is not looked at. *)
Theorem unparsed_tag_panics g obj before field after σ fields used σ1 :
  fieldLines g obj (filter (λ f, ¬ isExtended f) before) [] ∅ σ = Ok ((fields, used), σ1) →
  isExtended field = false →
  structtag_Parse (types.f_Tag field) = None →
  buildStruct g obj (before ++ field :: after) σ
  = Panic ("invalid struct tags on type " +:+ types.obj_String (types.info obj)).
Proof.
  intros Hbefore Hext Hparse. rewrite buildStruct_unfold.
  rewrite filter_app, filter_cons, Hext. simpl.
  unfold bind at 1. rewrite fieldLines_app. unfold bind at 1. rewrite Hbefore. simpl.
  unfold bind at 1. unfold fieldLine. by rewrite Hparse.
Qed.

End Fields.

(** ** The run of [main] *)

Section Main.
Context {L : Library} {O : MapOrder}.

#[global] Instance runs_preorder : PreOrder runs.
Proof.
  split.
  - intros σ. split; [reflexivity|]. exists "". by rewrite string_app_nil_r.
  - intros σ1 σ2 σ3 [F12 [w12 Hw12]] [F23 [w23 Hw23]]. split; [by etrans|].
    exists (w12 +:+ w23). by rewrite Hw23, Hw12, string_app_assoc.
Qed.

Lemma grows_runs σ σ' : grows σ σ' → runs σ σ'.
Proof. intros Hg. split; [by apply grows_frame|]. by destruct Hg as (_ & ? & _). Qed.

Lemma frame_runs σ σ' : frame σ σ' → stdout σ' = stdout σ → runs σ σ'.
Proof. intros HF Hs. split; [done|]. exists "". by rewrite Hs, string_app_nil_r. Qed.

Lemma newGenerator_Ok p exts σ :
  newGenerator p exts σ =
  Ok (length (gens σ),
      {| gens := gens σ ++ [{| pkg := p; onlyOptIn := false; allowList := [];
                               externals := exts; builtins := ∅; cachedResult := None |}];
         stdout := stdout σ |}).
Proof. reflexivity. Qed.

Lemma newGenerator_runs p exts : keeps runs (newGenerator p exts).
Proof.
  intros σ a σ'. rewrite newGenerator_Ok. intros [= <- <-].
  apply frame_runs; [|done]. intros q gen Hq. exists gen. simpl.
  rewrite lookup_app_l by by eapply lookup_lt_Some. by repeat split.
Qed.

Lemma setCachedResult_runs p ts : keeps runs (setCachedResult p ts).
Proof.
  intros σ u σ'. unfold setCachedResult. rewrite bind_Ok.
  intros (gen & σ1 & [Hg ->]%deref_Ok & ->%store_Ok).
  apply frame_runs; [|done]. by eapply store_frame.
Qed.

Lemma setOnlyOptIn_Ok p σ gen :
  gens σ !! p = Some gen →
  setOnlyOptIn p σ =
  Ok (tt, {| gens := <[p := {| pkg := pkg gen; onlyOptIn := true; allowList := allowList gen;
                               externals := externals gen; builtins := builtins gen;
                               cachedResult := cachedResult gen |}]> (gens σ);
             stdout := stdout σ |}).
Proof. intros Hg. unfold setOnlyOptIn, bind, deref. by rewrite Hg. Qed.

Lemma print_runs s : keeps runs (print s).
Proof.
  intros σ u σ'. unfold print. intros [= <- <-]. split; [|by exists s].
  intros p gen Hp. exists gen. by repeat split.
Qed.

Lemma generateAll_runs g : keeps runs (generateAll g).
Proof. intros σ ts σ' H. by eapply grows_runs, generateAll_grows. Qed.

Lemma regenerate_runs ext fuel : keeps runs (regenerate fuel ext).
Proof.
  induction fuel as [|fuel IH]; simpl; [keep_ret|].
  keep_bind; [keep_step|]. intros e.
  keep_bind; [apply keeps_wrap, generateAll_runs|]. intros ts.
  keep_bind; [keep_step|]. intros e'.
  case_bool_decide; [apply IH|keep_ret].
Qed.

Lemma Generate_runs directory p exts : keeps runs (Generate directory p exts).
Proof.
  unfold Generate, GenerateFromDirectory.
  keep_bind.
  - keep_bind; [apply newGenerator_runs|]. intros g.
    keep_bind; [apply keeps_wrap, generateAll_runs|]. intros codeBlocks.
    keep_bind; [apply setCachedResult_runs|]. intros. keep_ret.
  - intros gen. keep_bind; [keep_step|]. intros g.
    destruct (cachedResult g); keep_step.
Qed.

Lemma mainBases_runs dirs external : keeps runs (mainBases dirs external).
Proof.
  induction dirs as [|[baseDir p] dirs IH]; simpl; [keep_ret|].
  keep_bind; [apply print_runs|]. intros _.
  keep_bind; [apply Generate_runs|]. intros output.
  keep_bind; [apply print_runs|]. intros _. apply IH.
Qed.

Lemma mainRegenerate_runs fuel external : keeps runs (mainRegenerate fuel external).
Proof.
  induction external as [|[dir ext] external IH]; simpl; [keep_ret|].
  keep_bind; [apply regenerate_runs|]. intros [ts|]; [|keep_ret].
  keep_bind; [apply print_runs|]. intros _.
  keep_bind; [apply print_runs|]. intros _. apply IH.
Qed.

(** The first loop of [main] cannot fail: it puts one opt-in generator
    per package at the end of the heap. *)
Lemma mainExternals_Ok pkgs : ∀ σ,
  mainExternals pkgs σ =
  Ok (seq (length (gens σ)) (length pkgs),
      {| gens := gens σ ++ (externalGenerator <$> pkgs); stdout := stdout σ |}).
Proof.
  induction pkgs as [|p pkgs IH]; intros σ; simpl.
  - unfold ret. rewrite app_nil_r. by destruct σ.
  - unfold bind at 1. rewrite newGenerator_Ok.
    unfold bind at 1. erewrite setOnlyOptIn_Ok;
      [|simpl; rewrite lookup_app_r by done; by rewrite Nat.sub_diag].
    simpl. unfold bind at 1. rewrite IH. simpl.
    rewrite insert_app_r_alt by done. rewrite Nat.sub_diag. simpl.
    rewrite length_app. simpl. rewrite Nat.add_1_r.
    unfold ret. by rewrite <-app_assoc.
Qed.

(** X11. The output of [main] starts with the header.  When [main]
    returns, the standard output is what it was, then the line that
    says the code is generated, then, if there is a base package, the
    line that announces the first base directory, then the rest:
    nothing is written before them and nothing written is taken back. *)
Theorem main_output_starts_with_header fuel extPkgs basePkgs σ b σ' :
  main fuel extPkgs basePkgs σ = Ok (b, σ') →
  ∃ rest,
    stdout σ' =
    stdout σ +:+
    ("// Code generated by 'make site/src/api/typesGenerated.ts'. DO NOT EDIT." +:+
     strings.nl +:+ strings.nl) +:+
    (match basePkgs with
     | [] => ""
     | _ :: _ => "// The code below is generated from codersdk." +:+ strings.nl +:+ strings.nl
     end) +:+ rest.
Proof.
  unfold main. rewrite bind_Ok. intros (external & σ1 & H1 & H).
  rewrite mainExternals_Ok in H1. injection H1 as <- <-.
  apply bind_Ok in H as (u & σ2 & [= _ <-] & H).
  apply bind_Ok in H as (u' & σ3 & Hbases & Hregen).
  apply mainRegenerate_runs in Hregen as [_ [w3 Hw3]].
  destruct basePkgs as [|p basePkgs]; simpl in Hbases.
  - apply ret_Ok in Hbases as [_ <-]. exists w3. rewrite Hw3. simpl.
    by rewrite string_app_nil_l, string_app_assoc.
  - apply bind_Ok in Hbases as (u1 & σa & [= _ <-] & Hbases).
    assert (runs {| gens := gens σ ++ (externalGenerator <$> extPkgs);
                    stdout := (stdout σ +:+
                      ("// Code generated by 'make site/src/api/typesGenerated.ts'. DO NOT EDIT."
                       +:+ strings.nl +:+ strings.nl)) +:+
                      ("// The code below is generated from " +:+
                       strings.TrimPrefix "./codersdk" "./" +:+ "." +:+
                       strings.nl +:+ strings.nl) |} σ3) as [_ [w2 Hw2]].
    { revert Hbases. apply (keeps_bind runs); [apply Generate_runs|]. intros output.
      apply (keeps_bind runs); [apply print_runs|]. intros _. apply mainBases_runs. }
    exists (w2 +:+ w3). rewrite Hw3, Hw2. simpl.
    by rewrite !string_app_assoc.
Qed.

Lemma runs_external σ σ' ext gen :
  runs σ σ' → gens σ !! ext = Some gen →
  ∃ gen', gens σ' !! ext = Some gen' ∧ pkg gen' = pkg gen ∧ externals gen' = externals gen.
Proof.
  intros [HF _] Hg. destruct (HF ext gen Hg) as (gen' & ? & ? & _ & ? & _). by exists gen'.
Qed.

(** The third loop of [main] ends once the passes allowed exceed the
    declarations of every external package. *)
Lemma mainRegenerate_terminates N external : ∀ σ,
  (∀ dir ext, (dir, ext) ∈ external →
     ∃ gen, gens σ !! ext = Some gen ∧ externals gen = [] ∧
            size (pkg_Scope (pkg gen)) < N) →
  ∃ r, (∀ σ', r ≠ Ok (false, σ')) ∧
       ∀ fuel, N ≤ fuel → mainRegenerate fuel external σ = r.
Proof.
  induction external as [|[dir ext] external IH]; intros σ Hexts; simpl.
  - exists (Ok (true, σ)). split; [by intros σ' [=]|done].
  - destruct (Hexts dir ext) as (gen & Hg & Hnil & Hsize); [by left|].
    pose proof (uncovered_le_scope gen) as Hscope.
    destruct (regenerate_loops ext (N - 1) σ gen Hg Hnil) as (n & r1 & Hn & Hlooped & Hfuel);
      [lia|].
    assert (∀ fuel, N ≤ fuel → regenerate fuel ext σ = r1) as Hr1
      by (intros fuel ?; apply Hfuel; lia).
    destruct r1 as [[[ts|] σ1]|msg|msg]; [|by destruct (looped_ends _ _ _ _ Hlooped σ1)|..].
    + pose proof (regenerate_runs ext N σ (Some ts) σ1 (Hr1 N (le_n N))) as Hruns.
      set (σ2 := {| gens := gens σ1;
                    stdout := (stdout σ1 +:+
                      ("// The code below is generated from " +:+ strings.TrimPrefix dir "./" +:+
                       "." +:+ strings.nl +:+ strings.nl)) +:+
                      (TypescriptTypes_String ts +:+ strings.nl +:+ strings.nl) |}).
      destruct (IH σ2) as (r & Hr & Hrest).
      { intros dir' ext' Hin. destruct (Hexts dir' ext') as (gen' & Hg' & ? & ?); [by right|].
        destruct (runs_external σ σ1 ext' gen' Hruns Hg') as (gen1 & ? & Hpkg & Hext).
        exists gen1. simpl. rewrite Hpkg, Hext. done. }
      exists r. split; [done|]. intros fuel Hle.
      unfold bind at 1. rewrite (Hr1 fuel Hle). by apply Hrest.
    + exists (Err msg). split; [done|]. intros fuel Hle.
      unfold bind at 1. by rewrite (Hr1 fuel Hle).
    + exists (Panic msg). split; [done|]. intros fuel Hle.
      unfold bind at 1. by rewrite (Hr1 fuel Hle).
Qed.

(** X12. [main] terminates.  Once the passes that each regeneration
    loop is allowed exceed the number of declarations of the largest
    external package, the outcome of [main] no longer depends on that
    number, and it is never the interrupted run: every regeneration
    loop ends by itself, for all external and base packages and every
    outcome of the base directories. *)
Theorem main_terminates extPkgs basePkgs σ :
  ∃ r, (∀ σ', r ≠ Ok (false, σ')) ∧
       ∀ fuel, max_list_with (λ p, size (pkg_Scope p)) extPkgs < fuel →
               main fuel extPkgs basePkgs σ = r.
Proof.
  set (N := S (max_list_with (λ p, size (pkg_Scope p)) extPkgs)).
  set (σ1 := {| gens := gens σ ++ (externalGenerator <$> extPkgs); stdout := stdout σ |}).
  set (σ2 := {| gens := gens σ1;
                stdout := stdout σ1 +:+
                  ("// Code generated by 'make site/src/api/typesGenerated.ts'. DO NOT EDIT." +:+
                   strings.nl +:+ strings.nl) |}).
  set (external := seq (length (gens σ)) (length extPkgs)).
  assert (∀ fuel, main fuel extPkgs basePkgs σ =
            (mainBases (zip baseDirs basePkgs) external ;;
             mainRegenerate fuel (zip externalTypePkgs external)) σ2) as Hmain.
  { intros fuel. unfold main. unfold bind at 1. rewrite mainExternals_Ok. done. }
  destruct (mainBases (zip baseDirs basePkgs) external σ2) as [[u σ3]|msg|msg] eqn:Hbases.
  - destruct (mainRegenerate_terminates N (zip externalTypePkgs external) σ3)
      as (r & Hr & Hfuel).
    { intros dir ext Hin%elem_of_zip_r.
      apply elem_of_seq in Hin as [Hlo Hhi].
      destruct (lookup_lt_is_Some_2 extPkgs (ext - length (gens σ))) as [p Hp]; [lia|].
      assert (gens σ2 !! ext = Some (externalGenerator p)) as Hext.
      { simpl. rewrite lookup_app_r by done. by rewrite list_lookup_fmap, Hp. }
      apply mainBases_runs in Hbases.
      destruct (runs_external σ2 σ3 ext _ Hbases Hext) as (gen3 & ? & Hpkg & Hnil).
      exists gen3. split; [done|]. split; [done|]. rewrite Hpkg. simpl.
      unfold N. apply Nat.lt_succ_r.
      apply list_elem_of_lookup_2 in Hp. clear -Hp.
      induction Hp; simpl; lia. }
    exists r. split; [done|]. intros fuel Hlt.
    rewrite Hmain. unfold bind at 1. rewrite Hbases. apply Hfuel. unfold N. lia.
  - exists (Err msg). split; [done|]. intros fuel _.
    rewrite Hmain. unfold bind at 1. by rewrite Hbases.
  - exists (Panic msg). split; [done|]. intros fuel _.
    rewrite Hmain. unfold bind at 1. by rewrite Hbases.
Qed.

End Main.

(** ** Where the blocks of a pass come from *)

Section Blocks.
Context {L : Library} {O : MapOrder}.

Lemma generateNames_grows g scope names m : keeps grows (generateNames g scope names m).
Proof.
  apply (generateNames_keeps grows appendAllowList_grows setBuiltin_grows print_grows g).
Qed.

Lemma generateOne_built g m obj σ m' σ' :
  generateOne g m obj σ = Ok (m', σ') →
  ∀ key block, maps.Structs m' !! key = Some block →
    maps.Structs m !! key = Some block ∨
    (key = objName (types.obj_Pkg (types.info obj)) (types.obj_Name (types.info obj)) ∧
     builtBy g obj block σ σ').
Proof.
  unfold generateOne.
  destruct (types.Type' obj) as [ty|] eqn:Hty; [|intros [<- <-]%ret_Ok; auto].
  case_bool_decide as Hign; [intros [<- <-]%ret_Ok; auto|].
  rewrite bind_Ok. intros (gen0 & σ1 & [_ ->]%deref_Ok & H).
  destruct (_ && _ && _) eqn:Hguard; [apply ret_Ok in H as [<- <-]; auto|].
  destruct obj as [o ty'|o ty'|o ty' val|o ty'|o ty']; simpl in *.
  - subst ty'.
    destruct ty as [| | | | |n targs underNamed| | | | | |]; try done.
    destruct underNamed as [| | | | | | |empty embeddeds| | | |]; try done.
    all: try (apply ret_Ok in H as [<- <-]; by auto).
    all: try (destruct embeddeds as [|embedded [|]];
              try (apply ret_Ok in H as [<- <-]; by auto)).
    all: apply bind_Ok in H as (x & σ2 & Hrun%wrap_Ok & [<- <-]%ret_Ok).
    all: intros key block; simpl; try by auto.
    all: destruct (decide (objName (types.obj_Pkg o) (types.obj_Name o) = key)) as [<-|Hne];
      [rewrite lookup_insert_eq; intros [= <-]; right; split; [done|]
      |rewrite lookup_insert_ne by done; by auto].
    + done.
    + by exists x.
    + by exists x.
    + by exists x.
  - apply ret_Ok in H as [<- <-]. auto.
  - destruct ty as [| | | | |n targs underNamed| | | | | |];
      try (apply ret_Ok in H as [<- <-]; by auto).
    apply bind_Ok in H as (x & σ2 & _ & [<- _]%ret_Ok). auto.
  - apply ret_Ok in H as [<- <-]. auto.
  - apply bind_Ok in H as (x & σ2 & _ & [<- _]%ret_Ok). auto.
Qed.

Lemma generateNames_built g scope names : ∀ m σ m' σ',
  generateNames g scope names m σ = Ok (m', σ') →
  ∀ key block, maps.Structs m' !! key = Some block →
    maps.Structs m !! key = Some block ∨
    ∃ n obj σa σb,
      n ∈ names ∧ scope !! n = Some obj ∧
      key = objName (types.obj_Pkg (types.info obj)) (types.obj_Name (types.info obj)) ∧
      grows σ σa ∧ grows σb σ' ∧ builtBy g obj block σa σb.
Proof.
  induction names as [|n names IH]; intros m σ m' σ'; simpl.
  - intros [<- <-]%ret_Ok. auto.
  - rewrite bind_Ok. intros (m1 & σ1 & H1 & Hrest) key block Hkey.
    pose proof (generateNames_grows g scope names m1 σ1 m' σ' Hrest) as Hgrest.
    assert (grows σ σ1) as Hg1.
    { unfold types.Lookup in H1. destruct (scope !! n) as [obj|].
      - apply wrap_Ok in H1. by eapply generateOne_grows.
      - apply ret_Ok in H1 as [_ <-]. reflexivity. }
    destruct (IH m1 σ1 m' σ' Hrest key block Hkey)
      as [Hk1|(n' & obj & σa & σb & ? & ? & ? & ? & ? & ?)].
    + unfold types.Lookup in H1. destruct (scope !! n) as [obj|] eqn:Hn.
      * apply wrap_Ok in H1.
        destruct (generateOne_built g m obj σ m1 σ1 H1 key block Hk1) as [?|[? ?]];
          [by left|].
        right. exists n, obj, σ, σ1. split; [by left|]. split; [done|]. split; [done|].
        split; [reflexivity|]. by split.
      * apply ret_Ok in H1 as [<- <-]. by left.
    + right. exists n', obj, σa, σb. split; [by right|]. split; [done|]. split; [done|].
      split; [by etrans|]. by split.
Qed.

(** X13. Every block of the records comes from the declaration it is
    named after.  A block that a pass returns among its records is
    keyed by [objName] of a type declaration of the scope, and it is
    what the record builder returned for that declaration, if it is a
    struct, or the line made of the mapped type, if it is a map, an
    array or a slice; the builder or the mapper ran during the pass,
    from a state that the pass start [grows] into, to one that grows
    into the state at the end. *)
Theorem record_block_is_built_from_its_declaration g σ gen ts σ' key block :
  gens σ !! g = Some gen →
  generateAll g σ = Ok (ts, σ') →
  Types ts !! key = Some block →
  ∃ n obj σa σb,
    pkg_Scope (pkg gen) !! n = Some obj ∧
    key = objName (types.obj_Pkg (types.info obj)) (types.obj_Name (types.info obj)) ∧
    grows σ σa ∧ grows σb σ' ∧ builtBy g obj block σa σb.
Proof.
  intros Hg (gen0 & m & gen' & Hg0 & Hnames & Hg' & ->)%generateAll_Ok Hkey.
  rewrite Hg in Hg0. injection Hg0 as <-. simpl in Hkey.
  destruct (generateNames_built g _ _ _ _ _ _ Hnames key block Hkey)
    as [Hinit|(n & obj & σa & σb & _ & ? & ? & ? & ? & ?)].
  - simpl in Hinit. by rewrite lookup_empty in Hinit.
  - by exists n, obj, σa, σb.
Qed.

(** ** The constants of an enum *)

Lemma generateOne_consts g m obj σ m' σ' :
  generateOne g m obj σ = Ok (m', σ') →
  maps.IgnoredTypes m' = maps.IgnoredTypes m ∧
  (∀ key v, maps.Enums m' !! key = Some v →
     maps.Enums m !! key = Some v ∨
     (v = obj ∧ key = objName (types.obj_Pkg (types.info obj)) (types.obj_Name (types.info obj)))) ∧
  ∀ key,
    default [] (maps.EnumConsts m' !! key) =
    default [] (maps.EnumConsts m !! key) ++
    (if isConstOf (maps.IgnoredTypes m) key obj then [obj] else []).
Proof.
  unfold generateOne.
  destruct (types.Type' obj) as [ty|] eqn:Hty.
  2: { intros [<- <-]%ret_Ok. split; [done|]. split; [by auto|]. intros key.
       destruct obj as [| |o [ty|] val| |]; try done; simpl; by rewrite app_nil_r. }
  case_bool_decide as Hign.
  { intros [<- <-]%ret_Ok. split; [done|]. split; [by auto|]. intros key.
    destruct obj as [| |o ty' val| |]; simpl; try by rewrite app_nil_r.
    simpl in Hign. destruct ty' as [[]|]; simpl; try by rewrite app_nil_r.
    rewrite bool_decide_eq_false_2 by (by intros ?). simpl. by rewrite app_nil_r. }
  rewrite bind_Ok. intros (gen0 & σ1 & [_ ->]%deref_Ok & H).
  destruct (_ && _ && _) eqn:Hguard.
  { apply ret_Ok in H as [<- <-]. split; [done|]. split; [by auto|]. intros key.
    destruct obj as [| |o ty' val| |]; simpl; try by rewrite app_nil_r.
    simpl in Hguard. by rewrite andb_false_r in Hguard. }
  destruct obj as [o ty'|o ty'|o ty' val|o ty'|o ty']; simpl in *.
  - destruct ty as [| | | | |n targs underNamed| | | | | |]; try done.
    destruct underNamed as [| | | | | | |empty embeddeds| | | |]; try done.
    all: try (destruct embeddeds as [|embedded [|]]).
    all: try apply bind_Ok in H as (x & σ2 & _ & H).
    all: apply ret_Ok in H as [<- _]; simpl.
    all: split; [done|]; split; [|intros key; by rewrite app_nil_r].
    all: intros key v; try by auto.
    destruct (decide (objName (types.obj_Pkg o) (types.obj_Name o) = key)) as [<-|Hne];
      [rewrite lookup_insert_eq; intros [= <-]; by right
      |rewrite lookup_insert_ne by done; by auto].
  - apply ret_Ok in H as [<- <-]. split; [done|]. split; [by auto|].
    intros key. by rewrite app_nil_r.
  - subst ty'.
    destruct ty as [| | | | |n targs underNamed| | | | | |];
      try (apply ret_Ok in H as [<- <-]; split; [done|]; split; [by auto|];
           intros key; simpl; by rewrite app_nil_r).
    apply bind_Ok in H as (enumObjName & σ2 & Hname & [<- _]%ret_Ok).
    split; [done|]. split; [by auto|]. intros key. simpl.
    rewrite bool_decide_eq_true_2 by done. simpl.
    unfold objNameOf in Hname. destruct (types.tn_Pkg (types.n_Obj n)) as [pkgName|]; [|done].
    apply ret_Ok in Hname as [<- _].
    destruct (decide (objName pkgName (types.tn_Name (types.n_Obj n)) = key)) as [<-|Hne].
    + by rewrite lookup_insert_eq, bool_decide_eq_true_2.
    + rewrite lookup_insert_ne, bool_decide_eq_false_2 by done. by rewrite app_nil_r.
  - apply ret_Ok in H as [<- <-]. split; [done|]. split; [by auto|].
    intros key. by rewrite app_nil_r.
  - apply bind_Ok in H as (x & σ2 & _ & [<- _]%ret_Ok). split; [done|]. split; [by auto|].
    intros key. by rewrite app_nil_r.
Qed.

Lemma generateNames_consts g scope names : ∀ m σ m' σ',
  generateNames g scope names m σ = Ok (m', σ') →
  maps.IgnoredTypes m' = maps.IgnoredTypes m ∧
  (∀ key v, maps.Enums m' !! key = Some v →
     maps.Enums m !! key = Some v ∨
     ∃ n, n ∈ names ∧ scope !! n = Some v ∧
          key = objName (types.obj_Pkg (types.info v)) (types.obj_Name (types.info v))) ∧
  ∀ key,
    default [] (maps.EnumConsts m' !! key) =
    default [] (maps.EnumConsts m !! key) ++ constsFor scope (maps.IgnoredTypes m) key names.
Proof.
  induction names as [|n names IH]; intros m σ m' σ'; simpl.
  - intros [<- <-]%ret_Ok. split; [done|]. split; [by auto|]. intros key.
    by rewrite app_nil_r.
  - rewrite bind_Ok. intros (m1 & σ1 & H1 & Hrest).
    destruct (IH m1 σ1 m' σ' Hrest) as (Hi & He & Hc).
    unfold constsFor. simpl. unfold types.Lookup in H1.
    destruct (scope !! n) as [obj|] eqn:Hn.
    + apply wrap_Ok in H1.
      destruct (generateOne_consts g m obj σ m1 σ1 H1) as (Hi1 & He1 & Hc1).
      split; [congruence|]. split.
      * intros key v Hv. destruct (He key v Hv) as [Hv1|(n' & ? & ? & ?)].
        -- destruct (He1 key v Hv1) as [?|[-> ->]]; [by left|].
           right. exists n. split; [by left|]. done.
        -- right. exists n'. split; [by right|]. done.
      * intros key. rewrite Hc, Hc1, Hi1, <-app_assoc. f_equal.
        by destruct (isConstOf _ _ _).
    + apply ret_Ok in H1 as [<- <-]. split; [done|]. split.
      * intros key v Hv. destruct (He key v Hv) as [?|(n' & ? & ? & ?)]; [by left|].
        right. exists n'. split; [by right|]. done.
      * intros key. by rewrite Hc.
Qed.

(** X14. An enum lists the constants of its type.  The block of an enum
    that a pass returns is the enum block of a declaration of the scope
    with that [objName], made from the constants of the scope whose
    named type has that [objName] and whose own name is not ignored,
    taken in the order of the scope's names: the allow list does not
    filter constants, the ignore list does. *)
Theorem enum_lists_the_constants_of_its_type g σ gen ts σ' key block :
  gens σ !! g = Some gen →
  generateAll g σ = Ok (ts, σ') →
  Enums ts !! key = Some block →
  ∃ n v,
    pkg_Scope (pkg gen) !! n = Some v ∧
    key = objName (types.obj_Pkg (types.info v)) (types.obj_Name (types.info v)) ∧
    block =
    enumCodeBlock (posLine (types.info v)) key
      (constsFor (pkg_Scope (pkg gen)) (maps.IgnoredTypes (initialMaps gen)) key
                 (types.Names (pkg_Scope (pkg gen)))).
Proof.
  intros Hg (gen0 & m & gen' & Hg0 & Hnames & Hg' & ->)%generateAll_Ok Hkey.
  rewrite Hg in Hg0. injection Hg0 as <-. simpl in Hkey.
  rewrite enumsLoop_mapRange in Hkey.
  destruct (maps.Enums m !! key) as [v|] eqn:Hv; [|done]. injection Hkey as <-.
  destruct (generateNames_consts g _ _ _ _ _ _ Hnames) as (_ & He & Hc).
  destruct (He key v Hv) as [Hinit|(n & _ & ? & ?)].
  - simpl in Hinit. by rewrite lookup_empty in Hinit.
  - exists n, v. split; [done|]. split; [done|]. by rewrite Hc.
Qed.

End Blocks.

(** ** Builtin constraints *)

Section Builtins.
Context {L : Library} {O : MapOrder}.

Lemma fieldLine_grows g obj field fields used : keeps grows (fieldLine g obj field fields used).
Proof.
  apply (fieldLine_keeps grows appendAllowList_grows setBuiltin_grows g).
Qed.

Lemma generateOne_filters g m obj σ m' σ' :
  generateOne g m obj σ = Ok (m', σ') →
  maps.IgnoredTypes m' = maps.IgnoredTypes m ∧ maps.AllowedTypes m' = maps.AllowedTypes m.
Proof.
  unfold generateOne.
  destruct (types.Type' obj) as [ty|]; [|by intros [<- _]%ret_Ok].
  case_bool_decide as Hign; [by intros [<- _]%ret_Ok|].
  rewrite bind_Ok. intros (gen0 & σ0 & _ & H).
  destruct (_ && _ && _); [by apply ret_Ok in H as [<- _]|].
  destruct obj as [o ty'|o ty'|o ty' val|o ty'|o ty'].
  - destruct ty as [| | | | |nm targs underNamed| | | | | |]; try done.
    destruct underNamed as [| | | | | | |empty embeddeds| | | |]; try done.
    all: try (destruct embeddeds as [|embedded [|]]).
    all: try apply bind_Ok in H as (x & σ2 & _ & H).
    all: by apply ret_Ok in H as [<- _].
  - by apply ret_Ok in H as [<- _].
  - destruct ty as [| | | | |nm targs underNamed| | | | | |];
      try by apply ret_Ok in H as [<- _].
    by apply bind_Ok in H as (x & σ2 & _ & [<- _]%ret_Ok).
  - by apply ret_Ok in H as [<- _].
  - by apply bind_Ok in H as (x & σ2 & _ & [<- _]%ret_Ok).
Qed.

(** A declaration of the scope is run through [generateOne] in the
    course of the pass. *)
Lemma generateNames_ran g scope names : ∀ m σ m' σ' n obj,
  generateNames g scope names m σ = Ok (m', σ') →
  n ∈ names → scope !! n = Some obj →
  ∃ ma σa mb σb,
    generateOne g ma obj σa = Ok (mb, σb) ∧ grows σ σa ∧ grows σb σ' ∧
    maps.IgnoredTypes ma = maps.IgnoredTypes m ∧ maps.AllowedTypes ma = maps.AllowedTypes m.
Proof.
  induction names as [|n0 names IH]; intros m σ m' σ' n obj; simpl;
    [by intros _ ?%elem_of_nil|].
  rewrite bind_Ok. intros (m1 & σ1 & H1 & Hrest) Hin Hn.
  pose proof (generateNames_grows g scope names m1 σ1 m' σ' Hrest) as Hgrest.
  destruct (decide (n0 = n)) as [->|Hne].
  - unfold types.Lookup in H1. rewrite Hn in H1. apply wrap_Ok in H1.
    exists m, σ, m1, σ1. split; [done|]. split; [reflexivity|]. by split.
  - apply elem_of_cons in Hin as [?|Hin]; [done|].
    assert (grows σ σ1 ∧ maps.IgnoredTypes m1 = maps.IgnoredTypes m ∧
            maps.AllowedTypes m1 = maps.AllowedTypes m) as (Hg1 & Hi1 & Ha1).
    { unfold types.Lookup in H1. destruct (scope !! n0) as [obj0|].
      - apply wrap_Ok in H1. split; [by eapply generateOne_grows|].
        by eapply generateOne_filters.
      - apply ret_Ok in H1 as [<- <-]. split; [reflexivity|]. done. }
    destruct (IH m1 σ1 m' σ' n obj Hrest Hin Hn) as (ma & σa & mb & σb & ? & ? & ? & ? & ?).
    exists ma, σa, mb, σb. split; [done|]. split; [by etrans|]. split; [done|].
    split; congruence.
Qed.

(** A field of the list is run through [fieldLine] in the course of the
    loop. *)
Lemma fieldLines_ran g obj st : ∀ fields used σ r σ' field,
  fieldLines g obj st fields used σ = Ok (r, σ') → field ∈ st →
  ∃ fields0 used0 σa r0 σb,
    fieldLine g obj field fields0 used0 σa = Ok (r0, σb) ∧ grows σ σa ∧ grows σb σ'.
Proof.
  induction st as [|f st IH]; intros fields used σ r σ' field; simpl;
    [by intros _ ?%elem_of_nil|].
  rewrite bind_Ok. intros (r1 & σ1 & H1 & Hrest) Hin.
  pose proof (fieldLine_grows g obj f fields used σ r1 σ1 H1) as Hg1.
  apply elem_of_cons in Hin as [->|Hin].
  - exists fields, used, σ, r1, σ1. split; [done|]. split; [reflexivity|].
    revert Hrest. clear. revert r1 σ1. generalize dependent st.
    induction st as [|f' st IH]; intros r1 σ1; simpl.
    + intros [_ <-]%ret_Ok. reflexivity.
    + rewrite bind_Ok. intros (r2 & σ2 & H2 & Hrest).
      etrans; [by eapply fieldLine_grows|by eapply IH].
  - destruct (IH r1.1 r1.2 σ1 r σ' field Hrest Hin) as (f0 & u0 & σa & r0 & σb & ? & ? & ?).
    exists f0, u0, σa, r0, σb. split; [done|]. split; [by etrans|done].
Qed.

(** X15. A builtin constraint that a record uses is emitted.  Let a
    struct declaration of the scope pass the filters and have a field
    that the record builder maps (exported, not extended, not named [-]
    by its json tag) whose type is a type parameter; let the name of
    its constraint be declared nowhere in the scope and be a builtin
    with a text ([comparable]).  Then every pass that returns has the
    text of the builtin among its generics, under the constraint's
    name. *)
Theorem used_builtin_constraint_is_emitted g σ gen ts σ' n o nm targs fields field tags tp :
  gens σ !! g = Some gen →
  generateAll g σ = Ok (ts, σ') →
  pkg_Scope (pkg gen) !! n
  = Some (types.OTypeName o (Some (types.TNamed nm targs (types.TStruct fields)))) →
  admitted (onlyOptIn gen) (initialMaps gen) (types.obj_Name o) →
  field ∈ fields → isExtended field = false →
  types.var_Exported (types.f_Var field) = true →
  fieldTags field = Some tags →
  tag_Name <$> tagsGet tags "json" ≠ Some "-" →
  types.f_Type field = types.TTypeParam tp →
  types.tp_UnderlyingInterface tp = true →
  let name := strings.TrimPrefix (types.tp_Constraint tp) (types.tp_PkgPath tp +:+ ".") in
  pkg_Scope (pkg gen) !! name = None →
  (isBuiltIn name).1 = true → (isBuiltIn name).2 ≠ "" →
  Generics ts !! name = Some (isBuiltIn name).2.
Proof.
  intros Hg (gen0 & m & gen' & Hg0 & Hnames & Hg' & ->)%generateAll_Ok Hn Hadm
    Hin Hext Hexp Htags Hjson Hty Hiface name Hscope Hincl Htext.
  rewrite Hg in Hg0. injection Hg0 as <-. simpl.
  (* the declaration is generated *)
  destruct (generateNames_ran g _ _ _ _ _ _ n
              (types.OTypeName o (Some (types.TNamed nm targs (types.TStruct fields))))
              Hnames) as (ma & σa & mb & σb & Hone & Hga & Hgb & Hia & Haa); [|done|].
  { apply elem_of_Names. by rewrite Hn. }
  destruct (grows_onlyOptIn g σ σa gen Hga Hg) as (gena & Hgena & Hopta & Hpkga).
  assert (∃ block, buildStruct g
            (types.OTypeName o (Some (types.TNamed nm targs (types.TStruct fields))))
            fields σa = Ok (block, σb)) as [block Hbuild].
  { revert Hone. unfold generateOne. simpl.
    destruct Hadm as [Hign Hallow].
    rewrite bool_decide_eq_false_2 by by rewrite Hia.
    rewrite bind_Ok. intros (gen0 & σ0 & [Hgen0 ->]%deref_Ok & H).
    rewrite Hgena in Hgen0. injection Hgen0 as <-.
    assert ((bool_decide (maps.AllowedTypes ma ≠ ∅) || onlyOptIn gena) &&
            negb (bool_decide (types.obj_Name o ∈ maps.AllowedTypes ma)) && true = false)
      as Hguard.
    { rewrite andb_true_r, Haa, Hopta. apply andb_false_iff.
      destruct (bool_decide (maps.AllowedTypes (initialMaps gen) ≠ ∅) || onlyOptIn gen)
        eqn:Hor; [|by left].
      right. apply negb_false_iff, bool_decide_eq_true, Hallow.
      apply orb_true_iff in Hor as [Hne%bool_decide_eq_true|Hopt]; [by left|right].
      by rewrite Hopt. }
    rewrite Hguard in H.
    apply bind_Ok in H as (codeBlock & σ2 & Hb%wrap_Ok & [_ <-]%ret_Ok). by exists codeBlock. }
  (* its field is mapped *)
  rewrite buildStruct_unfold, bind_Ok in Hbuild.
  destruct Hbuild as ([lines used] & σc & Hlines & Hparams). simpl in Hparams.
  apply bind_Ok in Hparams as (generics & σd & [-> _]%paramsLoop_Ok & [_ <-]%ret_Ok).
  destruct (fieldLines_ran g _ _ _ _ _ _ _ field Hlines)
    as (fields0 & used0 & σ1 & r0 & σ2 & Hline & Hg1 & Hg2).
  { apply list_elem_of_filter. split; [|done]. simpl. rewrite Hext. tauto. }
  assert (grows σ σ1) as Hs1 by by etrans.
  destruct (grows_onlyOptIn g σ σ1 gen Hs1 Hg) as (gen1 & Hgen1 & _ & Hpkg1).
  assert (∃ gen2, gens σ2 !! g = Some gen2 ∧
                  builtins gen2 !! name = Some (isBuiltIn name).2) as (gen2 & Hgen2 & Hb2).
  { revert Hline. unfold fieldLine. unfold fieldTags in Htags.
    destruct (structtag_Parse (types.f_Tag field)) as [[tags'|]|]; try done.
    simpl in Htags. injection Htags as ->. rewrite Hexp. simpl.
    rewrite bool_decide_eq_false_2 by done.
    rewrite bind_Ok. intros (tsType & σ3 & Hmap%wrap_Ok & Hret).
    assert (σ2 = σ3) as -> by (case_bool_decide; by apply ret_Ok in Hret as [_ <-]).
    revert Hmap. rewrite Hty. simpl. rewrite Hiface. simpl.
    rewrite bind_Ok. intros (gen0 & σ0 & [Hgen0 ->]%deref_Ok & H).
    rewrite Hgen1 in Hgen0. injection Hgen0 as <-.
    unfold types.Lookup in H. fold name in H. rewrite Hpkg1, Hscope in H.
    destruct (isBuiltIn name) as [include builtinString] eqn:Hb. simpl in *. subst include.
    simpl in H. apply bind_Ok in H as (u & σ4 & Hset & [_ <-]%ret_Ok).
    revert Hset. unfold setBuiltin. rewrite bind_Ok.
    intros (gen0 & σ0 & [Hgen0 ->]%deref_Ok & ->%store_Ok).
    eexists. simpl. rewrite list_lookup_insert_eq by by eapply lookup_lt_Some.
    split; [done|]. simpl. by rewrite lookup_insert_eq. }
  (* the builtin stays registered to the end of the pass *)
  assert (grows σ2 σ') as (_ & _ & Hend) by (etrans; [exact Hg2|exact Hgb]).
  destruct (Hend g gen2 Hgen2) as (gen3 & Hgen3 & _ & _ & _ & _ & _ & _ & Hkeep).
  rewrite Hg' in Hgen3. injection Hgen3 as <-.
  rewrite addBuiltins_mapRange, (Hkeep name Hb2).
  by rewrite bool_decide_eq_true_2.
Qed.

End Builtins.

(** ** [Generate] *)

Section Generate.
Context {L : Library} {O : MapOrder}.

(** X16. [Generate] renders one pass of a fresh generator.  It puts a
    generator for the package, not opt-in and with an empty allow list,
    after the generators of the heap and runs [generateAll] on it.  If
    the pass returns, [Generate] returns the text of its blocks, and
    the new generator, still there with its package and its externals,
    holds the blocks as its cached result: reading the cached result
    back cannot fail.  If the pass fails, [Generate] fails with that
    error under the name of the directory; if it panics, so does
    [Generate]. *)
Theorem Generate_renders_a_fresh_pass directory p exts σ :
  let g := length (gens σ) in
  let σ0 := {| gens := gens σ ++ [parsedGenerator p exts]; stdout := stdout σ |} in
  (∀ ts σ1, generateAll g σ0 = Ok (ts, σ1) →
     ∃ gen1,
       gens σ1 !! g = Some gen1 ∧ pkg gen1 = p ∧ externals gen1 = exts ∧
       Generate directory p exts σ =
       Ok (TypescriptTypes_String ts,
           {| gens := <[g := withCachedResult gen1 ts]> (gens σ1); stdout := stdout σ1 |})) ∧
  (∀ msg, generateAll g σ0 = Err msg →
     Generate directory p exts σ =
     Err ("generate package " +:+ Quote directory +:+ ": " +:+ msg)) ∧
  (∀ msg, generateAll g σ0 = Panic msg → Generate directory p exts σ = Panic msg).
Proof.
  intros g σ0.
  assert (Generate directory p exts σ =
    match generateAll g σ0 with
    | Ok (ts, σ1) =>
        (setCachedResult g ts ;;
         gen <- deref g ;;
         match cachedResult gen with
         | Some ts => ret (TypescriptTypes_String ts)
         | None => panic "runtime error: invalid memory address or nil pointer dereference"
         end) σ1
    | Err msg => Err ("generate package " +:+ Quote directory +:+ ": " +:+ msg)
    | Panic msg => Panic msg
    end) as Hgen.
  { unfold Generate, GenerateFromDirectory, σ0, g, parsedGenerator.
    unfold bind at 1 2. rewrite newGenerator_Ok.
    unfold bind at 1, wrap.
    destruct (generateAll _ _) as [[ts σ1]|msg|msg]; [|by rewrite !string_app_assoc|done].
    unfold bind at 1 3. destruct (setCachedResult _ ts σ1) as [[u σ2]|msg|msg]; done. }
  split; [|split].
  - intros ts σ1 Hall. rewrite Hgen, Hall.
    destruct (generateAll_grows g σ0 ts σ1 Hall) as (_ & _ & Hkeep).
    destruct (Hkeep g (parsedGenerator p exts)) as (gen1 & Hg1 & Hpkg & _ & Hext & _).
    { unfold σ0, g. simpl. rewrite lookup_app_r by done. by rewrite Nat.sub_diag. }
    exists gen1. split; [done|]. split; [done|]. split; [done|].
    unfold bind at 1, setCachedResult, bind at 1, deref at 1. rewrite Hg1.
    unfold store, bind, deref. simpl.
    rewrite list_lookup_insert_eq by by eapply lookup_lt_Some. done.
  - intros msg Hall. by rewrite Hgen, Hall.
  - intros msg Hall. by rewrite Hgen, Hall.
Qed.

End Generate.

(** ** References to generic types *)

Section GenericReference.
Context {L : Library} {O : MapOrder}.

Lemma typeArgs_binds mapper objName0 args : ∀ cs ns gts σ cs' ns' gts' σ',
  typeArgs mapper objName0 args cs ns gts σ = Ok ((cs', ns', gts'), σ') →
  length cs' = length cs + length args ∧
  length ns' = length ns + length args ∧
  ∀ k, is_Some (gts' !! k) ↔
       is_Some (gts !! k) ∨ ∃ tp, types.TTypeParam tp ∈ args ∧ types.tp_Name tp = k.
Proof.
  induction args as [|a args IH]; intros cs ns gts σ cs' ns' gts' σ'; simpl.
  - intros [[= <- <- <-] _]%ret_Ok. split; [lia|]. split; [lia|].
    intros k. split; [by left|]. intros [?|(tp & Hin & _)]; [done|].
    by apply elem_of_nil in Hin.
  - rewrite bind_Ok. intros (genType & σ1 & _ & H).
    assert (∀ cs1 ns1 gts1,
      length cs1 = S (length cs) → length ns1 = S (length ns) →
      (∀ k, is_Some (gts1 !! k) ↔
            is_Some (gts !! k) ∨ ∃ tp, a = types.TTypeParam tp ∧ types.tp_Name tp = k) →
      typeArgs mapper objName0 args cs1 ns1 gts1 σ1 = Ok ((cs', ns', gts'), σ') →
      length cs' = length cs + S (length args) ∧
      length ns' = length ns + S (length args) ∧
      ∀ k, is_Some (gts' !! k) ↔
           is_Some (gts !! k) ∨
           ∃ tp, types.TTypeParam tp ∈ a :: args ∧ types.tp_Name tp = k) as Hstep.
    { intros cs1 ns1 gts1 Hcs Hns Hgts Hrest.
      apply IH in Hrest as (Hc & Hn & Hk). split; [lia|]. split; [lia|].
      intros k. rewrite Hk, Hgts. split.
      - intros [[?|(tp & -> & ?)]|(tp & ? & ?)]; [by left|right..].
        + exists tp. split; [by left|done].
        + exists tp. split; [by right|done].
      - intros [?|(tp & [<-|?]%elem_of_cons & ?)]; [by left; left| |].
        + left. right. by exists tp.
        + right. by exists tp. }
    destruct a; apply Hstep in H; try done; try (rewrite length_app; simpl; lia).
    all: try (intros k; split; [by left|]; by intros [?|(tp0 & ? & ?)]).
    intros k. rewrite lookup_insert_is_Some'. split.
    + intros [<-|?]; [right; by eexists|by left].
    + intros [?|(tp0 & [= <-] & <-)]; [by right|by left].
Qed.

Lemma string_app_not_empty (s : string) (c : ascii) (t : string) : s +:+ String c t ≠ "".
Proof. destruct s; [by rewrite string_app_nil_l|by rewrite string_app_cons]. Qed.

(** X17. A reference to a generic type binds the parameters it is
    given.  When the mapper returns on a named type with type arguments
    that is not hard coded and that [lookupNamedReference] resolves, the
    mapped type has a generic value, so that the record builder gathers
    its bindings, and it binds exactly the names of the arguments that
    are type parameters. *)
Theorem generic_reference_binds_its_parameters g n targs underlying σ found ts σ' :
  assoc namedTable (types.n_String n) = None →
  serpentStruct (types.n_String n) = false →
  lookupNamedReference g n σ = Ok (Some found, σ) →
  targs ≠ [] →
  typescriptType g (types.TNamed n targs underlying) σ = Ok (ts, σ') →
  GenericValue ts ≠ "" ∧
  ∃ gts, GenericTypes ts = Some gts ∧
    ∀ k, is_Some (gts !! k) ↔ ∃ tp, types.TTypeParam tp ∈ targs ∧ types.tp_Name tp = k.
Proof.
  intros Htable Hserpent Hfound Hargs. simpl. unfold namedType. rewrite Htable, Hserpent.
  unfold namedReference. rewrite bind_Ok.
  intros (objName0 & σ0 & ->%objNameOf_Ok & H1).
  apply bind_Ok in H1 as (found' & σ1 & Hl & H2).
  rewrite Hfound in Hl. injection Hl as <- <-.
  destruct found as [[obj objGen] local].
  apply bind_Ok in H2 as (gen & σ2 & _ & H3).
  apply bind_Ok in H3 as (u1 & σ3 & _ & H4).
  apply bind_Ok in H4 as (u2 & σ4 & _ & H5).
  destruct targs as [|a targs']; [done|].
  apply bind_Ok in H5 as ([[cs ns] gts] & σ5 & Hrun & [<- _]%ret_Ok). simpl.
  split; [rewrite string_app_cons, string_app_nil_l; apply string_app_not_empty|].
  exists gts. split; [done|].
  apply typeArgs_binds in Hrun as (_ & _ & Hk). intros k. rewrite Hk.
  rewrite lookup_empty. split; [|by right].
  intros [[? ?]|?]; done.
Qed.

End GenericReference.

(** ** The directives of the comments *)

Section Directives.

Lemma prefix_app needle rest : String.prefix needle (needle +:+ rest) = true.
Proof.
  induction needle as [|a needle IH]; [rewrite string_app_nil_l; by destruct rest|].
  rewrite string_app_cons. simpl. by destruct (ascii_dec a a).
Qed.

Lemma substring_all s : String.substring 0 (String.length s) s = s.
Proof. induction s as [|a s IH]; simpl; [done|]. by rewrite IH. Qed.

Lemma substring_app needle rest :
  String.substring (String.length needle)
                   (String.length (needle +:+ rest) - String.length needle) (needle +:+ rest)
  = rest.
Proof.
  induction needle as [|a needle IH].
  - rewrite string_app_nil_l. simpl. rewrite Nat.sub_0_r. apply substring_all.
  - rewrite string_app_cons. simpl. apply IH.
Qed.

Lemma after_unfold needle s :
  strings.after needle s =
  if String.prefix needle s
  then Some (String.substring (String.length needle)
                              (String.length s - String.length needle) s)
  else match s with
       | "" => None
       | String _ rest => strings.after needle rest
       end.
Proof. by destruct s. Qed.

Lemma after_at needle rest : strings.after needle (needle +:+ rest) = Some rest.
Proof. by rewrite after_unfold, prefix_app, substring_app. Qed.

Lemma after_skip needle c s :
  String.prefix needle (String c s) = false →
  strings.after needle (String c s) = strings.after needle s.
Proof. intros Hp. by rewrite after_unfold, Hp. Qed.

Lemma hasByte_app c s t : hasByte c (s +:+ t) = hasByte c s || hasByte c t.
Proof.
  induction s as [|a s IH]; [by rewrite string_app_nil_l|].
  rewrite string_app_cons. simpl. by rewrite IH, orb_assoc.
Qed.

Lemma line_all s : hasByte (ascii_of_nat 10) s = false → strings.line s = s.
Proof.
  induction s as [|a s IH]; simpl; [done|].
  intros [Ha Hs]%orb_false_iff. apply bool_decide_eq_false in Ha.
  destruct (decide (a = ascii_of_nat 10)); [done|]. by rewrite IH.
Qed.

Lemma Split_single s sep : hasByte sep s = false → strings.Split s sep = [s].
Proof.
  induction s as [|a s IH]; simpl; [done|].
  intros [Ha Hs]%orb_false_iff. apply bool_decide_eq_false in Ha.
  destruct (decide (a = sep)); [done|]. by rewrite IH.
Qed.

Lemma Split_app s sep t :
  hasByte sep s = false →
  strings.Split (s +:+ String sep t) sep = s :: strings.Split t sep.
Proof.
  induction s as [|a s IH].
  - intros _. rewrite string_app_nil_l. simpl. by destruct (decide (sep = sep)).
  - simpl. intros [Ha Hs]%orb_false_iff. apply bool_decide_eq_false in Ha.
    destruct (decide (a = sep)); [done|]. by rewrite IH.
Qed.

Lemma Split_Join names :
  names ≠ [] → Forall (λ s, hasByte ","%char s = false) names →
  strings.Split (strings.Join names ",") ","%char = names.
Proof.
  induction names as [|e names IH]; [done|]. intros _ [He Hall]%Forall_cons.
  destruct names as [|e' names]; simpl.
  - by apply Split_single.
  - rewrite string_app_cons, string_app_nil_l, Split_app by done.
    f_equal. by apply IH.
Qed.

Lemma hasByte_Join c names :
  c ≠ ","%char → Forall (λ s, hasByte c s = false) names →
  hasByte c (strings.Join names ",") = false.
Proof.
  intros Hc. induction names as [|e names IH]; [done|]. intros [He Hall]%Forall_cons.
  destruct names as [|e' names]; simpl; [done|].
  rewrite !hasByte_app, He. simpl. rewrite bool_decide_eq_false_2 by done. simpl.
  by apply IH.
Qed.

(** X18. A directive lists its names.  On a comment line that holds a
    directive marker, with or without a colon after it, followed by
    names separated by commas, the directive lists the names, each
    trimmed of the white space around it: these are the names that
    [generateAll] puts into the ignored or the allowed types.  (A
    name holds no comma and no line feed; without the colon the list
    does not start with one.) *)
Theorem directive_lists_the_names marker (colon : bool) names :
  marker = "@typescript-ignore" ∨ marker = "@typescript-generate" →
  Forall (λ s, hasByte ","%char s = false ∧ hasByte (ascii_of_nat 10) s = false) names →
  strings.Join names "," ≠ "" →
  (colon = false → ∀ rest, strings.Join names "," ≠ String ":"%char rest) →
  directive marker
    ("// " +:+ marker +:+ (if colon then ":" else "") +:+ strings.Join names ",")
  = strings.TrimSpace <$> names.
Proof.
  intros Hmarker Hnames Hjoin Hcolon.
  assert (names ≠ []) as Hne by (by intros ->).
  unfold directive.
  assert (strings.after marker
            ("// " +:+ marker +:+ (if colon then ":" else "") +:+ strings.Join names ",")
          = Some ((if colon then ":" else "") +:+ strings.Join names ",")) as ->.
  { rewrite !string_app_cons, string_app_nil_l.
    rewrite !after_skip by (by destruct Hmarker as [->| ->]).
    apply after_at. }
  assert (match (if colon then ":" else "") +:+ strings.Join names "," with
          | "" => (if colon then ":" else "") +:+ strings.Join names ","
          | String a rest' =>
              if bool_decide (a = ":"%char) then rest'
              else (if colon then ":" else "") +:+ strings.Join names ","
          end = strings.Join names ",") as ->.
  { destruct colon.
    - by rewrite string_app_cons, string_app_nil_l.
    - rewrite string_app_nil_l. destruct (strings.Join names ",") as [|a rest] eqn:Hj; [done|].
      case_bool_decide as Ha; [|done]. subst a. by destruct (Hcolon eq_refl rest). }
  rewrite line_all.
  - rewrite bool_decide_eq_true_2 by done. rewrite Split_Join; [done..|].
    eapply Forall_impl; [exact Hnames|]. by intros s [? _].
  - apply hasByte_Join; [done|]. eapply Forall_impl; [exact Hnames|]. by intros s [_ ?].
Qed.

End Directives.

(** ** How the mapper fails *)

Section Failures.
Context {L : Library} {O : MapOrder}.

Lemma bind_Err {A B} (m : M A) (k : A → M B) σ msg :
  bind m k σ = Err msg ↔ m σ = Err msg ∨ ∃ a σ1, m σ = Ok (a, σ1) ∧ k a σ1 = Err msg.
Proof.
  unfold bind. destruct (m σ) as [[a σ1]| |]; split; try naive_solver.
Qed.

Lemma wrap_Err_inv {A} prefix (m : M A) σ msg :
  wrap prefix m σ = Err msg → ∃ msg0, m σ = Err msg0 ∧ msg = prefix +:+ msg0.
Proof. unfold wrap. destruct (m σ) as [[a σ1]| |]; naive_solver. Qed.

Lemma typeArgs_Err mapper objName0 args :
  (∀ a σ msg, a ∈ args → mapper a σ = Err msg → rejects a msg) →
  ∀ cs ns gts σ msg,
    typeArgs mapper objName0 args cs ns gts σ = Err msg →
    ∃ a msg0, a ∈ args ∧ rejects a msg0 ∧
      msg = "generic field " +:+ Quote objName0 +:+ "<" +:+ Quote (types.TypeString a) +:+
            ">: " +:+ msg0.
Proof.
  induction args as [|a args IH]; intros Hm cs ns gts σ msg; simpl; [done|].
  assert (∀ a' σ msg, a' ∈ args → mapper a' σ = Err msg → rejects a' msg) as Hm'
    by (intros; eapply Hm; [by right|done]).
  rewrite bind_Err. intros [Hw|(genType & σ1 & _ & H)].
  - apply wrap_Err_inv in Hw as (msg0 & H0 & ->). exists a, msg0.
    split; [by left|]. split; [eapply Hm; [by left|done]|].
    by rewrite !string_app_assoc.
  - assert (∃ cs' ns' gts', typeArgs mapper objName0 args cs' ns' gts' σ1 = Err msg)
      as (cs' & ns' & gts' & H') by (destruct a; eauto).
    destruct (IH Hm' _ _ _ _ _ H') as (a' & msg0 & ? & ? & ?).
    exists a', msg0. split; [by right|done].
Qed.

Lemma appendAllowList_not_Err p name σ msg : appendAllowList p name σ ≠ Err msg.
Proof.
  unfold appendAllowList, bind, deref, store. by destruct (gens σ !! p).
Qed.

Lemma lookupExternals_not_Err exts pkgName name : ∀ σ msg,
  lookupExternals exts pkgName name σ ≠ Err msg.
Proof.
  induction exts as [|ext exts IH]; intros σ msg; simpl; [done|].
  unfold bind, deref. destruct (gens σ !! ext) as [e|]; [|done].
  destruct (types.Lookup _ _); [case_bool_decide|]; [done|apply IH..].
Qed.

Lemma namedType_Err mapper g n targs underlying σ msg :
  (∀ σ msg, mapper underlying σ = Err msg → rejects underlying msg) →
  (∀ a σ msg, a ∈ targs → mapper a σ = Err msg → rejects a msg) →
  (∀ f fs σ msg, underlying = types.TStruct (f :: fs) →
     mapper (types.f_Type f) σ = Err msg → rejects (types.f_Type f) msg) →
  namedType mapper g n targs underlying σ = Err msg →
  rejects (types.TNamed n targs underlying) msg.
Proof.
  intros Hu Ha Hf. unfold namedType.
  destruct (assoc _ _) eqn:Htable; [done|].
  assert (namedReference mapper g n targs underlying σ = Err msg →
          rejects (types.TNamed n targs underlying) msg) as Href.
  { unfold namedReference. rewrite bind_Err.
    intros [Hn|(objName0 & σ0 & Hname & H)].
    { unfold objNameOf in Hn. by destruct (types.tn_Pkg _). }
    unfold objNameOf in Hname.
    destruct (types.tn_Pkg (types.n_Obj n)) as [pkgName|] eqn:Hpkg; [|done].
    apply ret_Ok in Hname as [<- <-].
    apply bind_Err in H as [Hl|(found & σ1 & _ & H)].
    { revert Hl. unfold lookupNamedReference. rewrite Hpkg.
      unfold bind, deref. destruct (gens σ !! g) as [gen|]; [|done].
      destruct (types.Lookup _ _); [case_bool_decide|]; [done|..];
        intros Hl; by apply lookupExternals_not_Err in Hl. }
    destruct found as [[[obj objGen] local]|].
    - apply bind_Err in H as [Hd|(gen & σ2 & _ & H)].
      { revert Hd. unfold deref. by destruct (gens σ1 !! g). }
      apply bind_Err in H as [H1|(u1 & σ3 & _ & H)].
      { destruct (_ && _); [by apply appendAllowList_not_Err in H1|done]. }
      apply bind_Err in H as [H2|(u2 & σ4 & _ & H)].
      { destruct (negb local); [by apply appendAllowList_not_Err in H2|done]. }
      destruct targs as [|a targs']; [done|].
      apply bind_Err in H as [Hargs|([[cs ns] gts] & σ5 & _ & H)]; [|done].
      apply typeArgs_Err in Hargs as (a' & msg0 & Hin & Hrej & ->); [|done].
      by eapply rejects_argument.
    - destruct underlying; try done.
      all: apply bind_Err in H as [Hw|(ts & σ2 & _ & H)]; [|by case_bool_decide].
      all: apply wrap_Err_inv in Hw as (msg0 & H0 & ->).
      all: apply rejects_underlying; [done|done|by eapply Hu]. }
  destruct (serpentStruct _) eqn:Hserpent; [|done].
  destruct underlying as [|[|f fs]| | | | | | | | | |]; try done.
  intros Herr. apply rejects_serpent; [done..|]. by eapply Hf.
Qed.

Lemma typescriptType_Err_size g k : ∀ ty σ msg,
  tsize ty < k → typescriptType g ty σ = Err msg → rejects ty msg.
Proof.
  induction k as [|k IH]; intros ty σ msg Hsz; [lia|].
  destruct ty; simpl in *.
  - by repeat case_bool_decide.
  - done.
  - rewrite bind_Err. intros [Hw|(keyType & σ1 & _ & H)].
    { apply wrap_Err_inv in Hw as (msg0 & H0 & ->). apply rejects_key. eapply IH; [|done]. lia. }
    apply bind_Err in H as [Hw|(valueType & σ2 & _ & H)].
    { apply wrap_Err_inv in Hw as (msg0 & H0 & ->). apply rejects_elem. eapply IH; [|done]. lia. }
    apply bind_Err in H as [Hm|(mergeGens & σ3 & _ & H)]; [|done].
    exfalso. revert Hm. generalize (GenericTypes keyType). clear.
    induction (goRange (GenericTypes valueType)) as [|[k v] kvs IHk]; intros m; simpl; [done|].
    unfold bind. destruct m; simpl; [apply IHk|done].
  - unfold arrayType. case_bool_decide as Hbyte; [done|].
    rewrite bind_Err. intros [Hw|(u & σ1 & _ & H)]; [|done].
    apply wrap_Err_inv in Hw as (msg0 & H0 & ->).
    apply rejects_slice; [done|]. eapply IH; [|done]. lia.
  - unfold arrayType. case_bool_decide as Hbyte; [done|].
    rewrite bind_Err. intros [Hw|(u & σ1 & _ & H)]; [|done].
    apply wrap_Err_inv in Hw as (msg0 & H0 & ->).
    apply rejects_array; [done|]. eapply IH; [|done]. lia.
  - apply namedType_Err.
    + intros σ0 msg0. apply IH. lia.
    + intros a σ0 msg0 Ha%tsize_elem. apply IH. lia.
    + intros f fs σ0 msg0 ->. apply IH. simpl in Hsz. lia.
  - rewrite bind_Err. intros [Hw|(resp & σ1 & _ & H)]; [|done].
    apply wrap_Err_inv in Hw as (msg0 & H0 & ->).
    apply rejects_pointer. eapply IH; [|done]. lia.
  - by destruct empty.
  - destruct (types.tp_UnderlyingInterface tp) eqn:Hiface; simpl.
    2:{ intros [= <-]. by apply rejects_param. }
    rewrite bind_Err. intros [Hd|(gen & σ1 & _ & H)].
    { revert Hd. unfold deref. by destruct (gens σ !! g). }
    destruct (types.Lookup _ _); [done|].
    destruct (isBuiltIn _) as [include builtinString].
    destruct (negb include); [done|].
    apply bind_Err in H as [Hs|(u & σ2 & _ & H)]; [|done].
    revert Hs. unfold setBuiltin, bind, deref, store. by destruct (gens σ1 !! g).
  - intros [= <-]. apply rejects_union.
  - intros [= <-]. apply rejects_signature.
  - intros [= <-]. apply rejects_chan.
Qed.

Lemma forallb_elem {A} (f : A → bool) l a : a ∈ l → f a = false → forallb f l = false.
Proof.
  induction 1 as [|? ? ? ? IH]; simpl; intros Hf; [by rewrite Hf|].
  rewrite IH by done. apply andb_false_r.
Qed.

Lemma rejects_supported ty msg : rejects ty msg → supported ty = false.
Proof.
  induction 1; simpl; try done.
  - by rewrite IHrejects.
  - rewrite IHrejects. apply andb_false_r.
  - rewrite IHrejects. apply andb_false_r.
  - by rewrite (forallb_elem supported targs a).
  - rewrite IHrejects. simpl. apply andb_false_r.
Qed.

(** X19. The mapper fails on the types it has no rule for, and on no
    other.  Every error that [typescriptType] returns is the error of a
    union, a function, a channel or a type parameter that is no
    interface, which the type is or holds where the mapper goes, and
    the message is that type's error under the prefixes of the steps
    that lead to it: the type and the message are related by
    [rejects].  So a type that holds none of these never fails: names
    that resolve nowhere, interfaces and anonymous structs are no
    errors. *)
Theorem mapper_fails_for_two_reasons g ty σ msg :
  typescriptType g ty σ = Err msg →
  rejects ty msg ∧ supported ty = false.
Proof.
  intros Herr.
  assert (rejects ty msg) as Hrej
    by (apply (typescriptType_Err_size g (S (tsize ty)) ty σ); [lia|done]).
  split; [done|]. by eapply rejects_supported.
Qed.

(** X26. Conversely, on the types that reach no named type and no type
    parameter, where the mapper does not depend on the state, a type
    that [rejects] relates to a message does fail, for every generator
    and state and with one message that [rejects] relates to it: the
    error of the first rejected type that the mapper meets. *)
Theorem rejected_type_fails ty msg :
  unnamed ty → rejects ty msg →
  ∃ msg', rejects ty msg' ∧ ∀ g σ, typescriptType g ty σ = Err msg'.
Proof.
  intros Hun Hrej. induction Hrej; simpl in Hun; try done.
  - eexists. split; [apply rejects_union|]. done.
  - eexists. split; [apply rejects_signature|]. done.
  - eexists. split; [apply rejects_chan|]. done.
  - apply andb_prop_elim in Hun as [Hk He].
    destruct (IHHrej Hk) as (msg' & Hrej' & Hkey).
    exists ("map key: " +:+ msg'). split; [by apply rejects_key|].
    intros g σ. simpl. unfold bind, wrap. by rewrite Hkey.
  - apply andb_prop_elim in Hun as [Hk He].
    destruct (IHHrej He) as (msg' & Hrej' & Helem).
    destruct (typescriptType_unnamed key Hk) as [(ts & _ & _ & Hkey)|(msgk & Hkey)].
    + exists ("map key: " +:+ msg'). split; [by apply rejects_elem|].
      intros g σ. simpl. unfold bind, wrap. by rewrite Hkey, Helem.
    + exists ("map key: " +:+ msgk). split.
      * apply rejects_key.
        apply (typescriptType_Err_size 0 (S (tsize key)) key {| gens := []; stdout := "" |});
          [lia|apply Hkey].
      * intros g σ. simpl. unfold bind, wrap. by rewrite Hkey.
  - destruct (IHHrej Hun) as (msg' & Hrej' & Helem).
    exists ("array: " +:+ msg'). split; [by apply rejects_slice|].
    intros g σ. simpl. unfold arrayType. rewrite bool_decide_eq_false_2 by done.
    unfold bind, wrap. by rewrite Helem.
  - destruct (IHHrej Hun) as (msg' & Hrej' & Helem).
    exists ("array: " +:+ msg'). split; [by apply rejects_array|].
    intros g σ. simpl. unfold arrayType. rewrite bool_decide_eq_false_2 by done.
    unfold bind, wrap. by rewrite Helem.
  - destruct (IHHrej Hun) as (msg' & Hrej' & Helem).
    exists ("pointer: " +:+ msg'). split; [by apply rejects_pointer|].
    intros g σ. simpl. unfold bind, wrap. by rewrite Helem.
Qed.

(** X20. A named type without a package makes the mapper panic.  For a
    named type that is not hard coded and whose object has no package,
    as the types of the universe have ([error]), the mapper asks the
    nil package for its name and panics on the nil pointer, whatever
    the generator and the state. *)
Theorem named_type_without_package_panics g n targs underlying σ :
  assoc namedTable (types.n_String n) = None →
  serpentStruct (types.n_String n) = false →
  types.tn_Pkg (types.n_Obj n) = None →
  typescriptType g (types.TNamed n targs underlying) σ
  = Panic "runtime error: invalid memory address or nil pointer dereference".
Proof.
  intros Htable Hserpent Hpkg. simpl. unfold namedType. rewrite Htable, Hserpent.
  unfold namedReference, bind, objNameOf. by rewrite Hpkg.
Qed.

(** X21. A name that resolves nowhere is flagged.  When the mapper
    returns on a named type that is not hard coded and that
    [lookupNamedReference] does not resolve, the type is [any] under
    the comment that says the named type is unknown, for a struct, and
    for every other underlying type it is the mapped underlying type,
    with its own comment when it has one and else with the comment that
    says the type is likely an enum of an external package. *)
Theorem unresolved_name_is_flagged g n targs underlying σ ts σ' :
  assoc namedTable (types.n_String n) = None →
  serpentStruct (types.n_String n) = false →
  lookupNamedReference g n σ = Ok (None, σ) →
  typescriptType g (types.TNamed n targs underlying) σ = Ok (ts, σ') →
  AboveTypeLine ts ≠ "" ∧
  match underlying with
  | types.TStruct _ =>
      σ' = σ ∧
      ts = tsCommented "any"
             (indentedComment ("Named type " +:+ Quote (types.n_String n) +:+
                               " unknown, using " +:+ strings.dquote +:+ "any" +:+ strings.dquote)
              +:+ strings.nl +:+
              indentedComment "eslint-disable-next-line @typescript-eslint/no-explicit-any -- External type")
  | _ =>
      ∃ under,
        typescriptType g underlying σ = Ok (under, σ') ∧
        ts = {| GenericTypes := GenericTypes under; GenericValue := GenericValue under;
                ValueType := ValueType under;
                AboveTypeLine :=
                  if bool_decide (AboveTypeLine under = "")
                  then indentedComment ("This is likely an enum in an external package (" +:+
                                        Quote (types.n_String n) +:+ ")")
                  else AboveTypeLine under;
                Optional := Optional under |}
  end.
Proof.
  intros Htable Hserpent Hfound. simpl. unfold namedType. rewrite Htable, Hserpent.
  unfold namedReference. rewrite bind_Ok.
  intros (objName0 & σ0 & ->%objNameOf_Ok & H1).
  apply bind_Ok in H1 as (found & σ1 & Hl & H2).
  rewrite Hfound in Hl. injection Hl as <- <-.
  assert (∀ c, indentedComment c ≠ "") as Hcomment by done.
  destruct underlying.
  2: { apply ret_Ok in H2 as [<- <-]. done. }
  all: apply bind_Ok in H2 as (under & σ2 & Hu%wrap_Ok & Hret).
  all: destruct (bool_decide (AboveTypeLine under = "")) eqn:Hline;
    apply ret_Ok in Hret as [<- <-].
  all: (split; [simpl; try done; by apply bool_decide_eq_false in Hline|]).
  all: exists under; split; [done|]; rewrite Hline; try done.
  all: by destruct under.
Qed.

End Failures.

(** ** The typescript tag, and the first error of a pass *)

Section Tags.
Context {L : Library} {O : MapOrder}.

(** X22. A typescript tag replaces the inferred type as a whole.  For
    a field that the record builder maps and whose typescript tag names
    a type, the line of the field gives that type under the
    serialization name; the comment, the generic bindings and the
    optional mark of the inferred type are dropped, so that the field is
    optional only if its json tag says [omitempty]; the type is inferred
    all the same, and what the inference did to the state stays. *)
Theorem typescript_tag_replaces_the_inferred_type g obj field fields used σ tags tag ts σ' :
  types.var_Exported (types.f_Var field) = true →
  fieldTags field = Some tags →
  tag_Name <$> tagsGet tags "json" ≠ Some "-" →
  tagsGet tags "typescript" = Some tag →
  tag_Name tag ≠ "" → tag_Name tag ≠ "-" →
  typescriptType g (types.f_Type field) σ = Ok (ts, σ') →
  fieldLine g obj field fields used σ =
  Ok ((fields ++
         [indent +:+ "readonly " +:+ jsonNameOf field +:+
          (if from_option (λ t, bool_decide (head (tag_Options t) = Some "omitempty")) false
                          (tagsGet tags "json")
           then "?" else "") +:+ ": " +:+ tag_Name tag],
       used), σ').
Proof.
  intros Hexp Htags Hjson Htag Hname Hdash Hts. unfold fieldLine, jsonNameOf.
  rewrite Htags. unfold fieldTags in Htags.
  destruct (structtag_Parse (types.f_Tag field)) as [[tags'|]|]; try done.
  simpl in Htags. injection Htags as ->. rewrite Hexp. simpl.
  rewrite bool_decide_eq_false_2 by done.
  unfold bind, wrap. rewrite Hts, Htag. simpl.
  rewrite bool_decide_eq_false_2 by (by intros [= ?]).
  rewrite (bool_decide_eq_true_2 (tag_Name tag ≠ "")) by done.
  by destruct (bool_decide (head (tag_Options tag) = Some "notnull")); simpl;
    rewrite orb_false_r.
Qed.

Lemma generateNames_app g scope l1 : ∀ l2 m σ,
  generateNames g scope (l1 ++ l2) m σ =
  (m1 <- generateNames g scope l1 m ;; generateNames g scope l2 m1) σ.
Proof.
  induction l1 as [|n l1 IH]; intros l2 m σ; simpl; [done|].
  unfold bind.
  destruct (match types.Lookup scope n with
            | Some obj => wrap (Quote n +:+ ": ") (generateOne g m obj)
            | None => ret m
            end σ) as [[m1 σ1]| |]; [|done..].
  by rewrite IH.
Qed.

(** X23. The first declaration that fails ends the pass.  When the
    declarations before it, in the order of the scope's names, are
    through and [generateOne] fails on a declaration, [generateAll]
    fails with that error under the quoted name of the declaration:
    nothing after it is generated and no blocks are returned. *)
Theorem first_failing_declaration_ends_the_pass g σ gen before n after m1 σ1 obj msg :
  gens σ !! g = Some gen →
  types.Names (pkg_Scope (pkg gen)) = before ++ n :: after →
  generateNames g (pkg_Scope (pkg gen)) before (initialMaps gen) σ = Ok (m1, σ1) →
  pkg_Scope (pkg gen) !! n = Some obj →
  generateOne g m1 obj σ1 = Err msg →
  generateAll g σ = Err (Quote n +:+ ": " +:+ msg).
Proof.
  intros Hg Hnames Hbefore Hn Hone. unfold generateAll.
  unfold bind at 1, deref at 1. rewrite Hg, Hnames.
  unfold bind at 1. rewrite generateNames_app. unfold bind at 1. rewrite Hbefore. simpl.
  unfold bind at 1. unfold types.Lookup. rewrite Hn.
  by rewrite (wrap_Err _ _ _ _ Hone), string_app_assoc.
Qed.

End Tags.

(** ** What the regeneration loop ends with *)

Section Closure.
Context {L : Library} {O : MapOrder}.

(** The loop returns the blocks of a pass over which the allow list did
    not change. *)
Lemma regenerate_last_pass ext fuel : ∀ σ ts σ',
  regenerate fuel ext σ = Ok (Some ts, σ') →
  ∃ σ0 gen0 gen',
    generateAll ext σ0 = Ok (ts, σ') ∧
    gens σ0 !! ext = Some gen0 ∧ gens σ' !! ext = Some gen' ∧
    pkg gen' = pkg gen0 ∧ onlyOptIn gen' = onlyOptIn gen0 ∧
    allowList gen' = allowList gen0.
Proof.
  induction fuel as [|fuel IH]; intros σ ts σ'; simpl; [by intros [[=] _]%ret_Ok|].
  rewrite bind_Ok. intros (e & σ1 & [He ->]%deref_Ok & H).
  apply bind_Ok in H as (ts1 & σ2 & Hall%wrap_Ok & H).
  apply bind_Ok in H as (e' & σ3 & [He' ->]%deref_Ok & H).
  case_bool_decide as Hlen; [by eapply IH|].
  apply ret_Ok in H as [[= <-] <-].
  destruct (generateAll_grows ext σ ts1 σ2 Hall) as (_ & _ & Hkeep).
  destruct (Hkeep ext e He) as (e2 & He2 & Hpkg & Hopt & _ & _ & [added Hadd] & _).
  rewrite He' in He2. injection He2 as <-.
  exists σ, e, e'. repeat split; try done.
  rewrite Hadd, length_app in Hlen.
  destruct added; [by rewrite Hadd, app_nil_r|simpl in Hlen; lia].
Qed.

(** X24. What the regeneration loop ends with covers its allow list.
    When the loop returns blocks, every name of the generator's allow
    list, as it stands at the end, that is a type declaration of the
    package and is not ignored has its block among them: the names that
    earlier passes and other packages recorded have all been
    generated, and the last pass recorded no new one. *)
Theorem regenerated_blocks_cover_the_allow_list ext fuel σ ts σ' :
  regenerate fuel ext σ = Ok (Some ts, σ') →
  ∃ gen',
    gens σ' !! ext = Some gen' ∧
    ∀ n o nm targs under,
      pkg_Scope (pkg gen') !! n
      = Some (types.OTypeName o (Some (types.TNamed nm targs under))) →
      types.obj_Name o ∈ allowList gen' →
      strings.TrimSpace (types.obj_Name o) = types.obj_Name o →
      types.obj_Name o ∉ maps.IgnoredTypes (initialMaps gen') →
      let key := objName (types.obj_Pkg o) (types.obj_Name o) in
      match under with
      | types.TStruct _ | types.TMap _ _ | types.TArray _ _ | types.TSlice _ =>
          is_Some (Types ts !! key)
      | types.TBasic _ => is_Some (Enums ts !! key)
      | types.TInterface _ [_] => is_Some (Generics ts !! key)
      | _ => True
      end.
Proof.
  intros (σ0 & gen0 & gen' & Hall & Hg0 & Hg' & Hpkg & Hopt & Hallow)%regenerate_last_pass.
  exists gen'. split; [done|]. intros n o nm targs under Hn Hin Htrim Hign key.
  assert (initialMaps gen' = initialMaps gen0) as Hinit
    by (unfold initialMaps; by rewrite Hpkg, Hallow).
  rewrite Hinit in Hign. rewrite Hpkg in Hn. rewrite Hallow in Hin.
  assert (admitted (onlyOptIn gen0) (initialMaps gen0) (types.obj_Name o)) as Hadm.
  { split; [done|]. intros _. simpl. apply elem_of_list_to_set, elem_of_app. left.
    apply list_elem_of_fmap. exists (types.obj_Name o). by split. }
  apply generateAll_Ok in Hall as (gen1 & m & gen2 & Hg1 & Hnames & Hg2 & ->).
  rewrite Hg0 in Hg1. injection Hg1 as <-.
  assert (filed under m key) as Hfiled.
  { apply (generateNames_files ext (pkg_Scope (pkg gen0)) (types.Names (pkg_Scope (pkg gen0)))
             (initialMaps gen0) σ0 m σ' gen0 n o nm targs under); try done.
    apply elem_of_Names. by rewrite Hn. }
  unfold filed in Hfiled.
  destruct under as [| | | | | | |empty embeddeds| | | |]; simpl; try done.
  - rewrite enumsLoop_mapRange. by apply fmap_is_Some.
  - destruct embeddeds as [|embedded [|]]; try done.
    rewrite addBuiltins_mapRange. destruct (builtins gen2 !! key) as [value|]; [|done].
    by case_bool_decide.
Qed.

End Closure.

(** ** Generic parameters that no field binds *)

Section Parameters.
Context {L : Library} {O : MapOrder}.

#[global] Instance alike_equivalence : Equivalence alike.
Proof.
  split.
  - intros σ. split; [done|]. intros p gen gen' Hp Hp'. by simplify_eq.
  - intros σ σ' [Hlen Hsame]. split; [done|]. intros p gen gen' Hp Hp'.
    destruct (Hsame p gen' gen Hp' Hp). by split.
  - intros σ1 σ2 σ3 [Hlen12 H12] [Hlen23 H23]. split; [congruence|].
    intros p gen1 gen3 Hp1 Hp3.
    destruct (lookup_lt_is_Some_2 (gens σ2) p) as [gen2 Hp2].
    { rewrite <-Hlen12. by eapply lookup_lt_Some. }
    destruct (H12 p gen1 gen2 Hp1 Hp2), (H23 p gen2 gen3 Hp2 Hp3). split; congruence.
Qed.

Lemma grows_alike σ σ' : grows σ σ' → alike σ σ'.
Proof.
  intros (Hlen & _ & Hkeep). split; [done|]. intros p gen gen' Hp Hp'.
  destruct (Hkeep p gen Hp) as (gen0 & Hp0 & ? & _ & ? & _). by simplify_eq.
Qed.

Lemma alike_lookup σ σ' p gen :
  alike σ σ' → gens σ !! p = Some gen →
  ∃ gen', gens σ' !! p = Some gen' ∧ pkg gen' = pkg gen ∧ externals gen' = externals gen.
Proof.
  intros [Hlen Hsame] Hp.
  destruct (lookup_lt_is_Some_2 (gens σ') p) as [gen' Hp'].
  { rewrite <-Hlen. by eapply lookup_lt_Some. }
  exists gen'. split; [done|]. by eapply Hsame.
Qed.

(** Two runs from states that are alike end in states that are alike. *)
Lemma alike_after {A B} (m : M A) (m' : M B) σ σ' a σ1 b σ1' :
  keeps grows m → keeps grows m' → alike σ σ' →
  m σ = Ok (a, σ1) → m' σ' = Ok (b, σ1') → alike σ1 σ1'.
Proof.
  intros Hm Hm' Halike H1 H1'.
  apply Hm, grows_alike in H1. apply Hm', grows_alike in H1'.
  transitivity σ; [by symmetry|]. by transitivity σ'.
Qed.

Lemma lookupExternals_alike exts pkgName name : ∀ σ σ' r σ1,
  alike σ σ' → lookupExternals exts pkgName name σ = Ok (r, σ1) →
  lookupExternals exts pkgName name σ' = Ok (r, σ').
Proof.
  induction exts as [|ext exts IH]; intros σ σ' r σ1 Halike; simpl.
  - by intros [<- _]%ret_Ok.
  - rewrite bind_Ok. intros (e & σa & [He ->]%deref_Ok & H).
    destruct (alike_lookup σ σ' ext e Halike He) as (e' & He' & Hpkg & _).
    unfold bind at 1, deref at 1. rewrite He', Hpkg.
    destruct (types.Lookup _ _); [case_bool_decide|]; [|by eapply IH..].
    by apply ret_Ok in H as [<- _].
Qed.

Lemma lookupNamedReference_alike g n σ σ' r σ1 :
  alike σ σ' → lookupNamedReference g n σ = Ok (r, σ1) →
  lookupNamedReference g n σ' = Ok (r, σ').
Proof.
  intros Halike. unfold lookupNamedReference.
  destruct (types.tn_Pkg _) as [pkgName|]; [|done].
  rewrite bind_Ok. intros (gen & σa & [Hg ->]%deref_Ok & H).
  destruct (alike_lookup σ σ' g gen Halike Hg) as (gen' & Hg' & Hpkg & Hext).
  unfold bind at 1, deref at 1. rewrite Hg', Hpkg, Hext.
  destruct (types.Lookup _ _); [case_bool_decide|]; [|by eapply lookupExternals_alike..].
  by apply ret_Ok in H as [<- _].
Qed.

Lemma mergeGenerics_pure m kvs : ∀ σ r σ1,
  mergeGenerics m kvs σ = Ok (r, σ1) → ∀ σ', mergeGenerics m kvs σ' = Ok (r, σ').
Proof.
  revert m. induction kvs as [|[k v] kvs IH]; intros m σ r σ1; simpl.
  - by intros [<- _]%ret_Ok.
  - destruct m as [m|]; [|done]. unfold bind at 1. simpl. intros H σ'.
    unfold bind at 1. simpl. by eapply IH.
Qed.

Lemma typeArgs_alike mapper objName0 args :
  (∀ a, a ∈ args → keeps grows (mapper a)) →
  (∀ a σ σ' ts σ1, a ∈ args → alike σ σ' → mapper a σ = Ok (ts, σ1) →
     ∃ σ1', mapper a σ' = Ok (ts, σ1')) →
  ∀ cs ns gts σ σ' r σ1,
    alike σ σ' → typeArgs mapper objName0 args cs ns gts σ = Ok (r, σ1) →
    ∃ σ1', typeArgs mapper objName0 args cs ns gts σ' = Ok (r, σ1').
Proof.
  induction args as [|a args IH]; intros Hg Hm cs ns gts σ σ' r σ1 Halike; simpl.
  - intros [<- _]%ret_Ok. by eexists.
  - rewrite bind_Ok. intros (genType & σa & Ha%wrap_Ok & H).
    destruct (Hm a σ σ' genType σa) as [σa' Ha']; [by left|done..|].
    assert (alike σa σa') as Halike'.
    { eapply (alike_after (mapper a) (mapper a));
        [apply Hg; by left|apply Hg; by left|done|done|done]. }
    assert (∀ cs' ns' gts',
      typeArgs mapper objName0 args cs' ns' gts' σa = Ok (r, σ1) →
      ∃ σ1', typeArgs mapper objName0 args cs' ns' gts' σa' = Ok (r, σ1')) as Hrest.
    { intros cs' ns' gts'. apply IH; [intros; apply Hg; by right| |done].
      intros a0 ? ? ? ? ?. apply Hm. by right. }
    assert (∃ σ1',
      match a with
      | types.TTypeParam param =>
          typeArgs mapper objName0 args (cs ++ [ValueType genType])
                   (ns ++ [types.tp_Name param])
                   (<[types.tp_Name param := ValueType genType]> gts)
      | _ => typeArgs mapper objName0 args (cs ++ [ValueType genType])
                      (ns ++ [ValueType genType]) gts
      end σa' = Ok (r, σ1')) as [σ1' H'] by (destruct a; by apply Hrest).
    exists σ1'. unfold bind at 1. by rewrite (proj2 (wrap_Ok _ _ _ _) Ha').
Qed.

Lemma appendAllowList_valid p name σ :
  is_Some (gens σ !! p) → ∃ σ1, appendAllowList p name σ = Ok (tt, σ1).
Proof.
  intros [gen Hp]. eexists. apply appendAllowList_Ok. by exists gen.
Qed.

Lemma recorded_alike (b b' : bool) p name σ σ' u σ1 :
  alike σ σ' →
  (if b then appendAllowList p name else ret tt) σ = Ok (u, σ1) →
  is_Some (gens σ !! p) →
  ∃ σ1', (if b' then appendAllowList p name else ret tt) σ' = Ok (tt, σ1') ∧ alike σ1 σ1'.
Proof.
  intros Halike H [gen Hp].
  destruct (alike_lookup σ σ' p gen Halike Hp) as (gen' & Hp' & _).
  assert (∃ σ1', (if b' then appendAllowList p name else ret tt) σ' = Ok (tt, σ1'))
    as [σ1' H'].
  { destruct b'; [|by eexists]. apply appendAllowList_valid. by exists gen'. }
  exists σ1'. split; [done|].
  eapply (alike_after _ _ σ σ'); [| |done|exact H|exact H'].
  - destruct b; [apply appendAllowList_grows|]. intros ? ? ? [_ <-]%ret_Ok. reflexivity.
  - destruct b'; [apply appendAllowList_grows|]. intros ? ? ? [_ <-]%ret_Ok. reflexivity.
Qed.

Lemma lookupExternals_valid exts pkgName name : ∀ σ obj objGen local σ1,
  lookupExternals exts pkgName name σ = Ok (Some (obj, objGen, local), σ1) →
  is_Some (gens σ !! objGen).
Proof.
  induction exts as [|ext exts IH]; intros σ obj objGen local σ1; simpl.
  - by intros [[=] _]%ret_Ok.
  - rewrite bind_Ok. intros (e & σa & [He ->]%deref_Ok & H).
    destruct (types.Lookup _ _); [case_bool_decide|]; [|by eapply IH..].
    apply ret_Ok in H as [[= _ <- _] _]. by exists e.
Qed.

Lemma lookupNamedReference_valid g n σ obj objGen local σ1 :
  lookupNamedReference g n σ = Ok (Some (obj, objGen, local), σ1) →
  is_Some (gens σ !! objGen).
Proof.
  unfold lookupNamedReference. destruct (types.tn_Pkg _) as [pkgName|]; [|done].
  rewrite bind_Ok. intros (gen & σa & [Hg ->]%deref_Ok & H).
  destruct (types.Lookup _ _); [case_bool_decide|]; [|by eapply lookupExternals_valid..].
  apply ret_Ok in H as [[= _ <- _] _]. by exists gen.
Qed.

Lemma namedReference_alike mapper g n targs underlying :
  keeps grows (mapper underlying) →
  (∀ a, a ∈ targs → keeps grows (mapper a)) →
  (∀ σ σ' ts σ1, alike σ σ' → mapper underlying σ = Ok (ts, σ1) →
     ∃ σ1', mapper underlying σ' = Ok (ts, σ1')) →
  (∀ a σ σ' ts σ1, a ∈ targs → alike σ σ' → mapper a σ = Ok (ts, σ1) →
     ∃ σ1', mapper a σ' = Ok (ts, σ1')) →
  ∀ σ σ' ts σ1, alike σ σ' →
    namedReference mapper g n targs underlying σ = Ok (ts, σ1) →
    ∃ σ1', namedReference mapper g n targs underlying σ' = Ok (ts, σ1').
Proof.
  intros Hgu Hga Hu Ha σ σ' ts σ1 Halike. unfold namedReference.
  rewrite bind_Ok. intros (objName0 & σ0 & Hname & H).
  pose proof (objNameOf_Ok _ _ _ _ Hname) as ->.
  assert (objNameOf (types.n_Obj n) σ' = Ok (objName0, σ')) as Hname'.
  { revert Hname. unfold objNameOf. destruct (types.tn_Pkg _); [|done].
    by intros [<- _]%ret_Ok. }
  unfold bind at 1. rewrite Hname'.
  apply bind_Ok in H as (found & σa & Hfound & H).
  pose proof (lookupNamedReference_Ok _ _ _ _ _ Hfound) as [-> _].
  unfold bind at 1. rewrite (lookupNamedReference_alike g n σ σ' found σ Halike Hfound).
  destruct found as [[[obj objGen] local]|].
  - apply bind_Ok in H as (gen & σb & [Hg ->]%deref_Ok & H).
    destruct (alike_lookup σ σ' g gen Halike Hg) as (gen' & Hg' & _).
    unfold bind at 1, deref at 1. rewrite Hg'.
    apply bind_Ok in H as (u1 & σ2 & H1 & H).
    destruct (recorded_alike
                (onlyOptIn gen &&
                 negb (strings.Contains (allowList gen) (types.tn_Name (types.n_Obj n))))
                (onlyOptIn gen' &&
                 negb (strings.Contains (allowList gen') (types.tn_Name (types.n_Obj n))))
                g (types.tn_Name (types.n_Obj n)) σ σ' u1 σ2 Halike H1)
      as (σ2' & H1' & Halike2); [by exists gen|].
    unfold bind at 1. rewrite H1'.
    apply bind_Ok in H as (u2 & σ3 & H2 & H).
    destruct (recorded_alike (negb local) (negb local)
                objGen (types.tn_Name (types.n_Obj n)) σ2 σ2' u2 σ3 Halike2 H2)
      as (σ3' & H2' & Halike3).
    { apply lookupNamedReference_valid in Hfound as [genx Hx].
      assert (grows σ σ2) as (_ & _ & Hkeep).
      { destruct (_ && _); [by eapply appendAllowList_grows|].
        apply ret_Ok in H1 as [_ <-]. reflexivity. }
      destruct (Hkeep objGen genx Hx) as (genx' & ? & _). by exists genx'. }
    unfold bind at 1. rewrite H2'.
    destruct targs as [|a targs'].
    + apply ret_Ok in H as [<- _]. by eexists.
    + apply bind_Ok in H as ([[cs ns] gts] & σ4 & Hargs & [<- _]%ret_Ok).
      destruct (typeArgs_alike mapper objName0 (a :: targs') Hga Ha [] [] ∅ σ3 σ3'
                  (cs, ns, gts) σ4 Halike3 Hargs) as [σ4' Hargs'].
      exists σ4'. unfold bind at 1. by rewrite Hargs'.
  - destruct underlying.
    2: { apply ret_Ok in H as [<- _]. by eexists. }
    all: apply bind_Ok in H as (ts0 & σ2 & Hm%wrap_Ok & Hret).
    all: destruct (Hu σ σ' ts0 σ2 Halike Hm) as [σ2' Hm'].
    all: exists σ2'; unfold bind at 1; rewrite (proj2 (wrap_Ok _ _ _ _) Hm').
    all: by case_bool_decide; apply ret_Ok in Hret as [<- _].
Qed.

Lemma namedType_alike mapper g n targs underlying :
  keeps grows (mapper underlying) →
  (∀ a, a ∈ targs → keeps grows (mapper a)) →
  (∀ σ σ' ts σ1, alike σ σ' → mapper underlying σ = Ok (ts, σ1) →
     ∃ σ1', mapper underlying σ' = Ok (ts, σ1')) →
  (∀ a σ σ' ts σ1, a ∈ targs → alike σ σ' → mapper a σ = Ok (ts, σ1) →
     ∃ σ1', mapper a σ' = Ok (ts, σ1')) →
  (∀ f fs σ σ' ts σ1, underlying = types.TStruct (f :: fs) → alike σ σ' →
     mapper (types.f_Type f) σ = Ok (ts, σ1) →
     ∃ σ1', mapper (types.f_Type f) σ' = Ok (ts, σ1')) →
  ∀ σ σ' ts σ1, alike σ σ' →
    namedType mapper g n targs underlying σ = Ok (ts, σ1) →
    ∃ σ1', namedType mapper g n targs underlying σ' = Ok (ts, σ1').
Proof.
  intros Hgu Hga Hu Ha Hf σ σ' ts σ1 Halike. unfold namedType.
  destruct (assoc _ _); [intros [<- _]%ret_Ok; by eexists|].
  destruct (serpentStruct _); [|by apply namedReference_alike].
  destruct underlying as [|[|f fs]| | | | | | | | | |];
    try by apply namedReference_alike.
  - done.
  - by eapply Hf.
Qed.

Lemma typescriptType_alike_size g k : ∀ ty σ σ' ts σ1,
  tsize ty < k → alike σ σ' → typescriptType g ty σ = Ok (ts, σ1) →
  ∃ σ1', typescriptType g ty σ' = Ok (ts, σ1').
Proof.
  induction k as [|k IH]; intros ty σ σ' ts σ1 Hsz Halike; [lia|].
  destruct ty; simpl in *.
  - repeat case_bool_decide; intros [<- _]%ret_Ok; by eexists.
  - intros [<- _]%ret_Ok; by eexists.
  - rewrite bind_Ok. intros (keyType & σa & Hk%wrap_Ok & H).
    destruct (IH ty1 σ σ' keyType σa) as [σa' Hk']; [lia|done..|].
    assert (alike σa σa') as Halike1
      by (eapply (alike_after _ _ σ σ');
          [apply typescriptType_grows|apply typescriptType_grows|done|exact Hk|exact Hk']).
    apply bind_Ok in H as (valueType & σb & Hv%wrap_Ok & H).
    destruct (IH ty2 σa σa' valueType σb) as [σb' Hv']; [lia|done..|].
    apply bind_Ok in H as (mergeGens & σc & Hmerge & [<- _]%ret_Ok).
    exists σb'. unfold bind at 1. rewrite (proj2 (wrap_Ok _ _ _ _) Hk').
    unfold bind at 1. rewrite (proj2 (wrap_Ok _ _ _ _) Hv').
    unfold bind at 1. by rewrite (mergeGenerics_pure _ _ _ _ _ Hmerge σb').
  - unfold arrayType. case_bool_decide; [intros [<- _]%ret_Ok; by eexists|].
    rewrite bind_Ok. intros (under & σa & Hu%wrap_Ok & [<- _]%ret_Ok).
    destruct (IH ty σ σ' under σa) as [σa' Hu']; [lia|done..|].
    exists σa'. unfold bind at 1. by rewrite (proj2 (wrap_Ok _ _ _ _) Hu').
  - unfold arrayType. case_bool_decide; [intros [<- _]%ret_Ok; by eexists|].
    rewrite bind_Ok. intros (under & σa & Hu%wrap_Ok & [<- _]%ret_Ok).
    destruct (IH ty σ σ' under σa) as [σa' Hu']; [lia|done..|].
    exists σa'. unfold bind at 1. by rewrite (proj2 (wrap_Ok _ _ _ _) Hu').
  - apply namedType_alike; try done.
    + apply typescriptType_grows.
    + intros; apply typescriptType_grows.
    + intros σ0 σ0' ts0 σ2. apply IH. lia.
    + intros a σ0 σ0' ts0 σ2 Ha%tsize_elem. apply IH. lia.
    + intros f fs σ0 σ0' ts0 σ2 ->. apply IH. simpl in Hsz. lia.
  - rewrite bind_Ok. intros (resp & σa & Hr%wrap_Ok & [<- _]%ret_Ok).
    destruct (IH ty σ σ' resp σa) as [σa' Hr']; [lia|done..|].
    exists σa'. unfold bind at 1. by rewrite (proj2 (wrap_Ok _ _ _ _) Hr').
  - destruct empty; intros [<- _]%ret_Ok; by eexists.
  - destruct (negb _); [done|].
    rewrite bind_Ok. intros (gen & σa & [Hg ->]%deref_Ok & H).
    destruct (alike_lookup σ σ' g gen Halike Hg) as (gen' & Hg' & Hpkg & _).
    unfold bind at 1, deref at 1. rewrite Hg', Hpkg.
    destruct (types.Lookup _ _); [apply ret_Ok in H as [<- _]; by eexists|].
    destruct (isBuiltIn _) as [include builtinString].
    destruct (negb include); [apply ret_Ok in H as [<- _]; by eexists|].
    apply bind_Ok in H as (u & σ2 & Hset & [<- _]%ret_Ok).
    eexists. unfold bind at 1, setBuiltin, bind at 1, deref at 1. rewrite Hg'.
    unfold store. reflexivity.
  - done.
  - done.
  - done.
Qed.

(** The mapped type of a type does not depend on what a pass changes in
    the state. *)
Lemma typescriptType_alike g ty σ σ' ts σ1 :
  alike σ σ' → typescriptType g ty σ = Ok (ts, σ1) →
  ∃ σ1', typescriptType g ty σ' = Ok (ts, σ1').
Proof. apply (typescriptType_alike_size g (S (tsize ty))). lia. Qed.

Lemma bindsParam_alike g σ σ' field p :
  alike σ σ' → bindsParam g σ field p → bindsParam g σ' field p.
Proof.
  intros Halike (tags & ts & σb & gt & c & Hl & Htags & Hts & Hrest).
  destruct (typescriptType_alike g _ σ σ' ts σb Halike Hts) as [σb' Hts'].
  by exists tags, ts, σb', gt, c.
Qed.

(** Every binding that the field loop gathers comes from an emitted
    field. *)
Lemma fieldLines_bound g obj st : ∀ fields used σ fields' used' σ' p c,
  fieldLines g obj st fields used σ = Ok ((fields', used'), σ') →
  used' !! p = Some c →
  used !! p = Some c ∨ ∃ field, field ∈ st ∧ bindsParam g σ field p.
Proof.
  induction st as [|f st IH]; intros fields used σ fields' used' σ' p c; simpl.
  - intros [[= <- <-] _]%ret_Ok. by left.
  - rewrite bind_Ok. intros ([fields1 used1] & σ1 & H1 & Hrest) Hp. simpl in Hrest.
    pose proof (fieldLine_grows g obj f fields used σ _ σ1 H1) as Hgrows%grows_alike.
    apply fieldLine_Ok in H1 as (_ & _ & _ & _ & Hbound).
    destruct (IH _ _ _ _ _ _ _ _ Hrest Hp) as [Hp1|(field & Hin & Hb)].
    + destruct (Hbound _ _ Hp1) as [?|?]; [by left|]. right. exists f. split; [by left|done].
    + right. exists field. split; [by right|].
      eapply bindsParam_alike; [|exact Hb]. by symmetry.
Qed.

(** C7. A record that declares a generic parameter bound by none of its
    emitted fields' mapped types is never emitted.  When no field that
    the ordinary field rules let through (a field that is extended,
    unexported or named [-] by a tag counts for nothing) gets on its
    line a type with a generic value that binds the parameter (a type
    that a typescript tag names binds nothing), [buildStruct] returns no
    declaration; and once the field loop is through, it fails with the
    error that names the record and the first declared parameter that
    is missing from the bindings gathered from the fields. *)
Theorem unused_generic_is_an_error g o n targs underlying st σ p :
  p ∈ types.n_TypeParams n →
  (∀ field, field ∈ st → isExtended field = false →
            ¬ bindsParam g σ field (types.tp_String p)) →
  let obj := types.OTypeName o (Some (types.TNamed n targs underlying)) in
  (∀ block σ', buildStruct g obj st σ ≠ Ok (block, σ')) ∧
  (∀ fields used σ1,
     fieldLines g obj (filter (λ f, ¬ isExtended f) st) [] ∅ σ = Ok ((fields, used), σ1) →
     ∃ before p0 after,
       types.n_TypeParams n = before ++ p0 :: after ∧
       Forall (λ q, is_Some (used !! types.tp_String q)) before ∧
       used !! types.tp_String p0 = None ∧
       buildStruct g obj st σ = Err (missingParam (types.tp_String p0) (types.obj_Name o))).
Proof.
  intros Hp Hunbound obj.
  assert (∀ fields used σ1,
     fieldLines g obj (filter (λ f, ¬ isExtended f) st) [] ∅ σ = Ok ((fields, used), σ1) →
     ∃ before p0 after,
       types.n_TypeParams n = before ++ p0 :: after ∧
       Forall (λ q, is_Some (used !! types.tp_String q)) before ∧
       used !! types.tp_String p0 = None ∧
       buildStruct g obj st σ = Err (missingParam (types.tp_String p0) (types.obj_Name o)))
    as Herr.
  { intros fields used σ1 Hfields.
    destruct (paramsLoop_missing (types.obj_Name o) used (types.n_TypeParams n))
      as (before & p0 & after & Hparams & Hbefore & Hnone & Hloop).
    { exists p. split; [done|].
      destruct (used !! types.tp_String p) as [c|] eqn:Hq; [|done].
      destruct (fieldLines_bound _ _ _ _ _ _ _ _ _ _ _ Hfields Hq)
        as [Hempty|(f & [Hnot Hf]%list_elem_of_filter & Hb)].
      - by rewrite lookup_empty in Hempty.
      - destruct (Hunbound f Hf); [|done]. destruct (isExtended f); [|done]. by destruct Hnot. }
    exists before, p0, after. repeat split; [done..|].
    rewrite buildStruct_unfold. unfold bind at 1. rewrite Hfields. simpl.
    unfold bind. by rewrite Hloop. }
  split; [|done].
  intros block σ' Hok. pose proof Hok as Hok'.
  rewrite buildStruct_unfold in Hok'.
  apply bind_Ok in Hok' as ([fields used] & σ1 & Hfields & _).
  destruct (Herr _ _ _ Hfields) as (? & ? & ? & _ & _ & _ & Hbuild). congruence.
Qed.

End Parameters.

(** * The properties on the sample inputs *)

Section Witnesses.
#[local] Existing Instance plainLibrary.
#[local] Existing Instance forwardOrder.

(** C1. The code on an enum whose constants repeat a value: the values
    are sorted and every one of them is emitted, the repeated one twice,
    in the union and in the companion array. *)
Theorem duplicate_enum_values_are_kept :
  generateAll 0 enumState = Ok (enumRun.1, enumRun.2) ∧
  Enums enumRun.1 !! "T" = Some enumTBlock ∧
  enumCodeBlock "" "T"
    [ types.OConst (sdkObj "TB") (Some enumT) (quoted "b");
      types.OConst (sdkObj "TA") (Some enumT) (quoted "a");
      types.OConst (sdkObj "TAlso") (Some enumT) (quoted "a") ] =
  "export type T = " +:+ quoted "a" +:+ " | " +:+ quoted "a" +:+ " | " +:+ quoted "b" +:+
  strings.nl +:+
  "export const Ts: T[] = [" +:+ quoted "a" +:+ ", " +:+ quoted "a" +:+ ", " +:+ quoted "b" +:+
  "]" +:+ strings.nl.
Proof. repeat split; vm_compute; reflexivity. Qed.

(** The regeneration loop on the chain [P], [Q], [R]: two passes grow the
    allow list and do not end the loop; the third leaves it alone. *)
Example regenerate_chain :
  (returned (regenerate 2 0 chainState) None).1 = None ∧
  is_Some (returned (regenerate 3 0 chainState) None).1 ∧
  allowList <$> gens (returned (regenerate 3 0 chainState) None).2
  = [["P"; "Q"; "R"]].
Proof. repeat split; vm_compute; eauto. Qed.

Lemma regenerate_terminates_witness :
  gens chainState !! 0 = Some (generatorOf (sdkPackage chainScope) true ["P"]) ∧
  externals (generatorOf (sdkPackage chainScope) true ["P"]) = [] ∧
  uncovered (generatorOf (sdkPackage chainScope) true ["P"]) = 3 ∧
  ∃ n r,
    n ≤ uncovered (generatorOf (sdkPackage chainScope) true ["P"]) ∧
    uncovered (generatorOf (sdkPackage chainScope) true ["P"])
    ≤ size (pkg_Scope (pkg (generatorOf (sdkPackage chainScope) true ["P"]))) ∧
    looped 0 chainState n r ∧
    ∀ fuel, n < fuel → regenerate fuel 0 chainState = r.
Proof.
  split; [reflexivity|]. split; [reflexivity|]. split; [vm_compute; reflexivity|].
  apply (regenerate_terminates 0 chainState
           (generatorOf (sdkPackage chainScope) true ["P"])); reflexivity.
Defined.

(** C2. The allow list of an external package is not bounded by the
    count of its declarations: the package [serpent] declares [Option]
    alone, and the pass over a base package that refers to it twice
    leaves its allow list with two entries.  And the loop does not wait
    for two passes: on an allow list that is complete, it returns the
    blocks of its first pass. *)
Lemma allow_list_exceeds_the_declarations :
  (main 3 [healthPackage; serpentPackage] [sdkPackage twiceScope] emptyState
   = Ok (true, twiceRun.2) ∧
   pkg <$> gens twiceRun.2 !! 1 = Some serpentPackage ∧
   size (pkg_Scope serpentPackage) = 1 ∧
   allowList <$> gens twiceRun.2 !! 1 = Some ["Option"; "Option"] ∧
   ¬ (length ["Option"; "Option"] ≤ size (pkg_Scope serpentPackage))) ∧
  (regenerate 1 0 (oneGenerator (sdkPackage chainScope) true ["P"; "Q"; "R"])
   = Ok (Some chainBlocks, oneGenerator (sdkPackage chainScope) true ["P"; "Q"; "R"])).
Proof.
  split; [|vm_compute; reflexivity].
  split; [vm_compute; reflexivity|]. split; [vm_compute; reflexivity|].
  split; [vm_compute; reflexivity|]. split; [vm_compute; reflexivity|].
  vm_compute. lia.
Qed.

(** C4. The code on [map[string]T] for a type parameter [T]: the key maps
    with a nil binding map, the element with a binding for [T], and the
    merge writes into the nil map. *)
Theorem map_of_type_parameter_panics :
  typescriptType 0 goString enumState = Ok (tsValue "string", enumState) ∧
  GenericTypes (tsValue "string") = None ∧
  typescriptType 0 mapOfParam enumState
  = Panic "assignment to entry in nil map".
Proof. repeat split. Qed.



Lemma generics_in_declaration_order_witness :
  buildStruct 0 pairObj pairFields enumState = Ok (pairRun.1, pairRun.2) ∧
  pairRun.1 =
  "// From codersdk/types.go" +:+ strings.nl +:+
  "export interface Pair<A extends comparable, B extends any> {" +:+ strings.nl +:+
  "  readonly second: B" +:+ strings.nl +:+
  "  readonly first: A" +:+ strings.nl +:+ "}" +:+ strings.nl ∧
  ∃ o n targs underlying fields used,
    pairObj = types.OTypeName o (Some (types.TNamed n targs underlying)) ∧
    fieldLines 0 pairObj (filter (λ f, ¬ isExtended f) pairFields) [] ∅ enumState
    = Ok ((fields, used), pairRun.2) ∧
    Forall (λ p, is_Some (used !! types.tp_String p)) (types.n_TypeParams n) ∧
    pairRun.1 =
    structTemplate
      {| tpl.PosLine := posLine o;
         tpl.Name := objName (types.obj_Pkg o) (types.obj_Name o);
         tpl.Fields := fields;
         tpl.Generics :=
           (λ p, types.tp_String p +:+ " extends " +:+ default "" (used !! types.tp_String p))
             <$> types.n_TypeParams n;
         tpl.Extends :=
           strings.Join (types.var_Name ∘ types.f_Var <$> filter (λ f, isExtended f) pairFields) ", ";
         tpl.AboveLine := "" |}.
Proof.
  split; [vm_compute; reflexivity|]. split; [vm_compute; reflexivity|].
  apply (generics_in_declaration_order 0 pairObj pairFields enumState
           pairRun.1 pairRun.2).
  vm_compute. reflexivity.
Defined.

Lemma unused_generic_is_an_error_witness :
  sdkParam "A" "any" ∈ types.n_TypeParams looseInfo ∧
  (∀ field, field ∈ looseFields → isExtended field = false →
            ¬ bindsParam 0 enumState field "A") ∧
  buildStruct 0
    (types.OTypeName (sdkObj "Loose")
       (Some (types.TNamed looseInfo [] (types.TStruct looseFields))))
    looseFields enumState
  = Err ("generic param " +:+ quoted "A" +:+ " missing on " +:+ quoted "Loose" +:+
         ", fix your data structure") ∧
  let obj := types.OTypeName (sdkObj "Loose")
               (Some (types.TNamed looseInfo [] (types.TStruct looseFields))) in
  (∀ block σ', buildStruct 0 obj looseFields enumState ≠ Ok (block, σ')) ∧
  (∀ fields used σ1,
     fieldLines 0 obj (filter (λ f, ¬ isExtended f) looseFields) [] ∅ enumState
     = Ok ((fields, used), σ1) →
     ∃ before p0 after,
       types.n_TypeParams looseInfo = before ++ p0 :: after ∧
       Forall (λ q, is_Some (used !! types.tp_String q)) before ∧
       used !! types.tp_String p0 = None ∧
       buildStruct 0 obj looseFields enumState
       = Err (missingParam (types.tp_String p0) (types.obj_Name (sdkObj "Loose")))).
Proof.
  assert (∀ field, field ∈ looseFields → isExtended field = false →
                   ¬ bindsParam 0 enumState field "A") as Hunbound.
  { intros field Hin _ (tags & ts & σb & gt & c & Hl & Htags & Hts & Hgv & _).
    repeat (apply elem_of_cons in Hin as [->|Hin]); [..|by apply elem_of_nil in Hin].
    - vm_compute in Htags. injection Htags as <-.
      vm_compute in Hts. injection Hts as <- _. by destruct Hgv.
    - by vm_compute in Hl.
    - vm_compute in Htags. injection Htags as <-. vm_compute in Hgv. by destruct Hgv.
    - by vm_compute in Hl. }
  split; [by left|]. split; [exact Hunbound|]. split; [vm_compute; reflexivity|].
  apply (unused_generic_is_an_error 0 (sdkObj "Loose") looseInfo []
           (types.TStruct looseFields) looseFields enumState (sdkParam "A" "any"));
    [by left|exact Hunbound].
Defined.

Lemma generation_is_deterministic_witness :
  main (O := forwardOrder) 3 [] [sdkPackage enumScope] {| gens := []; stdout := EmptyString |} =
  main (O := backwardOrder) 3 [] [sdkPackage enumScope] {| gens := []; stdout := EmptyString |} ∧
  TypescriptTypes_String (O := forwardOrder) someTypes =
  TypescriptTypes_String (O := backwardOrder) someTypes ∧
  TypescriptTypes_String (O := backwardOrder) someTypes =
  "export interface A {}" +:+ strings.nl +:+ "export interface B {}" +:+ strings.nl +:+
  "export type E = never" +:+ strings.nl +:+ "export type comparable = any".
Proof.
  destruct (generation_is_deterministic (L := plainLibrary) forwardOrder backwardOrder)
    as (Hmain & _ & Htext).
  split; [apply Hmain|].
  destruct (Htext someTypes) as (s1 & s2 & s3 & text & _ & _ & _ & _ & Hf & Hb).
  split; [by rewrite Hf, Hb|]. vm_compute. reflexivity.
Defined.

Lemma enum_constant_is_pluralized_witness :
  generateAll 0 enumState = Ok (enumRun.1, enumRun.2) ∧
  Enums enumRun.1 !! "Status" =
  Some ("// From codersdk/types.go" +:+ strings.nl +:+
        "export type Status = " +:+ quoted "ok" +:+ strings.nl +:+
        "export const Statuses: Status[] = [" +:+ quoted "ok" +:+ "]" +:+ strings.nl) ∧
  pluralOf "Status" = "Statuses" ∧ pluralOf "Bus" = "Buses" ∧ pluralOf "Role" = "Roles" ∧
  ∃ posLine0 union values,
    "// From codersdk/types.go" +:+ strings.nl +:+
    "export type Status = " +:+ quoted "ok" +:+ strings.nl +:+
    "export const Statuses: Status[] = [" +:+ quoted "ok" +:+ "]" +:+ strings.nl =
    posLine0 +:+ "export type " +:+ "Status" +:+ " = " +:+ union +:+ strings.nl +:+
    "export const " +:+ pluralOf "Status" +:+ ": " +:+ "Status" +:+ "[] = [" +:+ values +:+ "]" +:+
    strings.nl.
Proof.
  split; [vm_compute; reflexivity|]. split; [vm_compute; reflexivity|].
  split; [reflexivity|]. split; [reflexivity|]. split; [reflexivity|].
  apply (enum_constant_is_pluralized 0 enumState enumRun.1 enumRun.2 "Status");
    vm_compute; reflexivity.
Defined.

Lemma empty_enum_is_never_witness :
  gens enumState !! 0 = Some (generatorOf (sdkPackage enumScope) false []) ∧
  generateNames 0 enumScope (types.Names enumScope)
                (initialMaps (generatorOf (sdkPackage enumScope) false [])) enumState
  = Ok (enumMaps.1, enumMaps.2) ∧
  maps.Enums enumMaps.1 !! "Bus" = Some (types.OTypeName (sdkObj "Bus") (Some enumBus)) ∧
  default [] (maps.EnumConsts enumMaps.1 !! "Bus") = [] ∧
  ∃ ts,
    generateAll 0 enumState = Ok (ts, enumMaps.2) ∧
    Enums ts !! "Bus" =
    Some (posLine (sdkObj "Bus") +:+
          "export type " +:+ "Bus" +:+ " = never" +:+ strings.nl +:+
          "export const " +:+ pluralOf "Bus" +:+ ": " +:+ "Bus" +:+ "[] = []" +:+ strings.nl).
Proof.
  split; [reflexivity|]. split; [vm_compute; reflexivity|].
  split; [vm_compute; reflexivity|]. split; [vm_compute; reflexivity|].
  apply (empty_enum_is_never 0 enumState
           (generatorOf (sdkPackage enumScope) false []) enumMaps.1 enumMaps.2 "Bus"
           (types.OTypeName (sdkObj "Bus") (Some enumBus)));
    vm_compute; reflexivity.
Defined.

Lemma generation_pass_keeps_generators_witness :
  generateAll 1 linkedState = Ok (linkedRun.1, linkedRun.2) ∧
  allowList <$> gens linkedState = [[]; []] ∧
  allowList <$> gens linkedRun.2 = [["Option"]; []] ∧
  grows linkedState linkedRun.2.
Proof.
  split; [vm_compute; reflexivity|]. split; [vm_compute; reflexivity|].
  split; [vm_compute; reflexivity|].
  apply (generation_pass_keeps_generators 1 linkedState linkedRun.1 linkedRun.2).
  vm_compute. reflexivity.
Defined.

Lemma reference_resolves_by_package_name_witness :
  lookupNamedReference 1 optionInfo linkedState
  = Ok (Some (optionObj, 0, false), linkedState) ∧
  ∃ gen pkgName,
    gens linkedState !! 1 = Some gen ∧ types.tn_Pkg (types.n_Obj optionInfo) = Some pkgName ∧
    ¬ (pkg_Name (pkg gen) = pkgName ∧ is_Some (pkg_Scope (pkg gen) !! "Option")) ∧
    ∃ before after e,
      externals gen = before ++ 0 :: after ∧ gens linkedState !! 0 = Some e ∧
      pkg_Name (pkg e) = pkgName ∧ pkg_Scope (pkg e) !! "Option" = Some optionObj ∧
      Forall (λ q, ∀ e', gens linkedState !! q = Some e' →
                ¬ (pkg_Name (pkg e') = pkgName ∧ is_Some (pkg_Scope (pkg e') !! "Option")))
             before.
Proof.
  assert (lookupNamedReference 1 optionInfo linkedState
          = Ok (Some (optionObj, 0, false), linkedState)) as H by (vm_compute; reflexivity).
  split; [exact H|].
  exact (proj2 (reference_resolves_by_package_name 1 optionInfo linkedState
                  (Some (optionObj, 0, false)) linkedState H)).
Defined.

Lemma resolved_reference_is_recorded_witness :
  assoc namedTable (types.n_String optionInfo) = None ∧
  serpentStruct (types.n_String optionInfo) = false ∧
  lookupNamedReference 1 optionInfo linkedState
  = Ok (Some (optionObj, 0, false), linkedState) ∧
  typescriptType 1 optionType linkedState = Ok (optionRun.1, optionRun.2) ∧
  ValueType optionRun.1 = "SerpentOption" ∧
  ∃ gen gen',
    gens linkedState !! 1 = Some gen ∧ gens optionRun.2 !! 1 = Some gen' ∧
    (onlyOptIn gen → "Option" ∈ allowList gen') ∧
    (false = false → ∃ e', gens optionRun.2 !! 0 = Some e' ∧ "Option" ∈ allowList e').
Proof.
  split; [vm_compute; reflexivity|]. split; [vm_compute; reflexivity|].
  split; [vm_compute; reflexivity|]. split; [vm_compute; reflexivity|].
  split; [vm_compute; reflexivity|].
  apply (resolved_reference_is_recorded 1 optionInfo [] (types.TStruct []) linkedState
           optionRun.1 optionRun.2 optionObj 0 false); vm_compute; reflexivity.
Defined.

Lemma only_admitted_declarations_are_emitted_witness :
  gens chainState !! 0 = Some (generatorOf (sdkPackage chainScope) true ["P"]) ∧
  generateAll 0 chainState = Ok (chainPass.1, chainPass.2) ∧
  dom (Types chainPass.1) = {[ "P" ]} ∧
  let gen := generatorOf (sdkPackage chainScope) true ["P"] in
  let declared (k : string) :=
    ∃ n o ty,
      pkg_Scope (pkg gen) !! n = Some (types.OTypeName o ty) ∧
      k = objName (types.obj_Pkg o) (types.obj_Name o) ∧
      admitted (onlyOptIn gen) (initialMaps gen) (types.obj_Name o) in
  (∀ k, is_Some (Types chainPass.1 !! k) ∨ is_Some (Enums chainPass.1 !! k) → declared k) ∧
  (∀ k, is_Some (Generics chainPass.1 !! k) →
     declared k ∨ ∃ gen', gens chainPass.2 !! 0 = Some gen' ∧ is_Some (builtins gen' !! k)).
Proof.
  split; [reflexivity|]. split; [vm_compute; reflexivity|].
  split; [vm_compute; reflexivity|].
  apply (only_admitted_declarations_are_emitted 0 chainState
           (generatorOf (sdkPackage chainScope) true ["P"]) chainPass.1 chainPass.2);
    [reflexivity|vm_compute; reflexivity].
Defined.

Lemma admitted_declarations_are_emitted_witness :
  gens chainState !! 0 = Some (generatorOf (sdkPackage chainScope) true ["P"]) ∧
  generateAll 0 chainState = Ok (chainPass.1, chainPass.2) ∧
  chainScope !! "P" = Some (chainStruct "P" ["Q"]) ∧
  admitted true (initialMaps (generatorOf (sdkPackage chainScope) true ["P"])) "P" ∧
  is_Some (Types chainPass.1 !! "P").
Proof.
  assert (admitted true (initialMaps (generatorOf (sdkPackage chainScope) true ["P"])) "P")
    as Hadm.
  { split; [|intros _]; apply (bool_decide_unpack _); vm_compute; exact I. }
  split; [reflexivity|]. split; [vm_compute; reflexivity|].
  split; [vm_compute; reflexivity|]. split; [exact Hadm|].
  apply (admitted_declarations_are_emitted 0 chainState
           (generatorOf (sdkPackage chainScope) true ["P"]) chainPass.1 chainPass.2
           "P" (sdkObj "P")
           {| types.n_String := "github.com/coder/coder/v2/codersdk.P";
              types.n_Obj := {| types.tn_Name := "P"; types.tn_Pkg := Some "codersdk" |};
              types.n_TypeParams := [] |}
           [] (types.TStruct [sdkField "Q" false "" (emptyStruct "Q")]));
    [reflexivity|vm_compute; reflexivity|vm_compute; reflexivity|exact Hadm].
Defined.

Lemma unnamed_types_map_without_effects_witness :
  unnamed mapOfSlices ∧
  typescriptType 0 mapOfSlices emptyState
  = Ok ({| GenericTypes := None; GenericValue := ""; ValueType := "Record<string, string[]>";
           AboveTypeLine := ""; Optional := false |}, emptyState) ∧
  ((∃ ts, GenericTypes ts = None ∧ GenericValue ts = "" ∧
          ∀ g σ, typescriptType g mapOfSlices σ = Ok (ts, σ)) ∨
   (∃ msg, ∀ g σ, typescriptType g mapOfSlices σ = Err msg)).
Proof.
  split; [exact I|]. split; [vm_compute; reflexivity|].
  apply (unnamed_types_map_without_effects mapOfSlices). exact I.
Defined.

Lemma generic_record_of_maps_is_not_emitted_witness :
  types.n_TypeParams boxInfo ≠ [] ∧
  (∀ field, field ∈ boxFields → isExtended field = false →
     (∃ key elem, types.f_Type field = types.TMap key elem) ∨ unnamed (types.f_Type field)) ∧
  buildStruct 0 (types.OTypeName (sdkObj "Box")
                   (Some (types.TNamed boxInfo [] (types.TStruct boxFields))))
              boxFields enumState
  = Err ("generic param " +:+ quoted "K" +:+ " missing on " +:+ quoted "Box" +:+
         ", fix your data structure") ∧
  ∀ block σ',
    buildStruct 0 (types.OTypeName (sdkObj "Box")
                     (Some (types.TNamed boxInfo [] (types.TStruct boxFields))))
                boxFields enumState
    ≠ Ok (block, σ').
Proof.
  assert (∀ field, field ∈ boxFields → isExtended field = false →
            (∃ key elem, types.f_Type field = types.TMap key elem) ∨
            unnamed (types.f_Type field)) as Hfields.
  { intros field ->%list_elem_of_singleton _. left. eauto. }
  split; [done|]. split; [exact Hfields|]. split; [vm_compute; reflexivity|].
  apply (generic_record_of_maps_is_not_emitted 0 (sdkObj "Box") boxInfo []
           (types.TStruct boxFields) boxFields enumState); [done|exact Hfields].
Defined.

Lemma optional_is_set_by_pointers_witness :
  typescriptType 0 (types.TPointer goString) emptyState
  = Ok (tsOptional "string", emptyState) ∧
  Optional (tsOptional "string") = true ∧
  typescriptType 0 (types.TSlice (types.TPointer goString)) emptyState
  = Ok (tsValue "string[]", emptyState) ∧
  Optional (tsValue "string[]") = false.
Proof.
  assert (typescriptType 0 (types.TPointer goString) emptyState
          = Ok (tsOptional "string", emptyState)) as H1 by (vm_compute; reflexivity).
  assert (typescriptType 0 (types.TSlice (types.TPointer goString)) emptyState
          = Ok (tsValue "string[]", emptyState)) as H2 by (vm_compute; reflexivity).
  split; [exact H1|]. split; [exact (optional_is_set_by_pointers _ _ _ _ _ H1)|].
  split; [exact H2|]. exact (optional_is_set_by_pointers _ _ _ _ _ H2).
Defined.

Lemma skipped_field_is_as_if_absent_witness :
  isExtended connField = false ∧
  is_Some (structtag_Parse (types.f_Tag connField)) ∧
  (types.var_Exported (types.f_Var connField) = false ∨
   ∃ tags, fieldTags connField = Some tags ∧ tag_Name <$> tagsGet tags "json" = Some "-") ∧
  buildStruct 0 (peerObj [nameField; connField]) [nameField] enumState
  = Ok ("// From codersdk/types.go" +:+ strings.nl +:+
        "export interface Peer {" +:+ strings.nl +:+
        "  readonly name: string" +:+ strings.nl +:+ "}" +:+ strings.nl, enumState) ∧
  buildStruct 0 (peerObj [nameField; connField]) ([nameField] ++ connField :: []) enumState
  = buildStruct 0 (peerObj [nameField; connField]) ([nameField] ++ []) enumState.
Proof.
  assert (∃ tags, fieldTags connField = Some tags ∧
                  tag_Name <$> tagsGet tags "json" = Some "-") as Hdash
    by (eexists; split; vm_compute; reflexivity).
  split; [reflexivity|]. split; [vm_compute; eauto|]. split; [by right|].
  split; [vm_compute; reflexivity|].
  apply (skipped_field_is_as_if_absent 0 (peerObj [nameField; connField])
           [nameField] connField [] enumState); [reflexivity|vm_compute; eauto|by right].
Defined.

Lemma field_error_fails_the_record_witness :
  fieldLines 0 (peerObj [nameField; doneField])
             (filter (λ f, ¬ isExtended f) [nameField]) [] ∅ enumState
  = Ok ((["  readonly name: string"], ∅), enumState) ∧
  isExtended doneField = false ∧
  types.var_Exported (types.f_Var doneField) = true ∧
  fieldTags doneField
  = Some [{| tag_Key := "typescript"; tag_Name := "-"; tag_Options := [] |}] ∧
  typescriptType 0 (types.f_Type doneField) enumState = Err "unknown type: chan int" ∧
  buildStruct 0 (peerObj [nameField; doneField]) ([nameField] ++ doneField :: []) enumState
  = Err ("typescript type: " +:+ "unknown type: chan int").
Proof.
  split; [vm_compute; reflexivity|]. split; [reflexivity|]. split; [reflexivity|].
  split; [vm_compute; reflexivity|]. split; [reflexivity|].
  apply (field_error_fails_the_record 0 (peerObj [nameField; doneField])
           [nameField] doneField [] enumState ["  readonly name: string"] ∅ enumState
           [{| tag_Key := "typescript"; tag_Name := "-"; tag_Options := [] |}]
           "unknown type: chan int");
    [vm_compute; reflexivity|reflexivity|reflexivity|vm_compute; reflexivity|done|reflexivity].
Defined.

Lemma unparsed_tag_panics_witness :
  fieldLines 0 brokenObj (filter (λ f, ¬ isExtended f) []) [] ∅ enumState
  = Ok (([], ∅), enumState) ∧
  isExtended brokenField = false ∧
  types.var_Exported (types.f_Var brokenField) = false ∧
  structtag_Parse (types.f_Tag brokenField) = None ∧
  buildStruct 0 brokenObj ([] ++ brokenField :: []) enumState
  = Panic ("invalid struct tags on type " +:+
           "type github.com/coder/coder/v2/codersdk.Broken struct{name string " +:+
           quoted "json" +:+ "}").
Proof.
  split; [reflexivity|]. split; [reflexivity|]. split; [reflexivity|].
  split; [vm_compute; reflexivity|].
  apply (unparsed_tag_panics 0 brokenObj [] brokenField [] enumState [] ∅ enumState);
    [reflexivity|reflexivity|vm_compute; reflexivity].
Defined.

Lemma main_output_starts_with_header_witness :
  main 3 [] [sdkPackage enumScope] emptyState = Ok (mainRun.1, mainRun.2) ∧
  mainRun.1 = true ∧
  ∃ rest,
    stdout mainRun.2 =
    stdout emptyState +:+
    ("// Code generated by 'make site/src/api/typesGenerated.ts'. DO NOT EDIT." +:+
     strings.nl +:+ strings.nl) +:+
    ("// The code below is generated from codersdk." +:+ strings.nl +:+ strings.nl) +:+ rest.
Proof.
  split; [vm_compute; reflexivity|]. split; [vm_compute; reflexivity|].
  apply (main_output_starts_with_header 3 [] [sdkPackage enumScope] emptyState
           mainRun.1 mainRun.2).
  vm_compute. reflexivity.
Defined.

Lemma record_block_is_built_from_its_declaration_witness :
  gens linkedState !! 1 = Some configGenerator ∧
  generateAll 1 linkedState = Ok (linkedRun.1, linkedRun.2) ∧
  Types linkedRun.1 !! "Config" = Some configBlock ∧
  ∃ n obj σa σb,
    pkg_Scope (pkg configGenerator) !! n = Some obj ∧
    "Config" = objName (types.obj_Pkg (types.info obj)) (types.obj_Name (types.info obj)) ∧
    grows linkedState σa ∧ grows σb linkedRun.2 ∧ builtBy 1 obj configBlock σa σb.
Proof.
  split; [reflexivity|]. split; [vm_compute; reflexivity|].
  split; [vm_compute; reflexivity|].
  apply (record_block_is_built_from_its_declaration 1 linkedState configGenerator
           linkedRun.1 linkedRun.2 "Config" configBlock);
    [reflexivity|vm_compute; reflexivity|vm_compute; reflexivity].
Defined.

Lemma enum_lists_the_constants_of_its_type_witness :
  gens enumState !! 0 = Some (generatorOf (sdkPackage enumScope) false []) ∧
  generateAll 0 enumState = Ok (enumRun.1, enumRun.2) ∧
  Enums enumRun.1 !! "T" = Some enumTBlock ∧
  Val_String <$> constsFor enumScope ∅ "T" (types.Names enumScope)
  = [quoted "a"; quoted "a"; quoted "b"] ∧
  ∃ n v,
    pkg_Scope (pkg (generatorOf (sdkPackage enumScope) false [])) !! n = Some v ∧
    "T" = objName (types.obj_Pkg (types.info v)) (types.obj_Name (types.info v)) ∧
    enumTBlock =
    enumCodeBlock (posLine (types.info v)) "T"
      (constsFor (pkg_Scope (pkg (generatorOf (sdkPackage enumScope) false [])))
                 (maps.IgnoredTypes (initialMaps (generatorOf (sdkPackage enumScope) false [])))
                 "T"
                 (types.Names (pkg_Scope (pkg (generatorOf (sdkPackage enumScope) false []))))).
Proof.
  split; [reflexivity|]. split; [vm_compute; reflexivity|].
  split; [vm_compute; reflexivity|]. split; [vm_compute; reflexivity|].
  apply (enum_lists_the_constants_of_its_type 0 enumState
           (generatorOf (sdkPackage enumScope) false []) enumRun.1 enumRun.2 "T" enumTBlock);
    [reflexivity|vm_compute; reflexivity|vm_compute; reflexivity].
Defined.

Lemma used_builtin_constraint_is_emitted_witness :
  generateAll 0 pairState = Ok (pairPass.1, pairPass.2) ∧
  Generics pairPass.1 !! "comparable"
  = Some "export type comparable = boolean | number | string | any".
Proof.
  split; [vm_compute; reflexivity|].
  apply (used_builtin_constraint_is_emitted 0 pairState
           (generatorOf (sdkPackage pairScope) false []) pairPass.1 pairPass.2
           "Pair" (sdkObj "Pair")
           {| types.n_String := "github.com/coder/coder/v2/codersdk.Pair";
              types.n_Obj := {| types.tn_Name := "Pair"; types.tn_Pkg := Some "codersdk" |};
              types.n_TypeParams := pairParams |}
           [] pairFields
           (sdkField "First" false (tagText [("json", "first")])
              (types.TTypeParam (sdkParam "A" "comparable")))
           [{| tag_Key := "json"; tag_Name := "first"; tag_Options := [] |}]
           (sdkParam "A" "comparable")).
  - reflexivity.
  - vm_compute. reflexivity.
  - vm_compute. reflexivity.
  - split; [|intros [Hne|Hopt]].
    + apply (bool_decide_unpack _). vm_compute. exact I.
    + exfalso. apply Hne. vm_compute. reflexivity.
    + destruct Hopt.
  - right. left.
  - reflexivity.
  - reflexivity.
  - vm_compute. reflexivity.
  - done.
  - reflexivity.
  - reflexivity.
  - vm_compute. reflexivity.
  - reflexivity.
  - done.
Defined.

Lemma Generate_renders_a_fresh_pass_witness :
  generateAll 0 {| gens := [] ++ [parsedGenerator (sdkPackage enumScope) []]; stdout := "" |}
  = Ok (enumPass.1, enumPass.2) ∧
  ∃ gen1,
    gens enumPass.2 !! 0 = Some gen1 ∧ pkg gen1 = sdkPackage enumScope ∧ externals gen1 = [] ∧
    Generate "./codersdk" (sdkPackage enumScope) [] emptyState =
    Ok (TypescriptTypes_String enumPass.1,
        {| gens := <[0 := withCachedResult gen1 enumPass.1]> (gens enumPass.2);
           stdout := stdout enumPass.2 |}).
Proof.
  assert (generateAll 0 {| gens := [] ++ [parsedGenerator (sdkPackage enumScope) []];
                           stdout := "" |}
          = Ok (enumPass.1, enumPass.2)) as H by (vm_compute; reflexivity).
  split; [exact H|].
  exact (proj1 (Generate_renders_a_fresh_pass "./codersdk" (sdkPackage enumScope) []
                  emptyState) enumPass.1 enumPass.2 H).
Defined.

Lemma generic_reference_binds_its_parameters_witness :
  typescriptType 0
    (types.TNamed listOfA [types.TTypeParam (sdkParam "A" "comparable")] (types.TStruct []))
    listState
  = Ok (listRun.1, listRun.2) ∧
  ValueType listRun.1 = "List<comparable>" ∧
  GenericValue listRun.1 = "List<A>" ∧
  GenericValue listRun.1 ≠ "" ∧
  ∃ gts, GenericTypes listRun.1 = Some gts ∧
    ∀ k, is_Some (gts !! k) ↔
         ∃ tp, types.TTypeParam tp ∈ [types.TTypeParam (sdkParam "A" "comparable")] ∧
               types.tp_Name tp = k.
Proof.
  split; [vm_compute; reflexivity|]. split; [vm_compute; reflexivity|].
  split; [vm_compute; reflexivity|].
  apply (generic_reference_binds_its_parameters 0 listOfA
           [types.TTypeParam (sdkParam "A" "comparable")] (types.TStruct []) listState
           (default (types.OOther (sdkObj "") None) (listScope !! "List"), 0, true)
           listRun.1 listRun.2);
    [vm_compute; reflexivity|vm_compute; reflexivity|vm_compute; reflexivity|done
    |vm_compute; reflexivity].
Defined.

Lemma directive_lists_the_names_witness :
  strings.Join [" Foo"; paddedName] "," = " Foo, Bar" +:+ strings.bytes [194; 160] ∧
  directive "@typescript-ignore"
    ("// " +:+ "@typescript-ignore" +:+ ":" +:+ strings.Join [" Foo"; paddedName] ",")
  = strings.TrimSpace <$> [" Foo"; paddedName] ∧
  strings.TrimSpace <$> [" Foo"; paddedName] = ["Foo"; "Bar"].
Proof.
  split; [reflexivity|]. split; [|vm_compute; reflexivity].
  apply (directive_lists_the_names "@typescript-ignore" true [" Foo"; paddedName]).
  - by left.
  - repeat constructor.
  - done.
  - done.
Defined.

Lemma mapper_fails_for_two_reasons_witness :
  typescriptType 0 (types.TPointer (types.TSlice (types.TChan "chan int"))) emptyState
  = Err "pointer: array: unknown type: chan int" ∧
  rejects (types.TPointer (types.TSlice (types.TChan "chan int")))
          "pointer: array: unknown type: chan int" ∧
  supported (types.TPointer (types.TSlice (types.TChan "chan int"))) = false.
Proof.
  assert (typescriptType 0 (types.TPointer (types.TSlice (types.TChan "chan int"))) emptyState
          = Err "pointer: array: unknown type: chan int") as H by reflexivity.
  split; [exact H|]. exact (mapper_fails_for_two_reasons _ _ _ _ H).
Defined.

Lemma rejected_type_fails_witness :
  unnamed (types.TMap (types.TChan "chan int") (types.TSignature "func()")) ∧
  rejects (types.TMap (types.TChan "chan int") (types.TSignature "func()"))
          ("map key: " +:+ ("unknown type: " +:+ "func()")) ∧
  typescriptType 0 (types.TMap (types.TChan "chan int") (types.TSignature "func()")) emptyState
  = Err "map key: unknown type: chan int" ∧
  ∃ msg',
    rejects (types.TMap (types.TChan "chan int") (types.TSignature "func()")) msg' ∧
    ∀ g σ, typescriptType g (types.TMap (types.TChan "chan int") (types.TSignature "func()")) σ
           = Err msg'.
Proof.
  assert (rejects (types.TMap (types.TChan "chan int") (types.TSignature "func()"))
                  ("map key: " +:+ ("unknown type: " +:+ "func()"))) as Hrej
    by (apply rejects_elem, rejects_signature).
  split; [exact I|]. split; [exact Hrej|]. split; [reflexivity|].
  apply (rejected_type_fails
           (types.TMap (types.TChan "chan int") (types.TSignature "func()"))
           ("map key: " +:+ ("unknown type: " +:+ "func()"))); [exact I|exact Hrej].
Defined.

Lemma named_type_without_package_panics_witness :
  assoc namedTable "error" = None ∧ serpentStruct "error" = false ∧
  typescriptType 0 errorType emptyState
  = Panic "runtime error: invalid memory address or nil pointer dereference".
Proof.
  split; [reflexivity|]. split; [reflexivity|].
  apply (named_type_without_package_panics 0 _ [] (types.TInterface false []) emptyState);
    reflexivity.
Defined.

Lemma unresolved_name_is_flagged_witness :
  lookupNamedReference 0 ipInfo enumState = Ok (None, enumState) ∧
  typescriptType 0 ipType enumState = Ok (ipRun.1, ipRun.2) ∧
  ipRun.1 =
  tsCommented "string"
    ("  // This is likely an enum in an external package (" +:+ quoted "net.IP" +:+ ")") ∧
  AboveTypeLine ipRun.1 ≠ "" ∧
  ∃ under,
    typescriptType 0 (types.TSlice (types.TBasic types.universeByte)) enumState
    = Ok (under, ipRun.2) ∧
    ipRun.1 =
    {| GenericTypes := GenericTypes under; GenericValue := GenericValue under;
       ValueType := ValueType under;
       AboveTypeLine :=
         if bool_decide (AboveTypeLine under = "")
         then indentedComment ("This is likely an enum in an external package (" +:+
                               Quote (types.n_String ipInfo) +:+ ")")
         else AboveTypeLine under;
       Optional := Optional under |}.
Proof.
  split; [vm_compute; reflexivity|]. split; [vm_compute; reflexivity|].
  split; [vm_compute; reflexivity|].
  apply (unresolved_name_is_flagged 0 ipInfo []
           (types.TSlice (types.TBasic types.universeByte)) enumState ipRun.1 ipRun.2);
    vm_compute; reflexivity.
Defined.

Lemma typescript_tag_replaces_the_inferred_type_witness :
  typescriptType 0 (types.f_Type deadlineField) enumState
  = Ok (tsOptional "string", enumState) ∧
  fieldTags deadlineField
  = Some [ {| tag_Key := "json"; tag_Name := "deadline"; tag_Options := [] |};
           {| tag_Key := "typescript"; tag_Name := "number"; tag_Options := [] |} ] ∧
  fieldLine 0 (peerObj [deadlineField]) deadlineField [] ∅ enumState
  = Ok ((["  readonly deadline: number"], ∅), enumState).
Proof.
  split; [reflexivity|]. split; [vm_compute; reflexivity|].
  rewrite (typescript_tag_replaces_the_inferred_type 0 (peerObj [deadlineField]) deadlineField
             [] ∅ enumState
             [ {| tag_Key := "json"; tag_Name := "deadline"; tag_Options := [] |};
               {| tag_Key := "typescript"; tag_Name := "number"; tag_Options := [] |} ]
             {| tag_Key := "typescript"; tag_Name := "number"; tag_Options := [] |}
             (tsOptional "string") enumState);
    [vm_compute; reflexivity|reflexivity|vm_compute; reflexivity|done|reflexivity
    |done|done|reflexivity].
Defined.

Lemma first_failing_declaration_ends_the_pass_witness :
  types.Names failingScope = ["A"] ++ "B" :: [] ∧
  generateNames 0 failingScope ["A"]
    (initialMaps (generatorOf (sdkPackage failingScope) false [])) failingState
  = Ok (failingBefore.1, failingBefore.2) ∧
  generateAll 0 failingState
  = Err (quoted "B" +:+ ": " +:+
         ("generate " +:+ quoted "B" +:+ ": typescript type: unknown type: chan int")).
Proof.
  split; [vm_compute; reflexivity|]. split; [vm_compute; reflexivity|].
  change (quoted "B" +:+ ": " +:+
          ("generate " +:+ quoted "B" +:+ ": typescript type: unknown type: chan int"))
    with (Quote "B" +:+ ": " +:+
          ("generate " +:+ quoted "B" +:+ ": typescript type: unknown type: chan int")).
  apply (first_failing_declaration_ends_the_pass 0 failingState
           (generatorOf (sdkPackage failingScope) false []) ["A"] "B" []
           failingBefore.1 failingBefore.2
           (types.OTypeName (sdkObj "B")
              (Some (sdkNamed "B" [] []
                       (types.TStruct [sdkField "Done" false "" (types.TChan "chan int")]))))
           ("generate " +:+ quoted "B" +:+ ": typescript type: unknown type: chan int"));
    vm_compute; reflexivity.
Defined.

Lemma regenerated_blocks_cover_the_allow_list_witness :
  regenerate 3 0 chainState = Ok (Some chainBlocks, chainEnd.2) ∧
  allowList <$> gens chainEnd.2 = [["P"; "Q"; "R"]] ∧
  dom (Types chainBlocks) = {[ "P"; "Q"; "R" ]} ∧
  ∃ gen',
    gens chainEnd.2 !! 0 = Some gen' ∧
    ∀ n o nm targs under,
      pkg_Scope (pkg gen') !! n
      = Some (types.OTypeName o (Some (types.TNamed nm targs under))) →
      types.obj_Name o ∈ allowList gen' →
      strings.TrimSpace (types.obj_Name o) = types.obj_Name o →
      types.obj_Name o ∉ maps.IgnoredTypes (initialMaps gen') →
      let key := objName (types.obj_Pkg o) (types.obj_Name o) in
      match under with
      | types.TStruct _ | types.TMap _ _ | types.TArray _ _ | types.TSlice _ =>
          is_Some (Types chainBlocks !! key)
      | types.TBasic _ => is_Some (Enums chainBlocks !! key)
      | types.TInterface _ [_] => is_Some (Generics chainBlocks !! key)
      | _ => True
      end.
Proof.
  split; [vm_compute; reflexivity|]. split; [vm_compute; reflexivity|].
  split; [vm_compute; reflexivity|].
  apply (regenerated_blocks_cover_the_allow_list 0 3 chainState chainBlocks chainEnd.2).
  vm_compute. reflexivity.
Defined.

End Witnesses.
